(** * sim3C / Art.py: the read-generation engine

    A shallow embedding of [Art.py] (quality sampling, indel generation,
    read reconstruction and substitution errors) and the properties of
    it that the design document states.

    Python integers are [Z]; a [str], a [list] of characters and a numpy
    ['|S1'] array are all [list ascii] (an empty ['|S1'] cell is the NUL
    character); a Python [dict] is a [gmap]; a float is the rational it
    denotes ([Q]), compared exactly as IEEE comparison does, and rounded
    to the nearest double where the code computes with it. *)

From Stdlib Require Import ZArith QArith Qround List Ascii String Lia.
From Stdlib Require Import Permutation.
From stdpp Require Import base decidable option list gmap strings.

Local Open Scope Z_scope.

(** ** Exceptions and results *)

Inductive exn : Type :=
| KeyError | IndexError | ValueError | AssertionError | IOError
| TypeError | AttributeError.

(** A run either returns, raises, or asks for more random draws than the
    finite prefix of the stream it was given holds. *)
Inductive result (A : Type) : Type :=
| Ok (a : A)
| Raise (e : exn)
| Starved.
Arguments Ok {A} a.
Arguments Raise {A} e.
Arguments Starved {A}.

(** Whether a run returned. *)
Definition returned {A} (r : result A) : bool :=
  match r with
  | Ok _ => true
  | _ => false
  end.

(** ** The shared random stream ([Art.RANDOM_STATE])

    One cell of the tape is the outcome of one call on the generator, as
    a raw word. [UNIFORM()] reads it as a 53-bit fraction in [0,1);
    [RANDINT(lo, hi)] as an integer of [lo, hi). *)
Abbreviation RandomState := (list N) (only parsing).

Definition M (A : Type) : Type := RandomState -> result (A * RandomState).

Definition ret {A} (a : A) : M A := fun rs => Ok (a, rs).

Definition bind {A B} (c : M A) (k : A -> M B) : M B :=
  fun rs =>
    match c rs with
    | Ok (a, rs') => k a rs'
    | Raise e => Raise e
    | Starved => Starved
    end.

Definition raise {A} (e : exn) : M A := fun _ => Raise e.

(** A step that does not touch the stream. *)
Definition lift {A} (r : result A) : M A :=
  fun rs =>
    match r with
    | Ok a => Ok (a, rs)
    | Raise e => Raise e
    | Starved => Starved
    end.

(** A loop that draws at least once per iteration runs at most as many
    iterations as the tape has cells, plus the one that finds it empty. *)
Definition with_fuel {A} (loop : nat -> M A) : M A :=
  fun rs => loop (S (length rs)) rs.

Notation "'let*' x ':=' c 'in' k" := (bind c (fun x => k))
  (at level 10, x name, c at level 200, k at level 200, only parsing).
Notation "'let*' ' pat ':=' c 'in' k" :=
  (bind c (fun x => match x with pat => k end))
  (at level 10, pat pattern, c at level 200, k at level 200, only parsing).

(** [RANDOM_STATE.randint(lo, hi)]: numpy rejects an empty range before
    it draws. *)
Definition RANDINT (lo hi : Z) : M Z :=
  fun rs =>
    if lo <? hi then
      match rs with
      | [] => Starved
      | r :: rs' => Ok (lo + Z.of_N r mod (hi - lo), rs')
      end
    else Raise ValueError.

Definition two53 : positive := Eval cbv in (2 ^ 53)%positive.

(** The double [k / 2^53], [0 <= k < 2^53], a raw word stands for. *)
Definition fraction53 (r : N) : Q := Qmake (Z.of_N r mod Zpos two53) two53.

(** [RANDOM_STATE.uniform()] *)
Definition UNIFORM : M Q :=
  fun rs =>
    match rs with
    | [] => Starved
    | r :: rs' => Ok (fraction53 r, rs')
    end.

(** [f(size=n)]: [n] draws in order, as an array. *)
Fixpoint draw_n {A} (c : M A) (n : nat) : M (list A) :=
  match n with
  | O => ret []
  | S n' => let* x := c in let* xs := draw_n c n' in ret (x :: xs)
  end.

Definition sized {A} (c : M A) (size : Z) : M (list A) :=
  if size <? 0 then raise ValueError else draw_n c (Z.to_nat size).

(** ** Python sequences *)

(** [l[i]]: a negative index counts from the end; [None] is Python's
    [IndexError]. *)
Definition getitem {A} (l : list A) (i : Z) : option A :=
  if i <? 0 then
    (if Z.of_nat (length l) + i <? 0 then None
     else l !! Z.to_nat (Z.of_nat (length l) + i))
  else l !! Z.to_nat i.

(** [a[n] = c] on an array, for [n >= 0]: the length never changes. *)
Definition setitem {A} (l : list A) (n : Z) (c : A) : option (list A) :=
  if (0 <=? n) && (n <? Z.of_nat (length l))
  then Some (<[Z.to_nat n := c]> l) else None.

(** [l[:stop]], with Python's meaning of a negative [stop]. *)
Definition slice_to {A} (l : list A) (stop : Z) : list A :=
  if 0 <=? stop then take (Z.to_nat stop) l
  else take (Z.to_nat (Z.of_nat (length l) + stop)) l.

(** [l[start:stop]]: a negative bound counts from the end, and both are
    clamped to the list. *)
Definition norm_index (len i : Z) : Z :=
  if i <? 0 then Z.max 0 (len + i) else Z.min len i.

Definition slice {A} (l : list A) (start stop : Z) : list A :=
  let len := Z.of_nat (length l) in
  let a := norm_index len start in
  let b := norm_index len stop in
  take (Z.to_nat (b - a)) (drop (Z.to_nat a) l).

(** ** EmpDist constants *)

Definition HIGHEST_QUAL : Z := 80.
Definition MAX_DIST_NUMBER : Z := 1000000.
Definition CMB_SYMB : ascii := ".".
Definition A_SYMB : ascii := "A".
Definition C_SYMB : ascii := "C".
Definition G_SYMB : ascii := "G".
Definition T_SYMB : ascii := "T".
Definition N_SYMB : ascii := "N".
Definition DEL_MARK : ascii := "-".

(** The set [{A_SYMB, C_SYMB, G_SYMB, T_SYMB}], by its elements. *)
Definition PRIMARY_SYMB : list ascii := [A_SYMB; C_SYMB; G_SYMB; T_SYMB].

(** Python's truth value of a one-character cell: the empty cell is
    false. *)
Definition truthy (c : ascii) : bool := negb (Ascii.eqb c Ascii.zero).

(** ** EmpDist: the empirical quality profile *)

(** A positional Q-CDF: rows [(threshold, quality)]. *)
Abbreviation qcdf := (list (Z * Z)) (only parsing).

(** One table list per symbol. A symbol is a [str]. *)
Abbreviation qual_dist := (gmap (list ascii) (list qcdf)) (only parsing).

Record EmpDist : Type := mkEmpDist {
  sep_quals : bool;
  qual_dist_first : qual_dist;
  qual_dist_second : qual_dist;
  dist_max : bool -> Z }.

Definition FIRST : bool := true.
Definition SECOND : bool := false.

Definition ALL_SYMB : list (list ascii) :=
  map (fun c => [c]) (PRIMARY_SYMB ++ [CMB_SYMB; N_SYMB]).

(** [np.searchsorted(a, v)] (side ['left']): numpy's bisection. On a
    sorted [a] it is the first index whose entry is [>= v]. *)
Fixpoint searchsorted_from (fuel : nat) (a : list Z) (v : Z) (lo hi : nat)
  : nat :=
  match fuel with
  | O => lo
  | S fuel' =>
      if (lo <? hi)%nat then
        let mid := (lo + (hi - lo) / 2)%nat in
        match a !! mid with
        | Some x =>
            if x <? v then searchsorted_from fuel' a v (S mid) hi
            else searchsorted_from fuel' a v lo mid
        | None => lo
        end
      else lo
  end.

Definition searchsorted (a : list Z) (v : Z) : nat :=
  searchsorted_from (S (length a)) a v 0 (length a).

(** [EmpDist._lookup_qcdf]:
    [qcdf[np.searchsorted(qcdf[:, 0], rv), 1]] *)
Definition _lookup_qcdf (t : qcdf) (rv : Z) : result Z :=
  match t !! searchsorted (map fst t) rv with
  | Some row => Ok (snd row)
  | None => Raise IndexError
  end.

(** [[qi for qi in imap(EmpDist._lookup_qcdf, qual_dist_for_symb, rv_list)]]:
    [imap] stops with the shorter sequence. *)
Fixpoint imap_lookup_qcdf (qd : list qcdf) (rvs : list Z) : result (list Z) :=
  match qd, rvs with
  | t :: qd', rv :: rvs' =>
      match _lookup_qcdf t rv with
      | Ok q =>
          match imap_lookup_qcdf qd' rvs' with
          | Ok qs => Ok (q :: qs)
          | Raise e => Raise e
          | Starved => Starved
          end
      | Raise e => Raise e
      | Starved => Starved
      end
  | _, _ => Ok []
  end.

(** [EmpDist._get_from_dist] *)
Definition _get_from_dist (qual_dist_for_symb : list qcdf) (rlen : Z)
  : M (list Z) :=
  let* rv_list := sized (RANDINT 1 (MAX_DIST_NUMBER + 1)) rlen in
  match imap_lookup_qcdf qual_dist_for_symb rv_list with
  | Ok quals =>
      if negb (0 <? Z.of_nat (length quals)) then raise AssertionError
      else if negb (Z.of_nat (length quals) =? rlen) then raise AssertionError
      else ret quals
  | Raise e => raise e
  | Starved => fun _ => Starved
  end.

(** [EmpDist.verify_length]:
    [assert length <= self.dist_max[is_first]] *)
Definition verify_length (d : EmpDist) (len : Z) (is_first : bool)
  : result unit :=
  if len <=? dist_max d is_first then Ok tt else Raise AssertionError.

(** [EmpDist.get_read_qual] *)
Definition get_read_qual (d : EmpDist) (rlen : Z) (is_first : bool)
  : M (list Z) :=
  match verify_length d rlen is_first with
  | Ok _ =>
      let qd := if is_first then qual_dist_first d else qual_dist_second d in
      match qd !! [CMB_SYMB] with
      | Some tables => _get_from_dist tables rlen
      | None => raise KeyError
      end
  | Raise e => raise e
  | Starved => fun _ => Starved
  end.

(** A line of a profile file after [strip()], [split('\t')] and the
    conversions [int(tok[1])], [np.array(tok[2:], dtype=int)]: blank
    (which is also what [readline] gives at the end of the file), a
    line on which the conversions raise, or symbol, position and
    integers. *)
Inductive profile_line : Type :=
| Blank
| Unparsed (comment : bool) (e : exn)
| Data (symb : list ascii) (read_pos : Z) (nums : list Z).

(** [line.startswith('#')] *)
Definition is_comment (l : profile_line) : bool :=
  match l with
  | Blank => false
  | Unparsed c _ => c
  | Data symb _ _ =>
      match symb with
      | c :: _ => Ascii.eqb c "#"
      | [] => false
      end
  end.

(** *** Doubles

    [read_emp_dist] scales the counts in numpy's [float64] arithmetic,
    where every operation returns the double nearest to its exact
    result, the one with the even significand of two equally near. A
    double is kept as the rational it is. The counts are 64-bit
    integers and the scale is [1e6], so no result leaves the range of
    the normal doubles and the exponent needs no bound. *)

(** The integer nearest to [n/d], the even one of two equally near, for
    [0 < d]. *)
Definition nearest_even (n d : Z) : Z :=
  let q := n / d in
  match 2 * (n mod d) ?= d with
  | Lt => q
  | Gt => q + 1
  | Eq => if Z.even q then q else q + 1
  end.

(** [n/d / 2^e] as a fraction of integers. *)
Definition shift_num (n e : Z) : Z := n * 2 ^ Z.max 0 (- e).
Definition shift_den (d e : Z) : Z := d * 2 ^ Z.max 0 e.

(** The exponent [e] that puts [n/d / 2^e] in [[2^52, 2^53)], for
    [0 < n] and [0 < d]. *)
Definition exponent (n d : Z) : Z :=
  let e0 := Z.log2 n - Z.log2 d - 52 in
  if shift_num n e0 <? 2 ^ 52 * shift_den d e0 then e0 - 1 else e0.

(** The double nearest to [n/d], for [0 < n] and [0 < d]: [m * 2^e] with
    [m] the integer nearest to [n/d / 2^e], a significand of 53 bits. *)
Definition round_pos (n d : Z) : Q :=
  let e := exponent n d in
  let m := nearest_even (shift_num n e) (shift_den d e) in
  Qmake (m * 2 ^ Z.max 0 e) (Z.to_pos (2 ^ Z.max 0 (- e))).

(** The double nearest to a rational. *)
Definition fl (x : Q) : Q :=
  match Qnum x with
  | 0 => 0%Q
  | Z.pos n => round_pos (Z.pos n) (Z.pos (Qden x))
  | Z.neg n => Qopp (round_pos (Z.pos n) (Z.pos (Qden x)))
  end.

(** [np.ceil(c * MAX_DIST_NUMBER / last).astype(int)] for the count [c]
    of an [int64] array: [c] becomes a double, the product with [1e6]
    and the quotient by the double of [last] are each rounded, and the
    ceiling is cast to [int64]. A zero [last] gives a non-finite double;
    that, like a ceiling outside the 64-bit range, the cast on x86-64
    turns into the least 64-bit integer. *)
Definition scaled_count (c last : Z) : Z :=
  if last =? 0 then - 2 ^ 63
  else
    let x := fl (fl (fl (inject_Z c) * inject_Z MAX_DIST_NUMBER)
                 / fl (inject_Z last)) in
    let r := Qceiling x in
    if (- 2 ^ 63 <=? r) && (r <? 2 ^ 63) then r else - 2 ^ 63.

(** [np.array([(cc, values[i]) for i, cc in enumerate(...counts...)])];
    [None] is the [IndexError] of [counts[-1]] on no counts. *)
Definition make_dist (values counts : list Z) : option qcdf :=
  match last counts with
  | None => None
  | Some lst =>
      Some (zip (map (fun c => scaled_count c lst) counts) values)
  end.

(** The [continue] on lines of the mode that was not asked for. *)
Definition skip_symbol (sep : bool) (symb : list ascii) : bool :=
  if sep then
    bool_decide (symb = [CMB_SYMB]) || bool_decide (symb = [N_SYMB])
  else negb (bool_decide (symb = [CMB_SYMB])).

(** [EmpDist.read_emp_dist] on the lines still to be read, from counter
    [n] and the table of the mate being read; [IOError] is the format
    error. *)
Fixpoint read_emp_dist_from (sep : bool) (lines : list profile_line)
    (n : Z) (qd : qual_dist) {struct lines} : result (Z * qual_dist) :=
  match lines with
  | [] => Ok (n, qd)
  | Blank :: _ => Ok (n, qd)
  | Unparsed c e :: rest =>
      if c then read_emp_dist_from sep rest n qd else Raise e
  | Data symb read_pos values :: rest =>
      if is_comment (Data symb read_pos values) then
        read_emp_dist_from sep rest n qd
      else if skip_symbol sep symb then read_emp_dist_from sep rest n qd
      else if negb (read_pos =? n) && negb (read_pos =? 0) then Raise IOError
      else
        let n := if read_pos =? n then n else 0 in
        match rest with
        | [] => Raise IndexError
        | Blank :: _ => Raise IndexError
        | Unparsed _ e :: _ => Raise e
        | Data symb read_pos counts :: rest' =>
            if negb (read_pos =? n) then Raise IOError
            else if negb (length values =? length counts)%nat then Raise IOError
            else
              match make_dist values counts with
              | None => Raise IndexError
              | Some dist =>
                  match qd !! symb with
                  | None => Raise IOError
                  | Some tables =>
                      read_emp_dist_from sep rest' (n + 1)
                        (<[symb := tables ++ [dist]]> qd)
                  end
              end
        end
  end.

Definition read_emp_dist (sep : bool) (hndl : list profile_line)
    (qd : qual_dist) : result (bool * qual_dist) :=
  match read_emp_dist_from sep hndl 0 qd with
  | Ok (n, qd') => Ok (negb (n =? 0), qd')
  | Raise e => Raise e
  | Starved => Starved
  end.

(** [[len(qd[k]) for k in self.PRIMARY_SYMB]]; [None] is a [KeyError]. *)
Definition primary_lengths (qd : qual_dist) : option (list Z) :=
  mapM (fun c => (fun l => Z.of_nat (length l)) <$> qd !! [c]) PRIMARY_SYMB.

Definition list_max (l : list Z) : Z :=
  match l with
  | [] => 0
  | x :: l' => fold_left Z.max l' x
  end.

(** The [else] branch of [init_dist], for one mate:
    [assert np.all(dist_len == dist_len.max())] and the maximum. *)
Definition full_range (qd : qual_dist) : result Z :=
  match primary_lengths qd with
  | None => Raise KeyError
  | Some dist_len =>
      if forallb (fun x => x =? list_max dist_len) dist_len
      then Ok (list_max dist_len) else Raise AssertionError
  end.

(** [EmpDist.init_dist], on the contents of the two files. *)
Definition init_dist (d : EmpDist) (file_first file_second : list profile_line)
  : result EmpDist :=
  let qf := (fun _ => []) <$> qual_dist_first d in
  let qs := (fun _ => []) <$> qual_dist_second d in
  match read_emp_dist (sep_quals d) file_first qf with
  | Ok (_, qf) =>
      match read_emp_dist (sep_quals d) file_second qs with
      | Ok (_, qs) =>
          if negb (sep_quals d) then
            match qf !! [CMB_SYMB], qs !! [CMB_SYMB] with
            | Some tf, Some ts =>
                Ok (mkEmpDist (sep_quals d) qf qs
                      (fun mate => if mate then Z.of_nat (length tf)
                                   else Z.of_nat (length ts)))
            | _, _ => Raise KeyError
            end
          else
            match full_range qf with
            | Ok mf =>
                match full_range qs with
                | Ok ms =>
                    Ok (mkEmpDist (sep_quals d) qf qs
                          (fun mate => if mate then mf else ms))
                | Raise e => Raise e
                | Starved => Starved
                end
            | Raise e => Raise e
            | Starved => Starved
            end
      | Raise e => Raise e
      | Starved => Starved
      end
  | Raise e => Raise e
  | Starved => Starved
  end.

(** [dict(zip(EmpDist.ALL_SYMB, [[], [], [], [], [], []]))] *)
Definition empty_qual_dist : gmap (list ascii) (list qcdf) :=
  list_to_map (map (fun k => (k, [])) ALL_SYMB).

(** [EmpDist.__init__] *)
Definition EmpDist_init (file_first file_second : list profile_line)
    (sep : bool) : result EmpDist :=
  if sep then Raise AssertionError
  else
    init_dist (mkEmpDist sep empty_qual_dist empty_qual_dist (fun _ => 0))
      file_first file_second.

(** ** SeqRead *)

Record SeqRead : Type := mkSeqRead {
  max_num : Z;
  read_len : Z;
  is_plus_strand : option bool;
  seq_ref : list ascii;
  seq_read : list ascii;
  quals : option (list Z);
  bpos : option Z;
  indel : gmap Z ascii;
  del_rate : list Q;
  ins_rate : list Q }.

Definition with_indel (sr : SeqRead) (m : gmap Z ascii) : SeqRead :=
  mkSeqRead (max_num sr) (read_len sr) (is_plus_strand sr) (seq_ref sr)
    (seq_read sr) (quals sr) (bpos sr) m (del_rate sr) (ins_rate sr).

Definition with_read_len (sr : SeqRead) (n : Z) : SeqRead :=
  mkSeqRead (max_num sr) n (is_plus_strand sr) (seq_ref sr)
    (seq_read sr) (quals sr) (bpos sr) (indel sr) (del_rate sr) (ins_rate sr).

Definition with_is_plus_strand (sr : SeqRead) (b : bool) : SeqRead :=
  mkSeqRead (max_num sr) (read_len sr) (Some b) (seq_ref sr)
    (seq_read sr) (quals sr) (bpos sr) (indel sr) (del_rate sr) (ins_rate sr).

Definition with_seq_ref (sr : SeqRead) (s : list ascii) : SeqRead :=
  mkSeqRead (max_num sr) (read_len sr) (is_plus_strand sr) s
    (seq_read sr) (quals sr) (bpos sr) (indel sr) (del_rate sr) (ins_rate sr).

Definition with_seq_read (sr : SeqRead) (s : list ascii) : SeqRead :=
  mkSeqRead (max_num sr) (read_len sr) (is_plus_strand sr) (seq_ref sr)
    s (quals sr) (bpos sr) (indel sr) (del_rate sr) (ins_rate sr).

Definition with_quals (sr : SeqRead) (q : list Z) : SeqRead :=
  mkSeqRead (max_num sr) (read_len sr) (is_plus_strand sr) (seq_ref sr)
    (seq_read sr) (Some q) (bpos sr) (indel sr) (del_rate sr) (ins_rate sr).

Definition with_bpos (sr : SeqRead) (p : Z) : SeqRead :=
  mkSeqRead (max_num sr) (read_len sr) (is_plus_strand sr) (seq_ref sr)
    (seq_read sr) (quals sr) (Some p) (indel sr) (del_rate sr) (ins_rate sr).

(** [SeqRead.__init__]: [np.zeros(read_len, dtype=np.str)] is an array
    of [read_len] empty cells, and refuses a negative length. *)
Definition SeqRead_init (rlen : Z) (ins del : list Q) (mx : Z)
    (plus_strand : option bool) : result SeqRead :=
  if rlen <? 0 then Raise ValueError
  else
    let zeros := replicate (Z.to_nat rlen) Ascii.zero in
    Ok (mkSeqRead mx rlen plus_strand zeros zeros None None ∅ del ins).

(** [SeqRead.length]: [self.seq_read.shape[0]] *)
Definition SeqRead_length (sr : SeqRead) : Z := Z.of_nat (length (seq_read sr)).

(** The first loop of [SeqRead.ref2read]:
    [while i < len(self.seq_ref)], on source index [i], output index [n]
    and indel-space index [k]. *)
Fixpoint ref2read_walk (fuel : nat) (m : gmap Z ascii) (ref : list ascii)
    (i n k : Z) (out : list ascii) : result (Z * Z * list ascii) :=
  if i <? Z.of_nat (length ref) then
    match fuel with
    | O => Starved
    | S fuel' =>
        match m !! k with
        | None =>
            match getitem ref i with
            | None => Raise IndexError
            | Some c =>
                match setitem out n c with
                | None => Raise IndexError
                | Some out' =>
                    ref2read_walk fuel' m ref (i + 1) (n + 1) (k + 1) out'
                end
            end
        | Some c =>
            if Ascii.eqb c DEL_MARK then
              (* deletion *)
              ref2read_walk fuel' m ref (i + 1) n (k + 1) out
            else
              (* insertion *)
              match setitem out n c with
              | None => Raise IndexError
              | Some out' => ref2read_walk fuel' m ref i (n + 1) (k + 1) out'
              end
        end
    end
  else Ok (n, k, out).

(** The second loop: [while k in self.indel]. *)
Fixpoint ref2read_flush (fuel : nat) (m : gmap Z ascii)
    (n k : Z) (out : list ascii) : result (Z * Z * list ascii) :=
  match m !! k with
  | None => Ok (n, k, out)
  | Some c =>
      match fuel with
      | O => Starved
      | S fuel' =>
          match setitem out n c with
          | None => Raise IndexError
          | Some out' => ref2read_flush fuel' m (n + 1) (k + 1) out'
          end
      end
  end.

(** The [else] branch of [ref2read], with the final [n] and [k].
    [self.seq_read[:] = 0] stores the text of [0] in every cell. Each
    iteration of the first loop advances [i] or meets one more key of
    the map, each iteration of the second meets one more key. *)
Definition ref2read_indels (sr : SeqRead) : result (Z * Z * list ascii) :=
  let out := replicate (length (seq_read sr)) "0"%char in
  match ref2read_walk (length (seq_ref sr) + size (indel sr)) (indel sr)
          (seq_ref sr) 0 0 0 out with
  | Ok (n, k, out') => ref2read_flush (size (indel sr)) (indel sr) n k out'
  | Raise e => Raise e
  | Starved => Starved
  end.

(** [SeqRead.ref2read] *)
Definition ref2read (sr : SeqRead) : result SeqRead :=
  if bool_decide (size (indel sr) = 0%nat) then
    Ok (with_seq_read sr (seq_ref sr))
  else
    match ref2read_indels sr with
    | Ok (_, _, out) => Ok (with_seq_read sr out)
    | Raise e => Raise e
    | Starved => Starved
    end.

(** ** Strings of bases *)

(** [string.maketrans(src, dst)] as the map [translate] applies to each
    character. *)
Fixpoint maketrans (src dst : list ascii) (c : ascii) : ascii :=
  match src, dst with
  | a :: src', b :: dst' =>
      if Ascii.eqb c a then b else maketrans src' dst' c
  | _, _ => c
  end.

(** translation table, non-standard bases become N *)
Definition COMPLEMENT_TABLE : ascii -> ascii :=
  maketrans (list_ascii_of_string "acgtumrwsykvhdbnACGTUMRWSYKVHDBN")
            (list_ascii_of_string "TGCAAnnnnnnnnnnnTGCAANNNNNNNNNNN").

(** [Art.revcomp]: [seq.translate(Art.COMPLEMENT_TABLE)[::-1]] *)
Definition revcomp (seq : list ascii) : list ascii :=
  rev (map COMPLEMENT_TABLE seq).

(** [str.upper] on one character. *)
Definition upper (c : ascii) : ascii :=
  let n := nat_of_ascii c in
  if (97 <=? n)%nat && (n <=? 122)%nat then ascii_of_nat (n - 32) else c.

(** [Art.make_mutable]: [list(input_seq.upper())] *)
Definition make_mutable (input_seq : list ascii) : list ascii :=
  map upper input_seq.

(** What [np.fromstring] is handed: a [str], or a [list] of characters
    such as [make_mutable] and [list(...)] build. *)
Inductive chars : Type :=
| Str (s : list ascii)
| CharList (l : list ascii).

(** [np.fromstring(x, dtype='|S1')]: the characters of a string. It
    takes a string or a buffer, and a list is neither. *)
Definition fromstring (x : chars) : result (list ascii) :=
  match x with
  | Str s => Ok s
  | CharList _ => Raise TypeError
  end.

(** [self.ref_seq] and [self.ref_seq_cmp] are lists of characters:
    [make_mutable(ref_seq)] and [list(Art.revcomp(ref_seq))]. *)
Record Art : Type := mkArt {
  emp_dist : EmpDist;
  ref_seq : option (list ascii);
  ref_seq_cmp : option (list ascii);
  valid_region : option Z;
  art_read_len : Z;
  art_max_num : Z;
  art_ins_rate : list Q;
  art_del_rate : list Q }.

(** ** Data of the closed instances *)

(** One order of listing a set: as written. The closed instances below
    do not depend on which order it is. *)
Definition listed_order (l : list ascii) : list ascii := l.

(** The raw word of the double [floor(num / den * 2^53) / 2^53]. *)
Definition u53 (num den : Z) : N := Z.to_N (num * Zpos two53 / den).

(** Rationals next to the doubles [10.0**(-q*0.1)], [q = 0 .. 79]. *)
Definition near_PROB_ERR : list Q :=
  map (fun q => Qred (Qpower (7943 # 10000) (Z.of_nat q))) (seq 0 80).

(** Stand-ins for the binomial CDF and for the generator's seeding. *)
Definition flat_binom_cdf (k n : Z) (p : Q) : Q := 1%Q.
Definition counter_stream (seed : Z) : list N :=
  map (fun i => Z.to_N ((seed + i) * 1103515245)) (seqZ 0 64).

(** A read of 100 bases with the rate curves of probability 0.01. *)
Definition read100 : SeqRead :=
  mkSeqRead 2 100 (Some true) [] [] None None ∅
    [264 # 1000; 79 # 1000]%Q [264 # 1000; 79 # 1000]%Q.

(** Draws that reject two insertions, accept one (position 5), and
    accept two deletions (positions 7 and 9). *)
Definition tape_one_in_two_out : list N :=
  [u53 1 2; u53 1 10; 5; 0; u53 1 20; 7; 9]%N.

(** A profile of ten positions, the same table at each. *)
Definition two_step_qcdf : list (Z * Z) := [(500000, 30); (1000000, 40)].
Definition ten_positions : EmpDist :=
  mkEmpDist false
    (<[[CMB_SYMB] := replicate 10 two_step_qcdf]> empty_qual_dist)
    (<[[CMB_SYMB] := replicate 10 two_step_qcdf]> empty_qual_dist)
    (fun _ => 10).

(** Profile files with combined lines only: two positions for the first
    mate, one for the second. *)
Definition file_two_positions : list profile_line :=
  [Unparsed true ValueError;
   Data [CMB_SYMB] 0 [30; 40]; Data [CMB_SYMB] 0 [5; 10];
   Data [CMB_SYMB] 1 [30; 40]; Data [CMB_SYMB] 1 [2; 10]].
Definition file_one_position : list profile_line :=
  [Data [CMB_SYMB] 0 [30; 40]; Data [CMB_SYMB] 0 [5; 10]].

(** An [Art] of read length 10 over that profile. *)
Definition art10 : Art :=
  mkArt ten_positions None None None 10 2
    [264 # 1000; 79 # 1000]%Q [264 # 1000; 79 # 1000]%Q.
Definition template12 : list ascii := list_ascii_of_string "ACGTACGTACGT".

(** Draws that reject both deletion counts and two insertions, and
    accept one insertion (position 3). *)
Definition tape_one_in : list N :=
  [u53 1 2; u53 1 2; u53 1 2; u53 1 10; 3; 0]%N.

(** A template shorter than the read, and the draws of [tape_one_in]
    followed by those of the second generator: two insertions rejected,
    one accepted (position 3), both deletion counts rejected. *)
Definition template5 : list ascii := list_ascii_of_string "ACGAT".
Definition tape_one_in_twice : list N :=
  tape_one_in ++ [u53 1 2; u53 1 10; 3; 0; u53 1 2; u53 1 2]%N.

(** An [Art] of read length 10 that holds the 12-base reference. *)
Definition art10_ref : Art :=
  mkArt ten_positions (Some template12) (Some (revcomp template12)) (Some 2)
    10 2 [264 # 1000; 79 # 1000]%Q [264 # 1000; 79 # 1000]%Q.

(** The draws of one insertion, then draws for ten qualities and ten
    error tests that all pass. *)
Definition tape_one_in_then_quiet : list N :=
  tape_one_in ++ replicate 20 (u53 1 2).

(** Draws of one half throughout. *)
Definition tape_halves : list N := replicate 24 (u53 1 2).

(** Two pairs of threshold and count lines. *)
Definition two_pairs : list (list Z * list Z) :=
  [([30; 40], [5; 10]); ([30; 40], [2; 10])].

(** A read of 10 bases with an insertion at position 3 and a deletion
    at position 5, over a reference slice of 10 characters. *)
Definition read_in3_out5 : SeqRead :=
  mkSeqRead 2 10 (Some true) (list_ascii_of_string "ACGTACGTAC")
    (replicate 10 Ascii.zero) None None
    (<[3 := "A"%char]> (<[5 := DEL_MARK]> ∅))
    [264 # 1000; 79 # 1000]%Q [264 # 1000; 79 # 1000]%Q.

(** What the guard at the head of a [for] body decides. *)
Inductive loop_ctl : Type := Break | Continue | Proceed.

Section Engine.

(** The order in which CPython lists the elements of a [set]; any order
    is possible, none is promised. *)
Variable set_list : list ascii -> list ascii.

Definition ALL_SUBS : list ascii := set_list PRIMARY_SYMB.

(** [dict([(si, list(PRIMARY_SYMB - set(si))) for si in PRIMARY_SYMB])] *)
Definition KO_SUBS_LOOKUP : gmap ascii (list ascii) :=
  list_to_map
    (map (fun si => (si, set_list (filter (fun c => c <> si) PRIMARY_SYMB)))
         (set_list PRIMARY_SYMB)).

(** [Art.random_base(excl=None)] *)
Definition random_base (excl : option ascii) : M ascii :=
  match excl with
  | Some c =>
      if truthy c then
        match KO_SUBS_LOOKUP !! c with
        | None => raise KeyError
        | Some subs =>
            let* r := RANDINT 0 3 in
            match getitem subs r with
            | Some b => ret b
            | None => raise IndexError
            end
        end
      else
        let* r := RANDINT 0 4 in
        match getitem ALL_SUBS r with
        | Some b => ret b
        | None => raise IndexError
        end
  | None =>
      let* r := RANDINT 0 4 in
      match getitem ALL_SUBS r with
      | Some b => ret b
      | None => raise IndexError
      end
  end.

(** The rejection loop that places deletions:
    [while j >= 0: pos = RANDINT(0, read_len); if pos == 0: continue;
     if pos not in indel: indel[pos] = '-'; j -= 1] *)
Fixpoint place_deletions (fuel : nat) (rlen j : Z) (m : gmap Z ascii)
  : M (gmap Z ascii) :=
  if j <? 0 then ret m else
  match fuel with
  | O => fun _ => Starved
  | S fuel' =>
      let* pos := RANDINT 0 rlen in
      if pos =? 0 then place_deletions fuel' rlen j m
      else
        match m !! pos with
        | Some _ => place_deletions fuel' rlen j m
        | None => place_deletions fuel' rlen (j - 1) (<[pos := DEL_MARK]> m)
        end
  end.

(** The rejection loop that places insertions:
    [while j >= 0: pos = RANDINT(0, read_len);
     if pos not in indel: indel[pos] = random_base(); j -= 1] *)
Fixpoint place_insertions (fuel : nat) (rlen j : Z) (m : gmap Z ascii)
  : M (gmap Z ascii) :=
  if j <? 0 then ret m else
  match fuel with
  | O => fun _ => Starved
  | S fuel' =>
      let* pos := RANDINT 0 rlen in
      match m !! pos with
      | Some _ => place_insertions fuel' rlen j m
      | None =>
          let* b := random_base None in
          place_insertions fuel' rlen (j - 1) (<[pos := b]> m)
      end
  end.

(** [for i in xrange(len(rate)-1, -1, -1)] with a body of the shape
    [<guard>; if rate[i] >= UNIFORM(): len = i+1; <place i+1 marks>; break].
    [n] candidates remain ([i = n-1] is next); the result is the event
    count that was fixed ([0] when the loop ends without one) and the
    map. *)
Fixpoint scan (guard : Z -> loop_ctl)
    (place : Z -> gmap Z ascii -> M (gmap Z ascii))
    (rate : list Q) (n : nat) (m : gmap Z ascii) : M (Z * gmap Z ascii) :=
  match n with
  | O => ret (0, m)
  | S n' =>
      let i := Z.of_nat n' in
      match guard i with
      | Break => ret (0, m)
      | Continue => scan guard place rate n' m
      | Proceed =>
          match rate !! n' with
          | None => raise IndexError
          | Some r =>
              let* u := UNIFORM in
              if Qle_bool u r then
                let* m' := place i m in ret (i + 1, m')
              else scan guard place rate n' m
          end
      end
  end.

(** [SeqRead.get_indel], with the two counts it subtracts. *)
Definition get_indel_counts (sr : SeqRead) : M (Z * Z * gmap Z ascii) :=
  let ins_len := 0 in
  let del_len := 0 in
  (* deletion *)
  let* '(del_len, m) :=
    scan (fun _ => Proceed)
         (fun i m => with_fuel (fun fuel => place_deletions fuel (read_len sr) i m))
         (del_rate sr) (length (del_rate sr)) ∅ in
  (* insertion *)
  let* '(ins_len, m) :=
    scan (fun i => if read_len sr - del_len - ins_len <? i + 1
                   then Continue else Proceed)
         (fun i m => with_fuel (fun fuel => place_insertions fuel (read_len sr) i m))
         (ins_rate sr) (length (ins_rate sr)) m in
  ret (ins_len, del_len, m).

Definition get_indel (sr : SeqRead) : M (Z * SeqRead) :=
  let* '(ins_len, del_len, m) := get_indel_counts sr in
  ret (ins_len - del_len, with_indel sr m).

(** [SeqRead.get_indel_2], with the two counts it subtracts. *)
Definition get_indel_2_counts (sr : SeqRead) : M (Z * Z * gmap Z ascii) :=
  let ins_len := 0 in
  let del_len := 0 in
  let* '(ins_len, m) :=
    scan (fun _ => Proceed)
         (fun i m => with_fuel (fun fuel => place_insertions fuel (read_len sr) i m))
         (ins_rate sr) (length (ins_rate sr)) ∅ in
  (* deletion *)
  let* '(del_len, m) :=
    scan (fun i => if del_len =? ins_len then Break
                   else if read_len sr - del_len - ins_len <? i + 1
                   then Continue else Proceed)
         (fun i m => with_fuel (fun fuel => place_deletions fuel (read_len sr) i m))
         (del_rate sr) (length (del_rate sr)) m in
  ret (ins_len, del_len, m).

Definition get_indel_2 (sr : SeqRead) : M (Z * SeqRead) :=
  let* '(ins_len, del_len, m) := get_indel_2_counts sr in
  ret (ins_len - del_len, with_indel sr m).

(** [EmpDist.PROB_ERR]: the doubles [10.0**(-xi*0.1)] for
    [xi = 0 .. HIGHEST_QUAL-1], whatever the platform's [pow] makes of
    them. *)
Variable PROB_ERR : list Q.

(** The body of the loop of [parse_error] from position [i] on, with the
    random values of the positions still to come. *)
Fixpoint parse_error_from (rvals : list Q) (i : Z) (qs : list Z)
    (sq : list ascii) : M (list Z * list ascii) :=
  match rvals with
  | [] => ret (qs, sq)
  | rv :: rvals' =>
      match getitem sq i with
      | None => raise IndexError
      | Some c =>
          if Ascii.eqb c N_SYMB then
            (* an undefined base: its quality score goes to 1 *)
            match setitem qs i 1 with
            | None => raise IndexError
            | Some qs' => parse_error_from rvals' (i + 1) qs' sq
            end
          else
            match getitem qs i with
            | None => raise IndexError
            | Some q =>
                match getitem PROB_ERR q with
                | None => raise IndexError
                | Some p =>
                    if negb (Qle_bool p rv) then
                      let* b := random_base (Some c) in
                      match setitem sq i b with
                      | None => raise IndexError
                      | Some sq' => parse_error_from rvals' (i + 1) qs sq'
                      end
                    else parse_error_from rvals' (i + 1) qs sq
                end
            end
      end
  end.

(** [parse_error(quals, seq_read)]: both arguments are changed in
    place, so both are returned. *)
Definition parse_error (qs : list Z) (sq : list ascii)
  : M (list Z * list ascii) :=
  let num_seq := Z.of_nat (length qs) in
  let* rvals := sized UNIFORM num_seq in
  parse_error_from rvals 0 qs sq.

(** ** Art *)

(** [scipy.stats.binom.cdf(k, n, p)] *)
Variable binom_cdf : Z -> Z -> Q -> Q.

(** [np.random.RandomState(seed)]: the stream a seed of [0, 2^32)
    starts. *)
Variable seeded : Z -> RandomState.

(** [Art._make_rate]: the rates, and [self.max_num] as it leaves it. *)
Definition _make_rate (mx rlen : Z) (prob : Q) : Z * list Q :=
  let mx := if rlen <? mx then rlen else mx in
  (mx, map (fun i => (1 - binom_cdf i rlen prob)%Q) (seqZ 1 mx)).

(** [if seed: Art.RANDOM_STATE = np.random.RandomState(seed); ...]:
    what the constructor does to the shared stream. *)
Definition reseed (seed : option Z) : M unit :=
  fun g =>
    match seed with
    | None => Ok (tt, g)
    | Some s =>
        if s =? 0 then Ok (tt, g)
        else if (0 <=? s) && (s <? 2 ^ 32) then Ok (tt, seeded s)
        else Raise ValueError
    end.

(** [Art.__init__] *)
Definition Art_init (rlen : Z) (d : EmpDist) (ins_prob del_prob : Q)
    (mx : Z) (seed : option Z) (ref : option (list ascii)) : M Art :=
  (* check immediately that read lengths are possible for profile *)
  let* _ := lift (verify_length d rlen true) in
  let* _ := lift (verify_length d rlen false) in
  (* initialise random state *)
  let* _ := reseed seed in
  let '(rs, rc, vr) :=
    match ref with
    | Some (c :: r) =>
        (Some (make_mutable (c :: r)), Some (revcomp (c :: r)),
         Some (Z.of_nat (length (c :: r)) - rlen))
    | _ => (None, None, None)
    end in
  let '(mx, ins) := _make_rate mx rlen ins_prob in
  let '(mx, del) := _make_rate mx rlen del_prob in
  ret (mkArt d rs rc vr rlen mx ins del).

(** [Art._new_read], called without [rlen]. *)
Definition _new_read (a : Art) (plus_strand : bool) : result SeqRead :=
  SeqRead_init (art_read_len a) (art_ins_rate a) (art_del_rate a)
    (art_max_num a) (Some plus_strand).

(** [read.quals = ...; parse_error(read.quals, read.seq_read)]: without
    indels [seq_read] is the very array [seq_ref] is, and the
    substitutions show in both. *)
Definition sequence_read (d : EmpDist) (is_first : bool) (read : SeqRead)
  : M SeqRead :=
  let* qs := get_read_qual d (SeqRead_length read) is_first in
  let* '(qs, sq) := parse_error qs (seq_read read) in
  let read := with_quals (with_seq_read read sq) qs in
  ret (if bool_decide (size (indel read) = 0%nat)
       then with_seq_ref read sq else read).

(** [Art.next_read_indel_seq] down to [read.ref2read()], with the net
    length change [slen] that was kept. *)
Definition reconstruct_indel_seq (a : Art) (template : list ascii)
    (plus_strand : bool) : M (Z * SeqRead) :=
  let* read := lift (_new_read a plus_strand) in
  let mut_temp := make_mutable template in
  let read :=
    if Z.of_nat (length mut_temp) <? read_len read
    then with_read_len read (Z.of_nat (length mut_temp)) else read in
  (* indels *)
  let* '(slen, read) := get_indel read in
  (* ensure that this read will fit within the extent of the template *)
  let* '(slen, read) :=
    if Z.of_nat (length mut_temp) <? art_read_len a - slen
    then get_indel_2 read else ret (slen, read) in
  let read :=
    if plus_strand
    then with_seq_ref read (slice_to mut_temp (art_read_len a - slen))
    else with_seq_ref read (slice_to (revcomp template) (art_read_len a - slen)) in
  let read := with_bpos read 0 in
  let* read := lift (ref2read read) in
  ret (slen, read).

(** [Art.next_read_indel_seq] *)
Definition next_read_indel_seq (a : Art) (template : list ascii)
    (plus_strand : bool) : M SeqRead :=
  let* '(_, read) := reconstruct_indel_seq a template plus_strand in
  (* simulated quality scores from profiles; the returned quality
     scores can spawn sequencing errors *)
  sequence_read (emp_dist a) plus_strand read.

(** [Art.next_read_indel_at]. The slice of the reference is a slice of
    a list, and that is what [np.fromstring] is called on. *)
Definition next_read_indel_at (a : Art) (pos : Z) (plus_strand : bool)
  : M SeqRead :=
  let* read := lift (_new_read a true) in
  let read := with_is_plus_strand read plus_strand in
  (* indels *)
  let* '(slen, read) := get_indel read in
  match ref_seq a, ref_seq_cmp a with
  | Some rs, Some rc =>
      (* ensure that this read will fit within the extent of the reference *)
      let* '(slen, read) :=
        if Z.of_nat (length rs) <? pos + art_read_len a - slen
        then get_indel_2 read else ret (slen, read) in
      let* sr :=
        lift (fromstring
                (CharList (slice (if plus_strand then rs else rc) pos
                             (pos + art_read_len a - slen)))) in
      let read := with_seq_ref read sr in
      let read := with_bpos read pos in
      let* read := lift (ref2read read) in
      sequence_read (emp_dist a) true read
  | _, _ => raise TypeError
  end.

(** [Art.next_read_indel] *)
Definition next_read_indel (a : Art) : M SeqRead :=
  match valid_region a with
  | None => raise AttributeError
  | Some vr =>
      (* random position anywhere in valid range *)
      let* pos := RANDINT 0 vr in
      (* is it the forward strand? *)
      let* u := UNIFORM in
      next_read_indel_at a pos (negb (Qle_bool (1 # 2) u))
  end.

(** [Art.next_read_simple_seq] *)
Definition next_read_simple_seq (a : Art) (template : list ascii)
    (plus_strand : bool) (qual_val : Z) : M SeqRead :=
  let* read := lift (_new_read a plus_strand) in
  let read :=
    if Z.of_nat (length template) <? read_len read
    then with_read_len read (Z.of_nat (length template)) else read in
  let read :=
    if plus_strand
    then with_seq_ref read (slice_to template (art_read_len a))
    else with_seq_ref read (slice_to (revcomp template) (art_read_len a)) in
  let read := with_bpos read 0 in
  let* read := lift (ref2read read) in
  (* constant quality scores *)
  ret (with_quals read (replicate (Z.to_nat (read_len read)) qual_val)).

(** ** Runs of a client *)

(** One request of a client of [Art]. *)
Inductive request : Type :=
| IndelSeq (template : list ascii) (plus_strand : bool)
| IndelAt (pos : Z) (plus_strand : bool)
| SimpleSeq (template : list ascii) (plus_strand : bool) (qual_val : Z).

Definition serve (a : Art) (r : request) : M SeqRead :=
  match r with
  | IndelSeq t p => next_read_indel_seq a t p
  | IndelAt pos p => next_read_indel_at a pos p
  | SimpleSeq t p q => next_read_simple_seq a t p q
  end.

(** A run: construct [Art], then serve the requests in order. *)
Fixpoint serve_all (a : Art) (rs : list request) : M (list SeqRead) :=
  match rs with
  | [] => ret []
  | r :: rs' =>
      let* x := serve a r in
      let* xs := serve_all a rs' in
      ret (x :: xs)
  end.

Definition run (rlen : Z) (d : EmpDist) (ins_prob del_prob : Q) (mx : Z)
    (seed : option Z) (ref : option (list ascii)) (rs : list request)
  : M (list SeqRead) :=
  let* a := Art_init rlen d ins_prob del_prob mx seed ref in
  serve_all a rs.

(** ** Reading an indel map *)

(** Position [k] is marked as a deletion. *)
Definition is_del (m : gmap Z ascii) (k : Z) : bool :=
  bool_decide (m !! k = Some DEL_MARK).

(** Position [k] is marked as an insertion. *)
Definition is_ins (m : gmap Z ascii) (k : Z) : bool :=
  match m !! k with
  | Some c => negb (Ascii.eqb c DEL_MARK)
  | None => false
  end.

(** How many of the [len] positions from [k] on satisfy [P]. *)
Fixpoint count_in (P : Z -> bool) (k : Z) (len : nat) : Z :=
  match len with
  | O => 0
  | S len' => (if P k then 1 else 0) + count_in P (k + 1) len'
  end.

(** A map over the positions of a read of [rlen] bases, with [a]
    insertions and [d] deletions, none of the deletions at position 0,
    every inserted character a primary base. *)
Record indel_wf (rlen : Z) (m : gmap Z ascii) (a d : Z) : Prop := {
  wf_keys : forall k c, m !! k = Some c -> 0 <= k < rlen;
  wf_del : forall k, m !! k = Some DEL_MARK -> 1 <= k;
  wf_ins : forall k c, m !! k = Some c -> c <> DEL_MARK -> c ∈ PRIMARY_SYMB;
  wf_count_ins : count_in (is_ins m) 0 (Z.to_nat rlen) = a;
  wf_count_del : count_in (is_del m) 0 (Z.to_nat rlen) = d;
  wf_size : Z.of_nat (size m) = a + d }.

(** ** Well-formed profiles *)

(** The thresholds of a table ascend. *)
Fixpoint ascending (l : list Z) : bool :=
  match l with
  | x :: l' =>
      match l' with
      | y :: _ => (x <=? y) && ascending l'
      | [] => true
      end
  | [] => true
  end.

(** A table as the data model has it: ascending thresholds that end at
    [MAX_DIST_NUMBER] or beyond, quality scores of [0, HIGHEST_QUAL). *)
Definition qcdf_ok (t : qcdf) : bool :=
  ascending (map fst t)
  && match last (map fst t) with
     | Some x => MAX_DIST_NUMBER <=? x
     | None => false
     end
  && forallb (fun row => (0 <=? snd row) && (snd row <? HIGHEST_QUAL)) t.

(** The integer of [1, MAX_DIST_NUMBER] a raw word gives
    [RANDINT(1, MAX_DIST_NUMBER + 1)]. *)
Definition dist_draw (r : N) : Z := 1 + Z.of_N r mod MAX_DIST_NUMBER.

(** The row a draw selects: the first whose threshold is not below it. *)
Definition selects (t : qcdf) (rv q : Z) : Prop :=
  exists (j : nat) thr,
    t !! j = Some (thr, q) /\ rv <= thr
    /\ forall (j' : nat) row, (j' < j)%nat -> t !! j' = Some row -> fst row < rv.

(** What [parse_error] leaves at a position that held base [c] with
    quality [q], drawn value [u] against error probability [p]; a
    substitute is picked by a later cell of the tape out of the listing
    of the other three primary bases. *)
Definition position_outcome (c : ascii) (q : Z) (u p : Q) (tape : list N)
    (q' : Z) (c' : ascii) : Prop :=
  (c = N_SYMB -> q' = 1 /\ c' = c)
  /\ (c <> N_SYMB ->
      q' = q
      /\ ((u < p)%Q ->
          c' ∈ PRIMARY_SYMB /\ c' <> c
          /\ exists r, r ∈ tape
               /\ getitem (set_list (filter (fun x => x <> c) PRIMARY_SYMB))
                    (Z.of_N r mod 3) = Some c')
      /\ (~ (u < p)%Q -> c' = c)).

(** ** Profile files that are well formed *)

(** The lines of a file that gives, from position [i] on, one pair of
    lines per position: thresholds, then counts. *)
Fixpoint profile_lines (symb : list ascii) (i : Z)
    (pairs : list (list Z * list Z)) : list profile_line :=
  match pairs with
  | [] => []
  | (values, counts) :: pairs' =>
      Data symb i values :: Data symb i counts
        :: profile_lines symb (i + 1) pairs'
  end.

(** The table [read_emp_dist] makes of one pair. *)
Definition dist_of (pair : list Z * list Z) : list (Z * Z) :=
  default [] (make_dist (fst pair) (snd pair)).

(** A pair the parser accepts: as many thresholds as counts, at least
    one. *)
Definition pair_ok (pair : list Z * list Z) : bool :=
  (length (fst pair) =? length (snd pair))%nat
  && negb (length (snd pair) =? 0)%nat.

(** ** Pairs of reads *)

(** The dict [{'fwd': ..., 'rev': ...}] of a pair. *)
Record ReadPair : Type := mkReadPair { fwd : SeqRead; rev_read : SeqRead }.

(** [Art.next_pair_simple_seq] *)
Definition next_pair_simple_seq (a : Art) (template : list ascii)
  : M ReadPair :=
  let* f := next_read_simple_seq a template true 40 in
  let* r := next_read_simple_seq a template false 40 in
  ret (mkReadPair f r).

(** [Art.next_pair_indel_seq] *)
Definition next_pair_indel_seq (a : Art) (template : list ascii)
  : M ReadPair :=
  let* f := next_read_indel_seq a template true in
  let* r := next_read_indel_seq a template false in
  ret (mkReadPair f r).

(** ** Where the reconstruction puts a position *)

(** How many keys below [k] are marked as deletions, as insertions. *)
Definition dels_before (m : gmap Z ascii) (k : Z) : Z :=
  count_in (is_del m) 0 (Z.to_nat k).
Definition ins_before (m : gmap Z ascii) (k : Z) : Z :=
  count_in (is_ins m) 0 (Z.to_nat k).

(** ** Properties *)

Hypothesis set_list_perm : forall l, set_list l ≡ₚ l.

Lemma PRIMARY_SYMB_NoDup : NoDup PRIMARY_SYMB.
Proof. by apply (bool_decide_unpack _). Qed.

Lemma KO_SUBS_LOOKUP_other c :
  c ∉ PRIMARY_SYMB -> KO_SUBS_LOOKUP !! c = None.
Proof.
  intros Hc. unfold KO_SUBS_LOOKUP.
  apply not_elem_of_list_to_map_1.
  rewrite <- list_fmap_compose. simpl.
  intros Hin. apply Hc.
  apply list_elem_of_fmap in Hin as (y & -> & Hy).
  simpl. by rewrite <- (set_list_perm PRIMARY_SYMB).
Qed.

Lemma KO_SUBS_LOOKUP_primary c :
  c ∈ PRIMARY_SYMB ->
  KO_SUBS_LOOKUP !! c
  = Some (set_list (filter (fun x => x <> c) PRIMARY_SYMB)).
Proof.
  intros Hc. unfold KO_SUBS_LOOKUP.
  apply elem_of_list_to_map_1.
  - rewrite <- list_fmap_compose.
    replace (fst ∘ _) with (@id ascii) by reflexivity.
    rewrite list_fmap_id. rewrite (set_list_perm PRIMARY_SYMB).
    apply PRIMARY_SYMB_NoDup.
  - apply list_elem_of_fmap. exists c. split; [done|].
    by rewrite (set_list_perm PRIMARY_SYMB).
Qed.

Lemma draw_n_UNIFORM_cons n r rs :
  (n <= length rs)%nat ->
  exists us rs', draw_n UNIFORM (S n) (r :: rs)
    = Ok (fraction53 r :: us, rs').
Proof.
  revert r rs. induction n as [|n IH]; intros r rs Hn.
  - eexists _, _. reflexivity.
  - destruct rs as [|r' rs]; [simpl in Hn; lia|].
    destruct (IH r' rs) as (us & rs' & E); [simpl in Hn; lia|].
    change (draw_n UNIFORM (S (S n)) (r :: r' :: rs))
      with (match draw_n UNIFORM (S n) (r' :: rs) with
            | Ok (xs, rs'') => Ok (fraction53 r :: xs, rs'')
            | Raise e => Raise e | Starved => Starved end).
    rewrite E. eexists _, _. reflexivity.
Qed.

(** C10. A character of the sequence outside A, C, G, T and N (such as
    the ambiguity code R), met with a draw below the error probability
    of its quality, makes [parse_error] raise [KeyError]: the exclusion
    table has the four primary bases only. *)
Theorem parse_error_KeyError c q p qs sq r rs :
  c ∉ PRIMARY_SYMB -> c <> N_SYMB -> c <> Ascii.zero ->
  getitem PROB_ERR q = Some p ->
  (fraction53 r < p)%Q ->
  (length qs <= length rs)%nat ->
  parse_error (q :: qs) (c :: sq) (r :: rs) = Raise KeyError.
Proof.
  intros Hc HN H0 Hp Hlt Hlen.
  unfold parse_error, sized, bind.
  destruct (draw_n_UNIFORM_cons (length qs) r rs Hlen) as (us & rs' & E).
  change (Z.of_nat (length (q :: qs)) <? 0) with false. cbv iota.
  rewrite Nat2Z.id. simpl length. rewrite E.
  cbn [parse_error_from]. unfold bind.
  change (getitem (c :: sq) 0) with (Some c). cbv iota.
  destruct (Ascii.eqb_spec c N_SYMB) as [|_]; [contradiction|].
  change (getitem (q :: qs) 0) with (Some q). cbv iota. rewrite Hp.
  assert (Qle_bool p (fraction53 r) = false) as ->.
  { apply not_true_is_false. rewrite Qle_bool_iff. by apply Qlt_not_le. }
  cbn [negb]. unfold random_base, truthy.
  destruct (Ascii.eqb_spec c Ascii.zero) as [|_]; [contradiction|].
  cbn [negb]. by rewrite KO_SUBS_LOOKUP_other.
Qed.

Lemma COMPLEMENT_TABLE_fixed c :
  c ∈ list_ascii_of_string "ACGTNn" ->
  COMPLEMENT_TABLE (COMPLEMENT_TABLE c) = c.
Proof.
  intros H. repeat (apply elem_of_cons in H as [->|H]; [reflexivity|]).
  by apply elem_of_nil in H.
Qed.

Lemma revcomp_revcomp s :
  revcomp (revcomp s) = map (fun c => COMPLEMENT_TABLE (COMPLEMENT_TABLE c)) s.
Proof.
  unfold revcomp. rewrite map_rev, rev_involutive, map_map. reflexivity.
Qed.

(** C3 (amended). On sequences over A, C, G, T, N and n the reverse
    complement taken twice is the sequence itself. *)
Theorem revcomp_involutive_ACGTN s :
  Forall (fun c => c ∈ list_ascii_of_string "ACGTNn") s ->
  revcomp (revcomp s) = s.
Proof.
  intros H. rewrite revcomp_revcomp.
  induction H as [|c s Hc _ IH]; [reflexivity|].
  simpl. by rewrite COMPLEMENT_TABLE_fixed, IH.
Qed.

Lemma Art_init_seeded_any_state rlen d ip dp mx s ref (g1 g2 : RandomState) :
  s <> 0 ->
  Art_init rlen d ip dp mx (Some s) ref g1
  = Art_init rlen d ip dp mx (Some s) ref g2.
Proof.
  intros Hs. unfold Art_init, bind, lift, reseed.
  destruct (verify_length d rlen true); try reflexivity.
  destruct (verify_length d rlen false); try reflexivity.
  destruct (Z.eqb_spec s 0) as [|_]; [contradiction|].
  destruct ((0 <=? s) && (s <? 2 ^ 32)); reflexivity.
Qed.

(** C8. With a non-zero seed given to the constructor, a run (the
    construction, then any sequence of [next_read_indel_seq],
    [next_read_indel_at] and [next_read_simple_seq] requests on the same
    inputs) gives the same reads and leaves the same stream, whatever
    the shared stream held before: every draw is taken from the stream
    the seed starts, in the order of the code. *)
Theorem seeded_runs_identical rlen d ip dp mx s ref reqs (g1 g2 : RandomState) :
  s <> 0 ->
  run rlen d ip dp mx (Some s) ref reqs g1
  = run rlen d ip dp mx (Some s) ref reqs g2.
Proof.
  intros Hs. unfold run, bind.
  by rewrite (Art_init_seeded_any_state rlen d ip dp mx s ref g1 g2 Hs).
Qed.

(** C9. When the seed is 0 or absent the constructor leaves the shared
    stream as it found it, and seed 0 is the same call as no seed; only
    a non-zero seed replaces the stream. *)
Theorem unseeded_state_unchanged rlen d ip dp mx seed ref (g g' : RandomState) a :
  Art_init rlen d ip dp mx seed ref g = Ok (a, g') ->
  (seed = None \/ seed = Some 0 -> g' = g)
  /\ (forall s, seed = Some s -> s <> 0 -> g' = seeded s)
  /\ Art_init rlen d ip dp mx (Some 0) ref g = Art_init rlen d ip dp mx None ref g.
Proof.
  unfold Art_init, bind, lift, reseed, ret.
  destruct (verify_length d rlen true); try discriminate.
  destruct (verify_length d rlen false); try discriminate.
  intros H. split; [|split].
  - intros [-> | ->]; simpl in H;
      repeat match type of H with context [let '(_, _) := ?x in _] => destruct x end;
      congruence.
  - intros s -> Hs. destruct (Z.eqb_spec s 0); [contradiction|].
    destruct ((0 <=? s) && (s <? 2 ^ 32)); [|discriminate].
    repeat match type of H with context [let '(_, _) := ?x in _] => destruct x end;
      congruence.
  - reflexivity.
Qed.

(** *** Counting marked positions *)

Lemma count_in_bounds P k len : 0 <= count_in P k len <= Z.of_nat len.
Proof.
  revert k. induction len as [|len IH]; intros k; simpl; [lia|].
  specialize (IH (k + 1)). destruct (P k); lia.
Qed.

Lemma count_in_ext P Q k len :
  (forall p, k <= p < k + Z.of_nat len -> P p = Q p) ->
  count_in P k len = count_in Q k len.
Proof.
  revert k. induction len as [|len IH]; intros k H; simpl; [done|].
  rewrite (H k) by lia. rewrite (IH (k + 1)); [done|].
  intros p Hp. apply H. lia.
Qed.

(** Changing [P] at one position of the range changes the count by the
    difference there. *)
Lemma count_in_update P Q k len pos :
  k <= pos < k + Z.of_nat len ->
  (forall p, p <> pos -> P p = Q p) ->
  count_in Q k len
  = count_in P k len + (if Q pos then 1 else 0) - (if P pos then 1 else 0).
Proof.
  revert k. induction len as [|len IH]; intros k Hpos H; simpl; [lia|].
  destruct (decide (k = pos)) as [->|Hne].
  - rewrite (count_in_ext Q P (pos + 1) len).
    + destruct (P pos), (Q pos); lia.
    + intros p Hp. symmetry. apply H. lia.
  - rewrite (H k Hne). rewrite (IH (k + 1)); [|lia|done].
    destruct (Q k); lia.
Qed.

Lemma count_in_disjoint P Q k len :
  (forall p, P p = true -> Q p = false) ->
  count_in P k len + count_in Q k len <= Z.of_nat len.
Proof.
  intros H. revert k. induction len as [|len IH]; intros k; simpl; [lia|].
  specialize (IH (k + 1)). specialize (H k).
  destruct (P k), (Q k); first [lia | by specialize (H eq_refl)].
Qed.

Lemma count_in_full P k len :
  count_in P k len = Z.of_nat len ->
  forall p, k <= p < k + Z.of_nat len -> P p = true.
Proof.
  revert k. induction len as [|len IH]; intros k H p Hp; [simpl in Hp; lia|].
  simpl in H. pose proof (count_in_bounds P (k + 1) len).
  destruct (P k) eqn:Hk; [|lia].
  destruct (decide (p = k)) as [->|]; [done|].
  apply (IH (k + 1)); lia.
Qed.

Lemma count_in_none P k len :
  (forall p, k <= p < k + Z.of_nat len -> P p = false) ->
  count_in P k len = 0.
Proof.
  revert k. induction len as [|len IH]; intros k H; simpl; [done|].
  rewrite (H k) by lia. rewrite IH; [done|]. intros p Hp. apply H. lia.
Qed.

Lemma is_ins_is_del m p : is_ins m p = true -> is_del m p = false.
Proof.
  unfold is_ins, is_del. destruct (m !! p) as [c|]; [|done].
  intros H. apply bool_decide_eq_false. intros [= ->]. done.
Qed.

Lemma indel_wf_empty rlen : indel_wf rlen ∅ 0 0.
Proof.
  split; try (intros *; rewrite lookup_empty; done).
  - apply count_in_none. intros. unfold is_ins. by rewrite lookup_empty.
  - apply count_in_none. intros. unfold is_del. by rewrite lookup_empty.
  - by rewrite map_size_empty.
Qed.

Lemma is_ins_None m p : m !! p = None -> is_ins m p = false.
Proof. unfold is_ins. by intros ->. Qed.

Lemma is_del_None m p : m !! p = None -> is_del m p = false.
Proof. unfold is_del. intros ->. by apply bool_decide_eq_false. Qed.

Lemma is_ins_insert m p c :
  is_ins (<[p := c]> m) p = negb (Ascii.eqb c DEL_MARK).
Proof. unfold is_ins. by rewrite lookup_insert_eq. Qed.

Lemma is_del_insert m p c :
  is_del (<[p := c]> m) p = Ascii.eqb c DEL_MARK.
Proof.
  unfold is_del. rewrite lookup_insert_eq.
  destruct (Ascii.eqb_spec c DEL_MARK) as [->|Hne].
  - by apply bool_decide_eq_true.
  - apply bool_decide_eq_false. congruence.
Qed.

Lemma primary_not_DEL_MARK b : b ∈ PRIMARY_SYMB -> b <> DEL_MARK.
Proof. intros Hb ->. revert Hb. by apply (bool_decide_unpack _). Qed.

Lemma indel_wf_insert rlen m a d pos c :
  indel_wf rlen m a d -> 0 <= pos < rlen -> m !! pos = None ->
  (c = DEL_MARK -> 1 <= pos) -> (c <> DEL_MARK -> c ∈ PRIMARY_SYMB) ->
  indel_wf rlen (<[pos := c]> m)
    (a + if Ascii.eqb c DEL_MARK then 0 else 1)
    (d + if Ascii.eqb c DEL_MARK then 1 else 0).
Proof.
  intros [Hk Hd Hi Ha Hdc Hs] Hpos Hnone Hc1 Hc2. split.
  - intros k c'. rewrite lookup_insert. case_decide; [intros; lia|apply Hk].
  - intros k. rewrite lookup_insert.
    case_decide; [intros [= ->]; subst; auto|apply Hd].
  - intros k c'. rewrite lookup_insert.
    case_decide; [intros [= ->]; auto|apply Hi].
  - rewrite (count_in_update (is_ins m) _ 0 _ pos); [|lia|].
    + rewrite is_ins_insert, (is_ins_None m pos Hnone).
      destruct (Ascii.eqb c DEL_MARK); simpl; lia.
    + intros p Hp. unfold is_ins. by rewrite lookup_insert_ne.
  - rewrite (count_in_update (is_del m) _ 0 _ pos); [|lia|].
    + rewrite is_del_insert, (is_del_None m pos Hnone).
      destruct (Ascii.eqb c DEL_MARK); simpl; lia.
    + intros p Hp. unfold is_del. by rewrite lookup_insert_ne.
  - rewrite map_size_insert_None by done.
    destruct (Ascii.eqb c DEL_MARK); lia.
Qed.

(** *** The draws *)

Lemma RANDINT_Ok lo hi rs x rs' :
  RANDINT lo hi rs = Ok (x, rs') ->
  lo <= x < hi /\ exists r, rs = r :: rs' /\ x = lo + Z.of_N r mod (hi - lo).
Proof.
  unfold RANDINT. destruct (Z.ltb_spec lo hi); [|discriminate].
  destruct rs as [|r rs0]; [discriminate|]. intros [= <- <-].
  pose proof (Z.mod_pos_bound (Z.of_N r) (hi - lo)). split; [lia|eauto].
Qed.

Lemma getitem_elem_of {A} (l : list A) i x : getitem l i = Some x -> x ∈ l.
Proof.
  unfold getitem. intros H. apply list_elem_of_lookup.
  destruct (i <? 0); [destruct (_ <? 0); [discriminate|]|]; eauto.
Qed.

Lemma getitem_nonneg {A} (l : list A) i :
  0 <= i -> getitem l i = l !! Z.to_nat i.
Proof. unfold getitem. intros H. by destruct (Z.ltb_spec i 0); [lia|]. Qed.

Lemma random_base_None_Ok rs b rs' :
  random_base None rs = Ok (b, rs') ->
  b ∈ PRIMARY_SYMB /\ exists r, rs = r :: rs'.
Proof.
  unfold random_base, bind.
  destruct (RANDINT 0 4 rs) as [[x rs1]| |] eqn:E; try discriminate.
  apply RANDINT_Ok in E as (_ & r & -> & _).
  destruct (getitem ALL_SUBS x) as [c|] eqn:G; [|discriminate].
  intros [= <- <-]. split; [|eauto].
  apply getitem_elem_of in G. unfold ALL_SUBS in G.
  by rewrite (set_list_perm PRIMARY_SYMB) in G.
Qed.

(** *** The placement loops and the scans keep the map well formed *)

Lemma place_deletions_wf rlen a fuel : forall j m rs m' rs' d,
  place_deletions fuel rlen j m rs = Ok (m', rs') ->
  -1 <= j -> indel_wf rlen m a d -> indel_wf rlen m' a (d + (j + 1)).
Proof.
  induction fuel as [|fuel IH]; intros j m rs m' rs' d; simpl;
    destruct (Z.ltb_spec j 0) as [Hj|Hj].
  - intros [= <- <-] ? Hwf. by replace (d + (j + 1)) with d by lia.
  - discriminate.
  - intros [= <- <-] ? Hwf. by replace (d + (j + 1)) with d by lia.
  - unfold bind. destruct (RANDINT 0 rlen rs) as [[pos rs1]| |] eqn:E;
      try discriminate.
    apply RANDINT_Ok in E as (Hpos & _).
    destruct (Z.eqb_spec pos 0) as [|Hne]; [by apply IH|].
    destruct (m !! pos) eqn:Hm; [by apply IH|].
    intros Hrun _ Hwf.
    apply (IH _ _ _ _ _ (d + 1)) in Hrun; [|lia|].
    + by replace (d + (j + 1)) with (d + 1 + (j - 1 + 1)) by lia.
    + apply (indel_wf_insert rlen m a d pos DEL_MARK) in Hwf;
        [|lia|done|lia|done].
      rewrite Ascii.eqb_refl in Hwf. by replace (a + 0) with a in Hwf by lia.
Qed.

Lemma place_insertions_wf rlen d fuel : forall j m rs m' rs' a,
  place_insertions fuel rlen j m rs = Ok (m', rs') ->
  -1 <= j -> indel_wf rlen m a d -> indel_wf rlen m' (a + (j + 1)) d.
Proof.
  induction fuel as [|fuel IH]; intros j m rs m' rs' a;
    cbn [place_insertions]; destruct (Z.ltb_spec j 0) as [Hj|Hj].
  - intros [= <- <-] ? Hwf. by replace (a + (j + 1)) with a by lia.
  - discriminate.
  - intros [= <- <-] ? Hwf. by replace (a + (j + 1)) with a by lia.
  - unfold bind. destruct (RANDINT 0 rlen rs) as [[pos rs1]| |] eqn:E;
      try discriminate.
    apply RANDINT_Ok in E as (Hpos & _).
    destruct (m !! pos) eqn:Hm; [by apply IH|].
    destruct (random_base None rs1) as [[b rs2]| |] eqn:Eb; try discriminate.
    apply random_base_None_Ok in Eb as (Hb & _).
    intros Hrun _ Hwf.
    apply (IH _ _ _ _ _ (a + 1)) in Hrun; [|lia|].
    + by replace (a + (j + 1)) with (a + 1 + (j - 1 + 1)) by lia.
    + apply (indel_wf_insert rlen m a d pos b) in Hwf; [|lia|done|..].
      * pose proof (primary_not_DEL_MARK b Hb).
        destruct (Ascii.eqb_spec b DEL_MARK); [done|].
        by replace (d + 0) with d in Hwf by lia.
      * intros ->. by apply primary_not_DEL_MARK in Hb.
      * done.
Qed.

Lemma scan_inv (Inv : gmap Z ascii -> Z -> Prop) guard place rate :
  (forall x y m, x = y -> Inv m x -> Inv m y) ->
  (forall i m rs m' rs' x,
     0 <= i -> place i m rs = Ok (m', rs') -> Inv m x -> Inv m' (x + (i + 1))) ->
  forall n m rs len m' rs' x,
    scan guard place rate n m rs = Ok (len, m', rs') ->
    Inv m x ->
    Inv m' (x + len) /\ 0 <= len <= Z.of_nat n
    /\ (len = 0 \/ guard (len - 1) = Proceed).
Proof.
  intros Heq Hplace. induction n as [|n IH]; intros m rs len m' rs' x; simpl.
  - intros [= <- <- <-] HI. split; [apply (Heq x); [lia|done]|lia].
  - destruct (guard (Z.of_nat n)) eqn:Hg.
    + intros [= <- <- <-] HI. split; [apply (Heq x); [lia|done]|lia].
    + intros Hrun HI. destruct (IH _ _ _ _ _ _ Hrun HI) as (? & ? & ?).
      split; [done|]. split; [lia|done].
    + destruct (rate !! n) as [r|]; [|discriminate].
      unfold bind. destruct (UNIFORM rs) as [[u rs1]| |]; try discriminate.
      destruct (Qle_bool u r).
      * destruct (place (Z.of_nat n) m rs1) as [[m1 rs2]| |] eqn:Ep;
          try discriminate.
        intros [= <- <- <-] HI. split; [|split; [lia|]].
        -- eapply Hplace; [lia|exact Ep|done].
        -- right. by replace (Z.of_nat n + 1 - 1) with (Z.of_nat n) by lia.
      * intros Hrun HI. destruct (IH _ _ _ _ _ _ Hrun HI) as (? & ? & ?).
        split; [done|]. split; [lia|done].
Qed.

Lemma scan_deletions_wf rlen guard rate a n m rs len m' rs' d :
  scan guard
    (fun i m => with_fuel (fun fuel => place_deletions fuel rlen i m))
    rate n m rs = Ok (len, m', rs') ->
  indel_wf rlen m a d ->
  indel_wf rlen m' a (d + len) /\ 0 <= len <= Z.of_nat n
  /\ (len = 0 \/ guard (len - 1) = Proceed).
Proof.
  apply (scan_inv (fun m x => indel_wf rlen m a x)).
  - by intros x y m0 ->.
  - intros i m0 rs0 m1 rs1 x Hi Hrun. unfold with_fuel in Hrun.
    eapply place_deletions_wf; [exact Hrun|lia].
Qed.

Lemma scan_insertions_wf rlen guard rate d n m rs len m' rs' a :
  scan guard
    (fun i m => with_fuel (fun fuel => place_insertions fuel rlen i m))
    rate n m rs = Ok (len, m', rs') ->
  indel_wf rlen m a d ->
  indel_wf rlen m' (a + len) d /\ 0 <= len <= Z.of_nat n
  /\ (len = 0 \/ guard (len - 1) = Proceed).
Proof.
  apply (scan_inv (fun m x => indel_wf rlen m x d)).
  - by intros x y m0 ->.
  - intros i m0 rs0 m1 rs1 x Hi Hrun. unfold with_fuel in Hrun.
    eapply place_insertions_wf; [exact Hrun|lia].
Qed.

Lemma get_indel_counts_wf sr rs a d m rs' :
  get_indel_counts sr rs = Ok (a, d, m, rs') ->
  indel_wf (read_len sr) m a d /\ 0 <= a /\ 0 <= d.
Proof.
  unfold get_indel_counts, bind, ret.
  destruct (scan _ _ (del_rate sr) _ _ rs) as [[[d1 m1] rs1]| |] eqn:E1;
    try discriminate.
  destruct (scan _ _ (ins_rate sr) _ _ rs1) as [[[a1 m2] rs2]| |] eqn:E2;
    try discriminate.
  intros [= <- <- <- <-].
  apply (scan_deletions_wf _ _ _ 0 _ _ _ _ _ _ 0) in E1
    as (W1 & ? & _); [|apply indel_wf_empty].
  apply (scan_insertions_wf _ _ _ (0 + d1) _ _ _ _ _ _ 0) in E2
    as (W2 & ? & _); [|done].
  replace (0 + a1) with a1 in W2 by lia.
  replace (0 + d1) with d1 in W2 by lia. split; [done|lia].
Qed.

Lemma get_indel_2_counts_wf sr rs a d m rs' :
  get_indel_2_counts sr rs = Ok (a, d, m, rs') ->
  indel_wf (read_len sr) m a d /\ 0 <= a /\ 0 <= d.
Proof.
  unfold get_indel_2_counts, bind, ret.
  destruct (scan _ _ (ins_rate sr) _ _ rs) as [[[a1 m1] rs1]| |] eqn:E1;
    try discriminate.
  destruct (scan _ _ (del_rate sr) _ _ rs1) as [[[d1 m2] rs2]| |] eqn:E2;
    try discriminate.
  intros [= <- <- <- <-].
  apply (scan_insertions_wf _ _ _ 0 _ _ _ _ _ _ 0) in E1
    as (W1 & ? & _); [|apply indel_wf_empty].
  apply (scan_deletions_wf _ _ _ (0 + a1) _ _ _ _ _ _ 0) in E2
    as (W2 & ? & _); [|done].
  replace (0 + a1) with a1 in W2 by lia.
  replace (0 + d1) with d1 in W2 by lia. split; [done|lia].
Qed.

(** C7. A map that [get_indel] or [get_indel_2] returns has pairwise
    distinct keys (as many as insertions and deletions were placed);
    a key marked ['-'] lies in [1, read_len); a key marked with a base
    lies in [0, read_len). *)
Theorem indel_map_keys sr rs slen sr' rs' :
  get_indel sr rs = Ok (slen, sr', rs')
  \/ get_indel_2 sr rs = Ok (slen, sr', rs') ->
  NoDup (map_to_list (indel sr')).*1
  /\ (forall k, indel sr' !! k = Some DEL_MARK -> 1 <= k < read_len sr)
  /\ (forall k c, indel sr' !! k = Some c -> c <> DEL_MARK ->
        0 <= k < read_len sr /\ c ∈ PRIMARY_SYMB)
  /\ exists ins_len del_len,
       0 <= ins_len /\ 0 <= del_len /\ slen = ins_len - del_len
       /\ Z.of_nat (length (map_to_list (indel sr'))) = ins_len + del_len.
Proof.
  intros H.
  assert (exists a d, indel_wf (read_len sr) (indel sr') a d
                      /\ 0 <= a /\ 0 <= d /\ slen = a - d) as (a & d & W & ? & ? & ->).
  { destruct H as [H|H].
    - unfold get_indel, bind, ret in H.
      destruct (get_indel_counts sr rs) as [[[[a d] m] rs1]| |] eqn:E;
        try discriminate.
      injection H as <- <- <-. apply get_indel_counts_wf in E as (? & ? & ?).
      by exists a, d.
    - unfold get_indel_2, bind, ret in H.
      destruct (get_indel_2_counts sr rs) as [[[[a d] m] rs1]| |] eqn:E;
        try discriminate.
      injection H as <- <- <-. apply get_indel_2_counts_wf in E as (? & ? & ?).
      by exists a, d. }
  destruct W as [Hk Hd Hi Ha Hdc Hs]. split; [apply NoDup_fst_map_to_list|].
  split; [|split].
  - intros k Hkd. specialize (Hk _ _ Hkd). specialize (Hd _ Hkd). lia.
  - intros k c Hkc Hc. split; [by eapply Hk|by eapply Hi].
  - exists a, d. rewrite length_map_to_list.
    unfold size, map_size in Hs. done.
Qed.

(** *** Reconstruction *)

Lemma count_in_step P k rlen :
  k < rlen ->
  count_in P k (Z.to_nat (rlen - k))
  = (if P k then 1 else 0) + count_in P (k + 1) (Z.to_nat (rlen - (k + 1))).
Proof.
  intros H. replace (Z.to_nat (rlen - k)) with (S (Z.to_nat (rlen - (k + 1))))
    by lia. reflexivity.
Qed.

Lemma setitem_Some {A} (l : list A) n c :
  0 <= n < Z.of_nat (length l) ->
  exists l', setitem l n c = Some l' /\ length l' = length l.
Proof.
  intros H. unfold setitem.
  destruct (Z.leb_spec 0 n); [|lia]. destruct (Z.ltb_spec n (Z.of_nat (length l))); [|lia].
  eexists. split; [reflexivity|]. apply length_insert.
Qed.

Lemma getitem_Some {A} (l : list A) i :
  0 <= i < Z.of_nat (length l) -> exists c, getitem l i = Some c.
Proof.
  intros H. rewrite getitem_nonneg by lia.
  apply lookup_lt_is_Some. lia.
Qed.

Section Walk.

Variable m : gmap Z ascii.
Variable ref : list ascii.
Variable rlen : Z.
Hypothesis keys_in_range : forall k c, m !! k = Some c -> 0 <= k < rlen.

Let M := Z.of_nat (length ref).
Let A (k : Z) := count_in (is_ins m) k (Z.to_nat (rlen - k)).
Let D (k : Z) := count_in (is_del m) k (Z.to_nat (rlen - k)).

(** Past the last position of the read the walk only copies. *)
Lemma ref2read_walk_tail fuel : forall i n k out,
  rlen <= k -> 0 <= i <= M -> 0 <= n ->
  n + (M - i) <= Z.of_nat (length out) ->
  M - i <= Z.of_nat fuel ->
  exists out',
    ref2read_walk fuel m ref i n k out = Ok (n + (M - i), k + (M - i), out')
    /\ length out' = length out.
Proof.
  induction fuel as [|fuel IH]; intros i n k out Hk Hi Hn Hout Hfuel;
    cbn [ref2read_walk]; fold M; destruct (Z.ltb_spec i M) as [Hlt|Hge].
  - lia.
  - exists out. split; [|done]. do 3 f_equal; lia.
  - destruct (m !! k) as [c|] eqn:Hm; [apply keys_in_range in Hm; lia|].
    destruct (getitem_Some ref i) as [c Hc]; [subst M; lia|]. rewrite Hc.
    destruct (setitem_Some out n c) as (out1 & -> & Hlen); [lia|].
    destruct (IH (i + 1) (n + 1) (k + 1) out1) as (out' & -> & Hlen');
      try lia.
    exists out'. split; [do 3 f_equal; lia|congruence].
  - exists out. split; [|done]. do 3 f_equal; lia.
Qed.

(** When only insertions are left, the second loop emits them all. *)
Lemma ref2read_flush_insertions fuel : forall n k out,
  0 <= k <= rlen -> A k = rlen - k -> 0 <= n ->
  n + (rlen - k) <= Z.of_nat (length out) ->
  rlen - k <= Z.of_nat fuel ->
  exists out',
    ref2read_flush fuel m n k out = Ok (n + (rlen - k), rlen, out')
    /\ length out' = length out.
Proof.
  induction fuel as [|fuel IH]; intros n k out Hk HA Hn Hout Hfuel.
  - assert (k = rlen) as -> by lia. simpl.
    destruct (m !! rlen) as [c|] eqn:Hm; [apply keys_in_range in Hm; lia|].
    exists out. split; [do 3 f_equal; lia|done].
  - destruct (decide (k = rlen)) as [->|Hne].
    + simpl.
      destruct (m !! rlen) as [c|] eqn:Hm; [apply keys_in_range in Hm; lia|].
      exists out. split; [do 3 f_equal; lia|done].
    + assert (is_ins m k = true) as Hins.
      { apply (count_in_full _ k (Z.to_nat (rlen - k))); [|lia].
        fold (A k). lia. }
      unfold A in HA. rewrite count_in_step in HA by lia. rewrite Hins in HA.
      cbn [ref2read_flush]. unfold is_ins in Hins.
      destruct (m !! k) as [c|]; [|done].
      destruct (setitem_Some out n c) as (out1 & -> & Hlen); [lia|].
      destruct (IH (n + 1) (k + 1) out1) as (out' & -> & Hlen');
        try lia; [unfold A; lia|].
      exists out'. split; [do 3 f_equal; lia|congruence].
Qed.

(** Both loops: from a state in which [e] more reference characters
    are left than the positions still to come need, the output ends
    with [F] characters written. *)
Lemma ref2read_loops e F fuel2 fuel : forall i n k out,
  0 <= k <= rlen -> 0 <= i <= M -> 0 <= n -> 0 <= e ->
  M - i = (rlen - k) - A k + e ->
  n + (rlen - k) - D k + e = F ->
  F <= Z.of_nat (length out) ->
  (M - i) + A k <= Z.of_nat fuel ->
  A k <= Z.of_nat fuel2 ->
  exists n' k' out' k'' out'',
    ref2read_walk fuel m ref i n k out = Ok (n', k', out')
    /\ ref2read_flush fuel2 m n' k' out' = Ok (F, k'', out'')
    /\ length out'' = length out.
Proof.
  induction fuel as [|fuel IH]; intros i n k out Hk Hi Hn He HM HF Hout Hf Hf2.
  - (* no fuel: nothing is left to do *)
    pose proof (count_in_bounds (is_ins m) k (Z.to_nat (rlen - k))) as HA.
    pose proof (count_in_disjoint (is_ins m) (is_del m) k (Z.to_nat (rlen - k))
                  (is_ins_is_del m)) as HAD.
    pose proof (count_in_bounds (is_del m) k (Z.to_nat (rlen - k))) as HD.
    fold (A k) in HA, HAD. fold (D k) in HAD, HD.
    assert (i = M) as -> by lia.
    cbn [ref2read_walk]. fold M. rewrite Z.ltb_irrefl.
    destruct (ref2read_flush_insertions fuel2 n k out) as (out' & E & Hlen);
      try lia.
    exists n, k, out, rlen, out'. split; [done|]. split; [|done].
    rewrite E. do 3 f_equal. lia.
  - pose proof (count_in_bounds (is_ins m) k (Z.to_nat (rlen - k))) as HA.
    pose proof (count_in_disjoint (is_ins m) (is_del m) k (Z.to_nat (rlen - k))
                  (is_ins_is_del m)) as HAD.
    pose proof (count_in_bounds (is_del m) k (Z.to_nat (rlen - k))) as HD.
    fold (A k) in HA, HAD. fold (D k) in HAD, HD.
    destruct (decide (i = M)) as [->|HiM].
    { cbn [ref2read_walk]. fold M. rewrite Z.ltb_irrefl.
      destruct (ref2read_flush_insertions fuel2 n k out) as (out' & E & Hlen);
        try lia.
      exists n, k, out, rlen, out'. split; [done|]. split; [|done].
      rewrite E. do 3 f_equal. lia. }
    destruct (decide (k = rlen)) as [->|Hkr].
    { assert (A rlen = 0) as HA0 by (unfold A; by rewrite Z.sub_diag).
      assert (D rlen = 0) as HD0 by (unfold D; by rewrite Z.sub_diag).
      destruct (ref2read_walk_tail (S fuel) i n rlen out)
        as (out' & E & Hlen); try lia.
      exists (n + (M - i)), (rlen + (M - i)), out', (rlen + (M - i)), out'.
      split; [done|]. split; [|done].
      destruct fuel2; simpl;
        (destruct (m !! (rlen + (M - i))) as [c|] eqn:Hm;
           [apply keys_in_range in Hm; lia|]); do 3 f_equal; lia. }
    pose proof (count_in_bounds (is_ins m) (k + 1) (Z.to_nat (rlen - (k + 1)))) as HA1.
    pose proof (count_in_bounds (is_del m) (k + 1) (Z.to_nat (rlen - (k + 1)))) as HD1.
    assert (A k = (if is_ins m k then 1 else 0) + A (k + 1)) as HAs
      by (unfold A; apply count_in_step; lia).
    assert (D k = (if is_del m k then 1 else 0) + D (k + 1)) as HDs
      by (unfold D; apply count_in_step; lia).
    fold (A (k + 1)) in HA1. fold (D (k + 1)) in HD1.
    cbn [ref2read_walk]. fold M. destruct (Z.ltb_spec i M) as [_|]; [|lia].
    unfold is_ins, is_del in HAs, HDs.
    destruct (m !! k) as [c|] eqn:Hm.
    + destruct (Ascii.eqb_spec c DEL_MARK) as [->|Hc].
      * (* deletion *)
        rewrite bool_decide_eq_true_2 in HDs by done. simpl in HAs.
        destruct (IH (i + 1) n (k + 1) out)
          as (n' & k' & out' & k'' & out'' & E1 & E2 & Hlen); try lia.
        by exists n', k', out', k'', out''.
      * (* insertion *)
        rewrite bool_decide_eq_false_2 in HDs by congruence. simpl in HAs.
        destruct (setitem_Some out n c) as (out1 & -> & Hlen1); [lia|].
        destruct (IH i (n + 1) (k + 1) out1)
          as (n' & k' & out' & k'' & out'' & E1 & E2 & Hlen); try lia.
        exists n', k', out', k'', out''. split; [done|]. split; [done|congruence].
    + rewrite bool_decide_eq_false_2 in HDs by congruence.
      destruct (getitem_Some ref i) as [c Hc]; [subst M; lia|]. rewrite Hc.
      destruct (setitem_Some out n c) as (out1 & -> & Hlen1); [lia|].
      destruct (IH (i + 1) (n + 1) (k + 1) out1)
        as (n' & k' & out' & k'' & out'' & E1 & E2 & Hlen); try lia.
      exists n', k', out', k'', out''. split; [done|]. split; [done|congruence].
Qed.

End Walk.

(** With a well-formed map, a reference that covers the positions that
    are not insertions and an output array that is long enough,
    [ref2read] writes one character per reference character and per
    insertion, less one per deletion. *)
Lemma ref2read_indels_count sr a d :
  indel_wf (read_len sr) (indel sr) a d -> 0 <= read_len sr ->
  read_len sr - a <= Z.of_nat (length (seq_ref sr)) ->
  Z.of_nat (length (seq_ref sr)) + a - d <= Z.of_nat (length (seq_read sr)) ->
  exists k out,
    ref2read_indels sr = Ok (Z.of_nat (length (seq_ref sr)) + a - d, k, out)
    /\ length out = length (seq_read sr).
Proof.
  intros [Hk Hd Hi Ha Hdc Hs] HR He HF. unfold ref2read_indels.
  pose proof (count_in_bounds (is_del (indel sr)) 0 (Z.to_nat (read_len sr)))
    as Hd0. rewrite Hdc in Hd0.
  destruct (ref2read_loops (indel sr) (seq_ref sr) (read_len sr) Hk
              (Z.of_nat (length (seq_ref sr)) - read_len sr + a)
              (Z.of_nat (length (seq_ref sr)) + a - d)
              (size (indel sr)) (length (seq_ref sr) + size (indel sr))
              0 0 0 (replicate (length (seq_read sr)) "0"%char))
    as (n' & k' & out' & k'' & out'' & -> & -> & Hlen);
    rewrite ?Z.sub_0_r, ?Ha, ?Hdc, ?length_replicate; try lia.
  exists k'', out''. split; [done|]. by rewrite Hlen, length_replicate.
Qed.

Lemma get_indel_Ok sr rs slen sr' rs' :
  get_indel sr rs = Ok (slen, sr', rs') ->
  exists a d m, sr' = with_indel sr m /\ indel_wf (read_len sr) m a d
                /\ 0 <= a /\ 0 <= d /\ slen = a - d.
Proof.
  unfold get_indel, bind, ret.
  destruct (get_indel_counts sr rs) as [[[[a d] m] rs1]| |] eqn:E;
    try discriminate.
  intros [= <- <- <-]. apply get_indel_counts_wf in E as (? & ? & ?).
  by exists a, d, m.
Qed.

Lemma get_indel_2_Ok sr rs slen sr' rs' :
  get_indel_2 sr rs = Ok (slen, sr', rs') ->
  exists a d m, sr' = with_indel sr m /\ indel_wf (read_len sr) m a d
                /\ 0 <= a /\ 0 <= d /\ slen = a - d.
Proof.
  unfold get_indel_2, bind, ret.
  destruct (get_indel_2_counts sr rs) as [[[[a d] m] rs1]| |] eqn:E;
    try discriminate.
  intros [= <- <- <-]. apply get_indel_2_counts_wf in E as (? & ? & ?).
  by exists a, d, m.
Qed.

Lemma indel_wf_counts rlen m a d :
  indel_wf rlen m a d -> 0 <= rlen -> 0 <= a /\ 0 <= d /\ a + d <= rlen.
Proof.
  intros [_ _ _ Ha Hd _] HR.
  pose proof (count_in_bounds (is_ins m) 0 (Z.to_nat rlen)).
  pose proof (count_in_bounds (is_del m) 0 (Z.to_nat rlen)).
  pose proof (count_in_disjoint (is_ins m) (is_del m) 0 (Z.to_nat rlen)
                (is_ins_is_del m)). lia.
Qed.

Lemma length_slice_to {A} (l : list A) stop :
  0 <= stop ->
  Z.of_nat (length (slice_to l stop)) = Z.min stop (Z.of_nat (length l)).
Proof.
  intros H. unfold slice_to. destruct (Z.leb_spec 0 stop); [|lia].
  rewrite length_take. lia.
Qed.

Lemma length_revcomp s : length (revcomp s) = length s.
Proof. unfold revcomp. by rewrite length_rev, length_map. Qed.

Lemma length_make_mutable s : length (make_mutable s) = length s.
Proof. apply length_map. Qed.

(** The state in which [next_read_indel_seq] calls [ref2read]. *)
Lemma ref2read_of_indel_read sr a d read :
  indel_wf (read_len sr) (indel sr) a d -> 0 <= read_len sr ->
  read_len sr - a <= Z.of_nat (length (seq_ref sr)) ->
  Z.of_nat (length (seq_ref sr)) + a - d <= Z.of_nat (length (seq_read sr)) ->
  ref2read sr = Ok read ->
  seq_ref read = seq_ref sr /\ indel read = indel sr
  /\ (size (indel sr) = 0%nat -> seq_read read = seq_ref sr)
  /\ (size (indel sr) <> 0%nat ->
      length (seq_read read) = length (seq_read sr)
      /\ exists k, ref2read_indels read
           = Ok (Z.of_nat (length (seq_ref sr)) + a - d, k, seq_read read)).
Proof.
  intros W HR He HF. unfold ref2read. case_bool_decide as Hsz.
  - intros [= <-]. simpl. by repeat split.
  - destruct (ref2read_indels_count sr a d W HR He HF) as (k & out & E & Hlen).
    rewrite E. intros [= <-]. simpl. repeat split; try done.
    exists k. unfold ref2read_indels in *. simpl. by rewrite Hlen.
Qed.

(** C2 (amended). In [next_read_indel_seq], the reference slice has
    [min(read_len - net_delta, len(template))] characters. Without
    indels the read is that slice, of [min(read_len, len(template))]
    characters. When the template holds the [read_len - net_delta]
    characters the slice asks for, the read has exactly [read_len]
    characters, and with indels the reconstruction writes every one of
    them. *)
Theorem reconstructed_length a template plus_strand rs slen read rs' :
  reconstruct_indel_seq a template plus_strand rs = Ok (slen, read, rs') ->
  let L := art_read_len a in
  let T := Z.of_nat (length template) in
  Z.of_nat (length (seq_ref read)) = Z.min (L - slen) T
  /\ (size (indel read) = 0%nat ->
      slen = 0 /\ seq_read read = seq_ref read
      /\ SeqRead_length read = Z.min L T)
  /\ (L - slen <= T ->
      SeqRead_length read = L
      /\ (size (indel read) <> 0%nat ->
          exists k, ref2read_indels read = Ok (L, k, seq_read read))).
Proof.
  intros Hrun L T. unfold reconstruct_indel_seq, bind, lift, ret in Hrun.
  unfold _new_read, SeqRead_init in Hrun. fold L in Hrun.
  destruct (Z.ltb_spec L 0) as [|HL]; [discriminate|].
  rewrite length_make_mutable in Hrun. fold T in Hrun.
  set (read0 := mkSeqRead _ _ _ _ _ _ _ _ _ _) in Hrun.
  set (read1 := if T <? read_len read0 then _ else _) in Hrun.
  assert (read_len read1 = Z.min L T /\ length (seq_read read1) = Z.to_nat L)
    as [HR1 Hsr1].
  { subst read1. simpl. destruct (Z.ltb_spec T L); simpl;
      rewrite length_replicate; split; lia. }
  destruct (get_indel read1 rs) as [[[slen1 read2] rs1]| |] eqn:E1;
    try discriminate.
  apply get_indel_Ok in E1 as (a1 & d1 & m1 & -> & W1 & ? & ? & ->).
  set (read2 := with_indel read1 m1) in *.
  assert (exists a' d' m',
    indel_wf (Z.min L T) m' a' d' /\ slen = a' - d'
    /\ ref2read
         (with_bpos
            (with_seq_ref (with_indel read1 m')
               (slice_to (if plus_strand then make_mutable template
                          else revcomp template) (L - slen))) 0)
       = Ok read) as (a' & d' & m' & W & -> & Href).
  { destruct (T <? L - (a1 - d1)).
    - destruct (get_indel_2 read2 rs1) as [[[slen2 read3] rs2]| |] eqn:E2;
        try discriminate.
      apply get_indel_2_Ok in E2 as (a2 & d2 & m2 & -> & W2 & ? & ? & ->).
      subst read2. simpl in W2. rewrite HR1 in W2.
      destruct plus_strand;
        (destruct (ref2read _) as [r| |] eqn:Er in Hrun; try discriminate;
         injection Hrun as <- <- <-; exists a2, d2, m2;
         split; [done|]; split; [done|exact Er]).
    - rewrite HR1 in W1.
      destruct plus_strand;
        (destruct (ref2read _) as [r| |] eqn:Er in Hrun; try discriminate;
         injection Hrun as <- <- <-; exists a1, d1, m1;
         split; [done|]; split; [done|exact Er]). }
  clear Hrun. destruct (indel_wf_counts _ _ _ _ W) as (? & ? & ?); [lia|].
  set (X := if plus_strand then make_mutable template else revcomp template)
    in Href.
  assert (Z.of_nat (length X) = T) as HX.
  { subst X T. destruct plus_strand;
      by rewrite ?length_make_mutable, ?length_revcomp. }
  pose proof (length_slice_to X (L - (a' - d')) ltac:(lia)) as Hsl.
  rewrite HX in Hsl.
  apply (ref2read_of_indel_read _ a' d') in Href
    as (Hsref & Hind & Hnone & Hsome); simpl; rewrite ?HR1, ?Hsr1, ?Hsl;
      try done; try lia.
  simpl in Hsref, Hind, Hnone, Hsome. rewrite Hsref, Hind, Hsl.
  split; [done|]. split.
  - intros Hsz. destruct W as [_ _ _ _ _ Hs]. rewrite Hsz in Hs.
    assert (a' = 0 /\ d' = 0) as [-> ->] by lia.
    specialize (Hnone Hsz). unfold SeqRead_length.
    rewrite Hnone, Hsl. split; [done|]. split; [done|]. lia.
  - intros Hfit. destruct (decide (size m' = 0%nat)) as [Hsz|Hsz].
    + destruct W as [_ _ _ _ _ Hs]. rewrite Hsz in Hs.
      assert (a' = 0 /\ d' = 0) as [-> ->] by lia.
      specialize (Hnone Hsz). unfold SeqRead_length. rewrite Hnone, Hsl.
      split; [lia|done].
    + destruct (Hsome Hsz) as (Hlen & k & E).
      unfold SeqRead_length. rewrite Hlen, Hsr1. split; [lia|].
      intros _. exists k. rewrite E. do 3 f_equal. rewrite Hsl. lia.
Qed.

(** *** Quality sampling *)

Lemma ascending_head x l y : ascending (x :: l) = true -> y ∈ l -> x <= y.
Proof.
  revert x. induction l as [|z l IH]; intros x H Hy; [by apply elem_of_nil in Hy|].
  cbn [ascending] in H. apply andb_prop in H as [Hxz Hl].
  apply Z.leb_le in Hxz. apply elem_of_cons in Hy as [->|Hy]; [done|].
  specialize (IH z Hl Hy). lia.
Qed.

Lemma ascending_tail x l : ascending (x :: l) = true -> ascending l = true.
Proof.
  destruct l as [|y l]; [done|]. cbn [ascending].
  intros H. by apply andb_prop in H as [_ H].
Qed.

Lemma ascending_lookup l : ascending l = true ->
  forall (i j : nat) x y,
    (i <= j)%nat -> l !! i = Some x -> l !! j = Some y -> x <= y.
Proof.
  induction l as [|z l IH]; intros H i j x y Hij Hi Hj; [done|].
  destruct i as [|i], j as [|j]; simpl in Hi, Hj.
  - injection Hi as <-. injection Hj as <-. lia.
  - injection Hi as <-. apply (ascending_head z l y H).
    apply list_elem_of_lookup. eauto.
  - lia.
  - apply (IH (ascending_tail _ _ H) i j); [lia|done|done].
Qed.

Lemma searchsorted_from_spec a v :
  ascending a = true ->
  forall fuel (lo hi : nat),
    (lo <= hi <= length a)%nat ->
    (forall (j : nat) x, (j < lo)%nat -> a !! j = Some x -> x < v) ->
    (forall (j : nat) x, (hi <= j)%nat -> a !! j = Some x -> v <= x) ->
    (hi - lo < fuel)%nat ->
    let r := searchsorted_from fuel a v lo hi in
    (r <= length a)%nat
    /\ (forall (j : nat) x, (j < r)%nat -> a !! j = Some x -> x < v)
    /\ (forall (j : nat) x, (r <= j)%nat -> a !! j = Some x -> v <= x).
Proof.
  intros Hasc. induction fuel as [|fuel IH]; intros lo hi Hlh Hlo Hhi Hf;
    [lia|].
  cbn [searchsorted_from]. destruct (Nat.ltb_spec lo hi) as [Hlt|Hge].
  - pose proof (Nat.div_lt (hi - lo) 2 ltac:(lia) ltac:(lia)) as Hh.
    set (h := ((hi - lo) / 2)%nat) in *.
    destruct (lookup_lt_is_Some_2 a (lo + h)%nat ltac:(lia)) as [x Hx].
    rewrite Hx. destruct (Z.ltb_spec x v) as [Hxv|Hxv].
    + apply IH; [lia| |done|lia].
      intros j y Hj Hy.
      pose proof (ascending_lookup a Hasc j (lo + h)%nat y x ltac:(lia) Hy Hx).
      lia.
    + apply IH; [lia|done| |lia].
      intros j y Hj Hy.
      pose proof (ascending_lookup a Hasc (lo + h)%nat j x y ltac:(lia) Hx Hy).
      lia.
  - assert (lo = hi) as -> by lia. split; [lia|]. split; [done|done].
Qed.

Lemma searchsorted_spec a v :
  ascending a = true ->
  (searchsorted a v <= length a)%nat
  /\ (forall (j : nat) x, (j < searchsorted a v)%nat -> a !! j = Some x -> x < v)
  /\ (forall (j : nat) x, (searchsorted a v <= j)%nat -> a !! j = Some x -> v <= x).
Proof.
  intros Hasc. unfold searchsorted.
  apply searchsorted_from_spec; [done|lia| | |lia].
  - intros j x Hj. lia.
  - intros j x Hj Hx. apply lookup_lt_Some in Hx. lia.
Qed.

Lemma _lookup_qcdf_ok t rv :
  qcdf_ok t = true -> rv <= MAX_DIST_NUMBER ->
  exists q, _lookup_qcdf t rv = Ok q /\ selects t rv q /\ 0 <= q < HIGHEST_QUAL.
Proof.
  unfold qcdf_ok, _lookup_qcdf. intros H Hrv.
  apply andb_prop in H as [H Hq]. apply andb_prop in H as [Hasc Hlast].
  destruct (searchsorted_spec (map fst t) rv Hasc) as (Hle & Hlow & Hhigh).
  set (idx := searchsorted (map fst t) rv) in *.
  destruct (last (map fst t)) as [x|] eqn:El; [|done].
  apply Z.leb_le in Hlast. rewrite last_lookup in El.
  assert (idx < length (map fst t))%nat as Hidx.
  { destruct (decide (idx < length (map fst t))%nat); [done|].
    apply Hlow in El; [lia|]. apply lookup_lt_Some in El. lia. }
  rewrite length_map in Hidx.
  destruct (lookup_lt_is_Some_2 t idx Hidx) as [[thr q] Hrow].
  exists q. rewrite Hrow. split; [done|].
  split.
  - exists idx, thr. split; [done|]. split.
    + apply (Hhigh idx); [lia|]. by rewrite list_lookup_fmap, Hrow.
    + intros j' row Hj' Hr. apply (Hlow j'); [done|].
      by rewrite list_lookup_fmap, Hr.
  - rewrite forallb_forall in Hq.
    specialize (Hq (thr, q)). simpl in Hq.
    assert (In (thr, q) t) as Hin.
    { apply list_elem_of_In, list_elem_of_lookup. eauto. }
    apply Hq, andb_prop in Hin as [H1 H2].
    apply Z.leb_le in H1. apply Z.ltb_lt in H2. lia.
Qed.

Lemma draw_n_pop {A} (c : M A) (f : N -> A) :
  (forall r rs, c (r :: rs) = Ok (f r, rs)) ->
  forall n rs, (n <= length rs)%nat ->
    draw_n c n rs = Ok (map f (take n rs), drop n rs).
Proof.
  intros Hc. induction n as [|n IH]; intros rs Hn; [done|].
  destruct rs as [|r rs]; [simpl in Hn; lia|].
  cbn [draw_n]. unfold bind at 1. rewrite Hc. unfold bind at 1.
  rewrite IH by (simpl in Hn; lia). reflexivity.
Qed.

Lemma dist_draw_range r : 1 <= dist_draw r <= MAX_DIST_NUMBER.
Proof.
  unfold dist_draw.
  pose proof (Z.mod_pos_bound (Z.of_N r) MAX_DIST_NUMBER eq_refl). lia.
Qed.

Lemma imap_lookup_qcdf_ok tables : forall rvs,
  Forall (fun t => qcdf_ok t = true) tables ->
  Forall (fun rv => rv <= MAX_DIST_NUMBER) rvs ->
  exists qs,
    imap_lookup_qcdf tables rvs = Ok qs
    /\ length qs = Nat.min (length tables) (length rvs)
    /\ forall (i : nat) q, qs !! i = Some q ->
         0 <= q < HIGHEST_QUAL
         /\ exists t rv, tables !! i = Some t /\ rvs !! i = Some rv
                         /\ selects t rv q.
Proof.
  induction tables as [|t tables IH]; intros rvs Ht Hrv.
  - exists []. by repeat split.
  - destruct rvs as [|rv rvs]; [exists []; by repeat split|].
    apply Forall_cons in Ht as [Ht Hts]. apply Forall_cons in Hrv as [Hrv Hrvs].
    destruct (_lookup_qcdf_ok t rv Ht Hrv) as (q & Eq & Hsel & Hq).
    destruct (IH rvs Hts Hrvs) as (qs & Eqs & Hlen & Hall).
    exists (q :: qs). cbn [imap_lookup_qcdf]. rewrite Eq, Eqs.
    split; [done|]. split; [simpl; lia|].
    intros [|i] q' Hi; simpl in Hi.
    + injection Hi as <-. split; [done|]. by exists t, rv.
    + by apply Hall.
Qed.

(** C5 (amended). For a read length of at least 1 and at most the
    profile's maximum for the mate, over tables of ascending thresholds
    that end at 1,000,000 with scores of [0, 79], [get_read_qual]
    returns exactly [read_length] scores, each in [0, 79]: the score of
    position [i] is the one of the first row of table [i] whose
    threshold is not below the [i]-th draw, an integer of
    [1, 1_000_000]. *)
Theorem get_read_qual_scores (d : EmpDist) (rlen : Z) (is_first : bool)
    (tables : list qcdf) (rs : RandomState) :
  (if is_first then qual_dist_first d else qual_dist_second d) !! [CMB_SYMB]
    = Some tables ->
  dist_max d is_first = Z.of_nat (length tables) ->
  Forall (fun t => qcdf_ok t = true) tables ->
  1 <= rlen <= dist_max d is_first ->
  (Z.to_nat rlen <= length rs)%nat ->
  exists qs,
    get_read_qual d rlen is_first rs = Ok (qs, drop (Z.to_nat rlen) rs)
    /\ Z.of_nat (length qs) = rlen
    /\ forall (i : nat) q, qs !! i = Some q ->
         0 <= q <= 79
         /\ exists r t, rs !! i = Some r /\ tables !! i = Some t
              /\ 1 <= dist_draw r <= MAX_DIST_NUMBER
              /\ selects t (dist_draw r) q.
Proof.
  intros Htab Hmax Hok Hlen Hrs.
  unfold get_read_qual, verify_length.
  destruct (Z.leb_spec rlen (dist_max d is_first)) as [_|]; [|lia].
  rewrite Htab. unfold _get_from_dist, bind, sized.
  destruct (Z.ltb_spec rlen 0) as [|_]; [lia|].
  rewrite (draw_n_pop (RANDINT 1 (MAX_DIST_NUMBER + 1)) dist_draw) by done.
  destruct (imap_lookup_qcdf_ok tables (map dist_draw (take (Z.to_nat rlen) rs)) Hok)
    as (qs & -> & Hqlen & Hall).
  { apply Forall_forall. intros x Hx. apply list_elem_of_fmap in Hx as (r & -> & _).
    apply dist_draw_range. }
  rewrite length_map, length_take in Hqlen.
  assert (length qs = Z.to_nat rlen) as Hq by lia.
  exists qs. rewrite Hq.
  destruct (Z.ltb_spec 0 (Z.of_nat (Z.to_nat rlen))) as [_|]; [|lia].
  destruct (Z.eqb_spec (Z.of_nat (Z.to_nat rlen)) rlen) as [_|]; [|lia].
  split; [done|]. split; [lia|].
  intros i q Hi. destruct (Hall i q Hi) as (Hrange & t & rv & Ht & Hrv & Hsel).
  unfold HIGHEST_QUAL in Hrange. split; [lia|].
  rewrite list_lookup_fmap in Hrv.
  destruct (take (Z.to_nat rlen) rs !! i) as [r|] eqn:Hr; [|done].
  injection Hrv as <-. exists r, t.
  apply lookup_take_Some in Hr as [Hr _].
  split; [done|]. split; [done|]. split; [apply dist_draw_range|done].
Qed.

(** *** Substitution errors *)

Lemma random_base_excl c r rs :
  c ∈ PRIMARY_SYMB ->
  exists b,
    random_base (Some c) (r :: rs) = Ok (b, rs)
    /\ getitem (set_list (filter (fun x => x <> c) PRIMARY_SYMB))
         (Z.of_N r mod 3) = Some b
    /\ b ∈ PRIMARY_SYMB /\ b <> c.
Proof.
  intros Hc. unfold random_base.
  assert (truthy c = true) as ->.
  { revert Hc. unfold PRIMARY_SYMB. rewrite !elem_of_cons, elem_of_nil.
    intros [->|[->|[->|[->|[]]]]]; reflexivity. }
  rewrite (KO_SUBS_LOOKUP_primary c Hc).
  set (subs := set_list _).
  assert (length subs = 3%nat) as Hlen.
  { subst subs. rewrite (set_list_perm _).
    revert Hc. unfold PRIMARY_SYMB. rewrite !elem_of_cons, elem_of_nil.
    intros [->|[->|[->|[->|[]]]]]; reflexivity. }
  unfold bind, RANDINT. change (0 <? 3) with true. cbv iota.
  change (3 - 0) with 3. rewrite Z.add_0_l.
  pose proof (Z.mod_pos_bound (Z.of_N r) 3 eq_refl) as Hr.
  destruct (getitem_Some subs (Z.of_N r mod 3)) as [b Hb]; [lia|].
  rewrite Hb. exists b. split; [done|]. split; [done|].
  apply getitem_elem_of in Hb. subst subs.
  rewrite (set_list_perm _) in Hb. apply list_elem_of_filter in Hb as [? ?].
  done.
Qed.

Lemma parse_error_from_spec : forall rvals (i : nat) qs sq (rs : RandomState),
  (i + length rvals = length qs)%nat -> length qs = length sq ->
  Forall (fun q => 0 <= q < Z.of_nat (length PROB_ERR)) qs ->
  Forall (fun c => c = N_SYMB \/ c ∈ PRIMARY_SYMB) sq ->
  (1 < length PROB_ERR)%nat ->
  (length rvals <= length rs)%nat ->
  exists qs' sq' rs',
    parse_error_from rvals (Z.of_nat i) qs sq rs = Ok (qs', sq', rs')
    /\ length qs' = length qs /\ length sq' = length sq
    /\ (forall j : nat, (j < i)%nat ->
          qs' !! j = qs !! j /\ sq' !! j = sq !! j)
    /\ forall (j : nat) c q u p,
         rvals !! j = Some u -> sq !! (i + j)%nat = Some c ->
         qs !! (i + j)%nat = Some q -> PROB_ERR !! Z.to_nat q = Some p ->
         exists q' c',
           qs' !! (i + j)%nat = Some q' /\ sq' !! (i + j)%nat = Some c'
           /\ position_outcome c q u p rs q' c'.
Proof.
  induction rvals as [|u rvals IH]; intros i qs sq rs Hi Hlen Hqs Hsq Hpe Hrs.
  - exists qs, sq, rs. simpl. repeat split; try done.
  - simpl in Hi, Hrs. cbn [parse_error_from].
    rewrite !getitem_nonneg by lia. rewrite Nat2Z.id.
    destruct (lookup_lt_is_Some_2 sq i ltac:(lia)) as [c Hc].
    destruct (lookup_lt_is_Some_2 qs i ltac:(lia)) as [q Hq].
    rewrite Hc.
    pose proof (proj1 (Forall_lookup _ _) Hsq i c Hc) as Hcok.
    pose proof (proj1 (Forall_lookup _ _) Hqs i q Hq) as Hqok.
    simpl in Hcok, Hqok.
    destruct (Ascii.eqb_spec c N_SYMB) as [HcN|HcN].
    + (* an undefined base *)
      destruct (setitem_Some qs (Z.of_nat i) 1) as (qs1 & E1 & Hl1); [lia|].
      rewrite E1. unfold setitem in E1.
      destruct ((0 <=? Z.of_nat i) && (Z.of_nat i <? Z.of_nat (length qs)));
        [|discriminate]. injection E1 as <-. rewrite Nat2Z.id in *.
      destruct (IH (S i) (<[i:=1]> qs) sq rs)
        as (qs' & sq' & rs' & E & Hlq & Hls & Hbefore & Hafter);
        try (rewrite ?length_insert; lia).
      { apply Forall_insert; [done|lia]. }
      { done. }
      replace (Z.of_nat i + 1) with (Z.of_nat (S i)) by lia. rewrite E.
      exists qs', sq', rs'. rewrite length_insert in Hlq.
      split; [done|]. split; [done|]. split; [done|]. split.
      * intros j Hj. destruct (Hbefore j ltac:(lia)) as [-> ->].
        by rewrite list_lookup_insert_ne by lia.
      * intros [|j] c0 q0 u0 p0 Hu Hc0 Hq0 Hp0.
        -- rewrite Nat.add_0_r in *. destruct (Hbefore i ltac:(lia)) as [-> ->].
           rewrite list_lookup_insert_eq by lia.
           rewrite Hc in Hc0. injection Hc0 as <-.
           exists 1, c. split; [done|]. split; [done|].
           split; [done|]. intros; contradiction.
        -- simpl in Hu. replace (i + S j)%nat with (S i + j)%nat in * by lia.
           apply (Hafter j c0 q0 u0 p0 Hu Hc0); [|done].
           by rewrite list_lookup_insert_ne by lia.
    + rewrite Hq. rewrite getitem_nonneg by lia.
      destruct (lookup_lt_is_Some_2 PROB_ERR (Z.to_nat q) ltac:(lia)) as [p Hp].
      rewrite Hp. destruct Hcok as [|Hcok]; [contradiction|].
      destruct (Qle_bool p u) eqn:Hle; cbn [negb].
      * (* no substitution *)
        destruct (IH (S i) qs sq rs)
          as (qs' & sq' & rs' & E & Hlq & Hls & Hbefore & Hafter);
          try done; try lia.
        replace (Z.of_nat i + 1) with (Z.of_nat (S i)) by lia. rewrite E.
        exists qs', sq', rs'.
        split; [done|]. split; [done|]. split; [done|]. split.
        -- intros j Hj. by apply Hbefore; lia.
        -- intros [|j] c0 q0 u0 p0 Hu Hc0 Hq0 Hp0.
           ++ rewrite Nat.add_0_r in *. destruct (Hbefore i ltac:(lia)) as [-> ->].
              rewrite Hc in Hc0. injection Hc0 as <-.
              rewrite Hq in Hq0. injection Hq0 as <-.
              rewrite Hp in Hp0. injection Hp0 as <-.
              simpl in Hu. injection Hu as <-.
              exists q, c. split; [done|]. split; [done|].
              split; [done|]. intros _. split; [done|].
              split; [|done]. intros Hlt. apply Qle_bool_iff in Hle.
              by apply Qlt_not_le in Hlt.
           ++ simpl in Hu. replace (i + S j)%nat with (S i + j)%nat in * by lia.
              by apply (Hafter j c0 q0 u0 p0 Hu Hc0).
      * (* a substitution *)
        destruct rs as [|r rs]; [simpl in Hrs; lia|].
        destruct (random_base_excl c r rs Hcok) as (b & Eb & Hget & Hb & Hbc).
        unfold bind at 1. rewrite Eb.
        destruct (setitem_Some sq (Z.of_nat i) b) as (sq1 & E1 & Hl1); [lia|].
        rewrite E1. unfold setitem in E1.
        destruct ((0 <=? Z.of_nat i) && (Z.of_nat i <? Z.of_nat (length sq)));
          [|discriminate]. injection E1 as <-. rewrite Nat2Z.id in *.
        destruct (IH (S i) qs (<[i:=b]> sq) rs)
          as (qs' & sq' & rs' & E & Hlq & Hls & Hbefore & Hafter);
          try (rewrite ?length_insert; simpl in Hrs; lia); try done.
        { apply Forall_insert; [done|by right]. }
        replace (Z.of_nat i + 1) with (Z.of_nat (S i)) by lia. rewrite E.
        exists qs', sq', rs'. rewrite length_insert in Hls.
        split; [done|]. split; [done|]. split; [done|]. split.
        -- intros j Hj. destruct (Hbefore j ltac:(lia)) as [-> ->].
           by rewrite list_lookup_insert_ne by lia.
        -- intros [|j] c0 q0 u0 p0 Hu Hc0 Hq0 Hp0.
           ++ rewrite Nat.add_0_r in *. destruct (Hbefore i ltac:(lia)) as [-> ->].
              rewrite list_lookup_insert_eq by lia.
              rewrite Hc in Hc0. injection Hc0 as <-.
              rewrite Hq in Hq0. injection Hq0 as <-.
              rewrite Hp in Hp0. injection Hp0 as <-.
              simpl in Hu. injection Hu as <-.
              exists q, b. split; [done|]. split; [done|].
              split; [done|]. intros _. split; [done|]. split.
              ** intros _. split; [done|]. split; [done|].
                 exists r. split; [apply elem_of_cons; by left|done].
              ** intros Hn. exfalso. apply Hn. apply Qnot_le_lt.
                 rewrite <- Qle_bool_iff. by rewrite Hle.
           ++ simpl in Hu. replace (i + S j)%nat with (S i + j)%nat in * by lia.
              destruct (Hafter j c0 q0 u0 p0 Hu) as (q' & c' & ? & ? & Ho);
                [by rewrite list_lookup_insert_ne by lia|done|done|].
              exists q', c'. split; [done|]. split; [done|].
              destruct Ho as [Ho1 Ho2]. split; [done|].
              intros Hne. destruct (Ho2 Hne) as (? & Hs & ?).
              split; [done|]. split; [|done].
              intros Hlt. destruct (Hs Hlt) as (? & ? & r' & Hr' & ?).
              split; [done|]. split; [done|].
              exists r'. split; [apply elem_of_cons; by right|done].
Qed.

(** C6. On a sequence over A, C, G, T and N with as many qualities, each
    in [0, 79]: a position that holds N gets quality 1 and keeps its
    base; any other position keeps its quality and, when its draw is
    below the error probability of its quality, gets one of the three
    other primary bases, picked by a later draw out of their listing
    (never the base it held); otherwise it keeps its base. *)
Theorem parse_error_positions qs sq (rs : RandomState) :
  length PROB_ERR = 80%nat ->
  length qs = length sq ->
  Forall (fun q => 0 <= q <= 79) qs ->
  Forall (fun c => c = N_SYMB \/ c ∈ PRIMARY_SYMB) sq ->
  (2 * length qs <= length rs)%nat ->
  exists qs' sq' rs',
    parse_error qs sq rs = Ok (qs', sq', rs')
    /\ length qs' = length qs /\ length sq' = length sq
    /\ forall (i : nat) c q r p,
         sq !! i = Some c -> qs !! i = Some q -> rs !! i = Some r ->
         PROB_ERR !! Z.to_nat q = Some p ->
         exists q' c',
           qs' !! i = Some q' /\ sq' !! i = Some c'
           /\ position_outcome c q (fraction53 r) p (drop (length qs) rs) q' c'.
Proof.
  intros Hpe Hlen Hqs Hsq Hrs. unfold parse_error, sized.
  destruct (Z.ltb_spec (Z.of_nat (length qs)) 0) as [|_]; [lia|].
  rewrite Nat2Z.id. unfold bind at 1.
  rewrite (draw_n_pop UNIFORM fraction53) by (done || lia).
  destruct (parse_error_from_spec (map fraction53 (take (length qs) rs)) 0
              qs sq (drop (length qs) rs))
    as (qs' & sq' & rs' & E & Hlq & Hls & _ & Hafter); try done.
  - rewrite length_map, length_take. lia.
  - eapply Forall_impl; [exact Hqs|]. simpl. intros q Hq. lia.
  - lia.
  - rewrite length_map, length_take, length_drop. lia.
  - change (Z.of_nat 0) with 0 in E. rewrite E. exists qs', sq', rs'.
    split; [done|]. split; [done|]. split; [done|].
    intros i c q r p Hc Hq Hr Hp.
    apply (Hafter i c q (fraction53 r) p); try done.
    rewrite list_lookup_fmap, lookup_take_lt, Hr; [done|].
    apply lookup_lt_Some in Hq. lia.
Qed.

(** *** Loading a profile *)

(** Parsing appends to the lists of symbols the table already has, and
    always ends. *)
Lemma read_emp_dist_from_dom sep : forall (k : nat) lines n qd,
  (length lines <= k)%nat ->
  read_emp_dist_from sep lines n qd <> Starved
  /\ forall n' qd', read_emp_dist_from sep lines n qd = Ok (n', qd') ->
       dom qd' = dom qd.
Proof.
  induction k as [|k IH]; intros lines n qd Hk.
  - destruct lines; [|simpl in Hk; lia]. simpl. split; [done|].
    by intros n' qd' [= <- <-].
  - destruct lines as [|l rest]; [simpl; split; [done|by intros n' qd' [= <- <-]]|].
    simpl in Hk. assert (length rest <= k)%nat as Hr by lia.
    destruct l as [|c e|symb pos values]; cbn [read_emp_dist_from].
    + split; [done|]. by intros n' qd' [= <- <-].
    + destruct c; [by apply IH|]. split; [done|discriminate].
    + destruct (is_comment _); [by apply IH|].
      destruct (skip_symbol sep symb); [by apply IH|].
      destruct (negb (pos =? n) && negb (pos =? 0)); [split; [done|discriminate]|].
      destruct rest as [|l2 rest']; [split; [done|discriminate]|].
      destruct l2 as [|c2 e2|symb2 pos2 counts]; try (split; [done|discriminate]).
      destruct (negb (pos2 =? _)); [split; [done|discriminate]|].
      destruct (negb (length values =? length counts)%nat);
        [split; [done|discriminate]|].
      destruct (make_dist values counts) as [dist|]; [|split; [done|discriminate]].
      destruct (qd !! symb2) as [tables|] eqn:Hs; [|split; [done|discriminate]].
      destruct (IH rest' ((if pos =? n then n else 0) + 1)
                  (<[symb2 := tables ++ [dist]]> qd)) as [H1 H2];
        [simpl in Hr; lia|].
      split; [done|]. intros n' qd' E. rewrite (H2 _ _ E).
      rewrite dom_insert_L. apply elem_of_dom_2 in Hs.
      apply subseteq_union_1_L. by apply singleton_subseteq_l.
Qed.

Lemma read_emp_dist_Ok sep hndl qd b qd' :
  read_emp_dist sep hndl qd = Ok (b, qd') -> dom qd' = dom qd.
Proof.
  unfold read_emp_dist.
  destruct (read_emp_dist_from sep hndl 0 qd) as [[n q]| |] eqn:E;
    try discriminate.
  intros [= _ <-].
  by apply (proj2 (read_emp_dist_from_dom sep (length hndl) hndl 0 qd (le_n _))
              n q).
Qed.

Lemma read_emp_dist_not_Starved sep hndl qd :
  read_emp_dist sep hndl qd <> Starved.
Proof.
  unfold read_emp_dist.
  pose proof (proj1 (read_emp_dist_from_dom sep (length hndl) hndl 0 qd (le_n _))).
  by destruct (read_emp_dist_from sep hndl 0 qd) as [[n q]| |].
Qed.

Lemma empty_qual_dist_cleared :
  (fun _ : list qcdf => []) <$> empty_qual_dist = empty_qual_dist.
Proof.
  apply map_eq. intros k. rewrite lookup_fmap.
  unfold empty_qual_dist.
  destruct (list_to_map _ !! k) as [l|] eqn:E; [|done].
  apply elem_of_list_to_map_2 in E.
  apply list_elem_of_fmap in E as (y & [= -> ->] & _). done.
Qed.

Lemma CMB_SYMB_in_dom (qd : gmap (list ascii) (list qcdf)) :
  dom qd = dom empty_qual_dist -> exists t, qd !! [CMB_SYMB] = Some t.
Proof.
  intros H. assert ([CMB_SYMB] ∈ dom qd) as Hin.
  { rewrite H. apply elem_of_dom. by eexists. }
  by apply elem_of_dom in Hin.
Qed.

(** C4 (amended). In the combined-symbol mode the loader makes no check
    of coverage after parsing. It fails exactly when parsing fails, with
    the error of the parse: of the first file, or, once the first file
    is parsed, of the second. Otherwise it sets each mate's maximum to
    the number of its combined tables, whatever the primary symbols
    have. The mode that has the full-range check, one table list per
    base, the constructor refuses. *)
Theorem EmpDist_init_combined file_first file_second :
  (forall b1 qf b2 qs,
     read_emp_dist false file_first empty_qual_dist = Ok (b1, qf) ->
     read_emp_dist false file_second empty_qual_dist = Ok (b2, qs) ->
     exists d tf ts,
       EmpDist_init file_first file_second false = Ok d
       /\ qual_dist_first d = qf /\ qual_dist_second d = qs
       /\ qf !! [CMB_SYMB] = Some tf /\ qs !! [CMB_SYMB] = Some ts
       /\ dist_max d FIRST = Z.of_nat (length tf)
       /\ dist_max d SECOND = Z.of_nat (length ts))
  /\ (forall e,
        EmpDist_init file_first file_second false = Raise e <->
        read_emp_dist false file_first empty_qual_dist = Raise e
        \/ ((exists b1 qf,
               read_emp_dist false file_first empty_qual_dist = Ok (b1, qf))
            /\ read_emp_dist false file_second empty_qual_dist = Raise e))
  /\ EmpDist_init file_first file_second false <> Starved
  /\ EmpDist_init file_first file_second true = Raise AssertionError.
Proof.
  unfold EmpDist_init, init_dist. simpl sep_quals.
  simpl qual_dist_first. simpl qual_dist_second.
  rewrite empty_qual_dist_cleared. cbn [negb].
  pose proof (read_emp_dist_not_Starved false file_first empty_qual_dist) as N1.
  pose proof (read_emp_dist_not_Starved false file_second empty_qual_dist) as N2.
  destruct (read_emp_dist false file_first empty_qual_dist)
    as [[b1 qf]|e1|] eqn:E1; [| |done].
  2: { split; [intros; discriminate|]. split; [|done]. intros e. split.
       - intros [= <-]. by left.
       - intros [[= <-]|[(? & ? & ?) _]]; [done|discriminate]. }
  destruct (read_emp_dist false file_second empty_qual_dist)
    as [[b2 qs]|e2|] eqn:E2; [| |done].
  2: { split; [intros; discriminate|]. split; [|done]. intros e. split.
       - intros [= <-]. right. split; [by eexists _, _|done].
       - intros [?|[_ [= <-]]]; [discriminate|done]. }
  destruct (CMB_SYMB_in_dom qf (read_emp_dist_Ok _ _ _ _ _ E1)) as [tf Hf].
  destruct (CMB_SYMB_in_dom qs (read_emp_dist_Ok _ _ _ _ _ E2)) as [ts Hs].
  rewrite Hf, Hs. split; [|split; [|done]].
  - intros ? ? ? ? [= <- <-] [= <- <-].
    eexists _, tf, ts. split; [reflexivity|]. by repeat split.
  - intros e. split; [discriminate|]. intros [?|[_ ?]]; discriminate.
Qed.

(** *** The error-free read *)

Lemma COMPLEMENT_TABLE_thrice c :
  COMPLEMENT_TABLE (COMPLEMENT_TABLE (COMPLEMENT_TABLE c)) = COMPLEMENT_TABLE c.
Proof.
  destruct c as [[] [] [] [] [] [] [] []]; reflexivity.
Qed.

(** X9. The reverse complement taken three times is the reverse complement:
    what a first pass turns a letter into, later passes only swap. *)
Theorem revcomp_thrice s : revcomp (revcomp (revcomp s)) = revcomp s.
Proof.
  rewrite revcomp_revcomp. unfold revcomp. rewrite map_rev, map_map. f_equal.
  apply map_ext. intros c. apply COMPLEMENT_TABLE_thrice.
Qed.

(** X10. The first [n] characters of the reverse complement are the reverse
    complement of the last [n]: a minus-strand read is sequenced off the
    far end of its template. *)
Theorem revcomp_prefix_is_far_end (s : list ascii) (n : Z) :
  0 <= n <= Z.of_nat (length s) ->
  slice_to (revcomp s) n = revcomp (drop (length s - Z.to_nat n) s).
Proof.
  intros Hn. unfold slice_to, revcomp.
  destruct (Z.leb_spec 0 n); [|lia].
  rewrite firstn_rev, length_map, skipn_map. reflexivity.
Qed.

(** X11. Upper-casing first makes no difference to the reverse complement of
    a sequence over a, c, g, t, u in either case, N and the upper-case
    ambiguity letters. *)
Theorem revcomp_make_mutable s :
  Forall (fun c => c ∈ list_ascii_of_string "acgtuACGTUMRWSYKVHDBN") s ->
  revcomp (make_mutable s) = revcomp s.
Proof.
  intros H. unfold revcomp, make_mutable. rewrite map_map. f_equal.
  induction H as [|c s Hc _ IH]; [reflexivity|].
  simpl. rewrite IH. f_equal.
  repeat (apply elem_of_cons in Hc as [->|Hc]; [reflexivity|]).
  by apply elem_of_nil in Hc.
Qed.

(** X1. [next_read_simple_seq] draws nothing and returns the first
    [min(read_len, len(template))] characters of the template, or of its
    reverse complement, with as many copies of the constant quality and
    no indel. *)
Theorem next_read_simple_seq_prefix a template plus_strand qual_val
    (rs : RandomState) :
  0 <= art_read_len a ->
  exists read,
    next_read_simple_seq a template plus_strand qual_val rs = Ok (read, rs)
    /\ seq_read read
       = take (Z.to_nat (art_read_len a))
           (if plus_strand then template else revcomp template)
    /\ Z.of_nat (length (seq_read read))
       = Z.min (art_read_len a) (Z.of_nat (length template))
    /\ quals read = Some (replicate (length (seq_read read)) qual_val)
    /\ indel read = ∅.
Proof.
  intros HL. unfold next_read_simple_seq, bind, lift, ret, _new_read, SeqRead_init.
  destruct (Z.ltb_spec (art_read_len a) 0) as [|_]; [lia|].
  set (read0 := mkSeqRead _ _ _ _ _ _ _ _ _ _).
  set (read1 := if _ <? read_len read0 then _ else _).
  assert (read_len read1
          = Z.min (art_read_len a) (Z.of_nat (length template))
          /\ indel read1 = ∅) as [HR Hind].
  { subst read1. simpl. destruct (Z.ltb_spec (Z.of_nat (length template))
                                    (art_read_len a)); simpl; split; (lia || done). }
  set (X := if plus_strand then template else revcomp template).
  assert (Z.of_nat (length X) = Z.of_nat (length template)) as HX.
  { subst X. destruct plus_strand; by rewrite ?length_revcomp. }
  assert (slice_to X (art_read_len a) = take (Z.to_nat (art_read_len a)) X)
    as Hsl.
  { unfold slice_to. by destruct (Z.leb_spec 0 (art_read_len a)); [|lia]. }
  set (read2 := with_bpos _ 0).
  assert (indel read2 = ∅ /\ seq_ref read2 = take (Z.to_nat (art_read_len a)) X
          /\ read_len read2 = read_len read1) as (Hi2 & Hs2 & Hr2).
  { subst read2 X. destruct plus_strand; simpl; rewrite Hind; by rewrite <- Hsl. }
  clearbody read2. unfold ref2read.
  rewrite (bool_decide_eq_true_2 (size (indel read2) = 0%nat))
    by (rewrite Hi2; apply map_size_empty).
  eexists. split; [reflexivity|]. simpl. rewrite Hi2, Hs2, Hr2, HR.
  split; [done|]. rewrite length_take.
  split; [lia|]. split; [|done]. do 2 f_equal. lia.
Qed.

(** *** Lengths along the indel path *)

Lemma setitem_length {A} (l : list A) n c l' :
  setitem l n c = Some l' -> length l' = length l.
Proof.
  unfold setitem. destruct (_ && _); [|discriminate].
  intros [= <-]. apply length_insert.
Qed.

Lemma ref2read_walk_length fuel m ref : forall i n k out n' k' out',
  ref2read_walk fuel m ref i n k out = Ok (n', k', out') ->
  length out' = length out.
Proof.
  induction fuel as [|fuel IH]; intros i n k out n' k' out';
    cbn [ref2read_walk]; destruct (i <? Z.of_nat (length ref));
    try discriminate; try (by intros [= _ _ <-]).
  destruct (m !! k) as [c|].
  - destruct (Ascii.eqb c DEL_MARK); [apply IH|].
    destruct (setitem out n c) as [out1|] eqn:E; [|discriminate].
    intros H. apply IH in H. apply setitem_length in E. congruence.
  - destruct (getitem ref i) as [c|]; [|discriminate].
    destruct (setitem out n c) as [out1|] eqn:E; [|discriminate].
    intros H. apply IH in H. apply setitem_length in E. congruence.
Qed.

Lemma ref2read_flush_length fuel m : forall n k out n' k' out',
  ref2read_flush fuel m n k out = Ok (n', k', out') ->
  length out' = length out.
Proof.
  induction fuel as [|fuel IH]; intros n k out n' k' out';
    cbn [ref2read_flush]; destruct (m !! k) as [c|];
    try discriminate; try (by intros [= _ _ <-]).
  destruct (setitem out n c) as [out1|] eqn:E; [|discriminate].
  intros H. apply IH in H. apply setitem_length in E. congruence.
Qed.

Lemma ref2read_Ok sr read :
  ref2read sr = Ok read ->
  indel read = indel sr /\ seq_ref read = seq_ref sr
  /\ quals read = quals sr
  /\ (size (indel sr) = 0%nat -> seq_read read = seq_ref sr)
  /\ (size (indel sr) <> 0%nat ->
      length (seq_read read) = length (seq_read sr)).
Proof.
  unfold ref2read. case_bool_decide as Hsz.
  - intros [= <-]. by repeat split.
  - unfold ref2read_indels.
    destruct (ref2read_walk _ _ _ _ _ _ _) as [[[n k] out]| |] eqn:E1;
      try discriminate.
    destruct (ref2read_flush _ _ _ _ _) as [[[n' k'] out']| |] eqn:E2;
      try discriminate.
    intros [= <-]. simpl. repeat split; try done. intros _.
    apply ref2read_walk_length in E1. apply ref2read_flush_length in E2.
    rewrite E2, E1. apply length_replicate.
Qed.

Lemma get_read_qual_Ok d rlen is_first (rs : RandomState) qs rs' :
  get_read_qual d rlen is_first rs = Ok (qs, rs') ->
  Z.of_nat (length qs) = rlen /\ 0 < rlen.
Proof.
  unfold get_read_qual. destruct (verify_length d rlen is_first);
    try discriminate.
  destruct (_ !! [CMB_SYMB]) as [tables|]; [|discriminate].
  unfold _get_from_dist, bind.
  destruct (sized _ rlen rs) as [[rvs rs1]| |]; try discriminate.
  destruct (imap_lookup_qcdf tables rvs) as [quals| |]; try discriminate.
  destruct (Z.ltb_spec 0 (Z.of_nat (length quals))); [|discriminate].
  destruct (Z.eqb_spec (Z.of_nat (length quals)) rlen); [|discriminate].
  intros [= <- <-]. lia.
Qed.

Lemma parse_error_from_length : forall rvals i qs sq (rs : RandomState)
    qs' sq' rs',
  parse_error_from rvals i qs sq rs = Ok (qs', sq', rs') ->
  length qs' = length qs /\ length sq' = length sq.
Proof.
  induction rvals as [|u rvals IH]; intros i qs sq rs qs' sq' rs';
    cbn [parse_error_from]; [by intros [= <- <- <-]|].
  destruct (getitem sq i) as [c|]; [|discriminate].
  destruct (Ascii.eqb c N_SYMB).
  - destruct (setitem qs i 1) as [qs1|] eqn:E; [|discriminate].
    intros H. apply IH in H as [-> ->]. apply setitem_length in E. by rewrite E.
  - destruct (getitem qs i) as [q|]; [|discriminate].
    destruct (getitem PROB_ERR q) as [p|]; [|discriminate].
    destruct (negb (Qle_bool p u)); [|apply IH].
    unfold bind.
    destruct (random_base (Some c) rs) as [[b rs1]| |]; try discriminate.
    destruct (setitem sq i b) as [sq1|] eqn:E; [|discriminate].
    intros H. apply IH in H as [-> ->]. apply setitem_length in E. by rewrite E.
Qed.

Lemma sequence_read_Ok d is_first read (rs : RandomState) read' rs' :
  sequence_read d is_first read rs = Ok (read', rs') ->
  indel read' = indel read
  /\ length (seq_read read') = length (seq_read read)
  /\ exists qs, quals read' = Some qs
       /\ length qs = length (seq_read read') /\ (0 < length qs)%nat.
Proof.
  unfold sequence_read, bind, ret.
  destruct (get_read_qual d _ is_first rs) as [[qs rs1]| |] eqn:Eq;
    try discriminate.
  apply get_read_qual_Ok in Eq as [Hlen Hpos]. unfold SeqRead_length in *.
  unfold parse_error, bind in *.
  destruct (sized UNIFORM _ rs1) as [[rvals rs2]| |]; try discriminate.
  destruct (parse_error_from rvals 0 qs (seq_read read) rs2)
    as [[[qs' sq'] rs3]| |] eqn:Ep; try discriminate.
  apply parse_error_from_length in Ep as [Hq Hs].
  intros [= <- <-].
  assert (length qs' = length sq' /\ (0 < length qs')%nat) as [? ?] by lia.
  destruct (bool_decide _); simpl; (split; [done|]; split; [done|]);
    by exists qs'.
Qed.

(** X3. A read that [next_read_indel_seq] or [next_read_indel_at] returns is
    never empty and carries one quality score per cell of its
    sequence. *)
Theorem indel_read_quality_length a template pos plus_strand
    (rs : RandomState) read rs' :
  next_read_indel_seq a template plus_strand rs = Ok (read, rs')
  \/ next_read_indel_at a pos plus_strand rs = Ok (read, rs') ->
  exists qs,
    quals read = Some qs /\ length qs = length (seq_read read)
    /\ (0 < length qs)%nat.
Proof.
  intros [H|H].
  - unfold next_read_indel_seq, bind in H.
    destruct (reconstruct_indel_seq a template plus_strand rs)
      as [[[slen r] rs1]| |]; try discriminate.
    by apply sequence_read_Ok in H as (_ & _ & ?).
  - unfold next_read_indel_at, bind in H.
    destruct (lift (_new_read a true) rs) as [[r0 rs0]| |]; try discriminate.
    destruct (get_indel _ rs0) as [[[slen r1] rs1]| |]; try discriminate.
    destruct (ref_seq a) as [refs|]; [|discriminate].
    destruct (ref_seq_cmp a) as [refc|]; [|discriminate].
    destruct ((if _ <? _ then get_indel_2 r1 else ret (slen, r1)) rs1)
      as [[[slen2 r2] rs2]| |]; discriminate.
Qed.

(** *** How many events *)

Lemma count_in_some P k len :
  count_in P k len <> 0 ->
  exists p, k <= p < k + Z.of_nat len /\ P p = true.
Proof.
  revert k. induction len as [|len IH]; intros k H; simpl in H; [done|].
  destruct (P k) eqn:Hk; [exists k; split; [lia|done]|].
  destruct (IH (k + 1)) as (p & ? & ?); [lia|].
  exists p. split; [lia|done].
Qed.

Lemma get_indel_counts_bounds sr rs a d m rs' :
  get_indel_counts sr rs = Ok (a, d, m, rs') ->
  0 <= a <= Z.of_nat (length (ins_rate sr))
  /\ 0 <= d <= Z.of_nat (length (del_rate sr))
  /\ (a = 0 \/ a + d <= read_len sr).
Proof.
  unfold get_indel_counts, bind, ret.
  destruct (scan _ _ (del_rate sr) _ _ rs) as [[[d1 m1] rs1]| |] eqn:E1;
    try discriminate.
  destruct (scan _ _ (ins_rate sr) _ _ rs1) as [[[a1 m2] rs2]| |] eqn:E2;
    try discriminate.
  intros [= <- <- <- <-].
  apply (scan_deletions_wf _ _ _ 0 _ _ _ _ _ _ 0) in E1
    as (W1 & ? & _); [|apply indel_wf_empty].
  apply (scan_insertions_wf _ _ _ (0 + d1) _ _ _ _ _ _ 0) in E2
    as (W2 & ? & Hg); [|done].
  split; [lia|]. split; [lia|].
  destruct Hg as [|Hg]; [by left|right].
  destruct (Z.ltb_spec (read_len sr - d1 - 0) (a1 - 1 + 1)); [discriminate|lia].
Qed.

Lemma get_indel_2_counts_bounds sr rs a d m rs' :
  get_indel_2_counts sr rs = Ok (a, d, m, rs') ->
  0 <= a <= Z.of_nat (length (ins_rate sr))
  /\ 0 <= d <= Z.of_nat (length (del_rate sr))
  /\ (d = 0 \/ (a <> 0 /\ a + d <= read_len sr)).
Proof.
  unfold get_indel_2_counts, bind, ret.
  destruct (scan _ _ (ins_rate sr) _ _ rs) as [[[a1 m1] rs1]| |] eqn:E1;
    try discriminate.
  destruct (scan _ _ (del_rate sr) _ _ rs1) as [[[d1 m2] rs2]| |] eqn:E2;
    try discriminate.
  intros [= <- <- <- <-].
  apply (scan_insertions_wf _ _ _ 0 _ _ _ _ _ _ 0) in E1
    as (W1 & ? & _); [|apply indel_wf_empty].
  apply (scan_deletions_wf _ _ _ (0 + a1) _ _ _ _ _ _ 0) in E2
    as (W2 & ? & Hg); [|done].
  split; [lia|]. split; [lia|].
  destruct Hg as [|Hg]; [by left|right].
  destruct (Z.eqb_spec 0 a1); [discriminate|].
  destruct (Z.ltb_spec (read_len sr - 0 - a1) (d1 - 1 + 1)); [discriminate|lia].
Qed.

(** X4. The net length change either generator returns is a number of
    insertions less a number of deletions, neither above the length of
    its rate curve. *)
Theorem net_change_bounded sr (rs : RandomState) slen sr' rs' :
  get_indel sr rs = Ok (slen, sr', rs')
  \/ get_indel_2 sr rs = Ok (slen, sr', rs') ->
  - Z.of_nat (length (del_rate sr)) <= slen <= Z.of_nat (length (ins_rate sr)).
Proof.
  intros [H|H].
  - unfold get_indel, bind, ret in H.
    destruct (get_indel_counts sr rs) as [[[[a d] m] rs1]| |] eqn:E;
      try discriminate.
    injection H as <- _ _. apply get_indel_counts_bounds in E. lia.
  - unfold get_indel_2, bind, ret in H.
    destruct (get_indel_2_counts sr rs) as [[[[a d] m] rs1]| |] eqn:E;
      try discriminate.
    injection H as <- _ _. apply get_indel_2_counts_bounds in E. lia.
Qed.

(** X5. [get_indel_2] deletes nothing unless it inserted something: a map
    without an insertion is empty, and the net change is then 0; a key
    marked as a deletion comes with a key marked as an insertion. *)
Theorem get_indel_2_deletes_after_insertion sr (rs : RandomState) slen sr' rs' :
  get_indel_2 sr rs = Ok (slen, sr', rs') ->
  ((forall k, is_ins (indel sr') k = false) -> indel sr' = ∅ /\ slen = 0)
  /\ (forall k, indel sr' !! k = Some DEL_MARK ->
      exists k', is_ins (indel sr') k' = true).
Proof.
  unfold get_indel_2, bind, ret.
  destruct (get_indel_2_counts sr rs) as [[[[a d] m] rs1]| |] eqn:E;
    try discriminate.
  intros [= <- <- <-]. simpl.
  pose proof (get_indel_2_counts_bounds _ _ _ _ _ _ E) as (Ha & Hd & Hg).
  apply get_indel_2_counts_wf in E as ([Hk Hdel Hi Hca Hcd Hs] & _ & _).
  assert ((forall k, is_ins m k = false) -> m = ∅ /\ a - d = 0) as Hnone.
  { intros Hno. assert (a = 0) as ->.
    { rewrite <- Hca. apply count_in_none. intros p _. apply Hno. }
    assert (d = 0) as -> by lia. split; [|done].
    apply map_size_empty_inv. lia. }
  split; [done|].
  intros k Hkd. destruct (decide (a = 0)) as [->|Hne].
  - assert (d = 0) as -> by lia. assert (size m = 0%nat) as Hsz by lia.
    apply map_size_empty_inv in Hsz. subst m. by rewrite lookup_empty in Hkd.
  - rewrite <- Hca in Hne. apply count_in_some in Hne as (p & _ & Hp).
    by exists p.
Qed.

(** *** Tables out of a profile file *)

Lemma nearest_even_exact a d : 0 < d -> nearest_even (a * d) d = a.
Proof.
  intros Hd. unfold nearest_even. rewrite Z.mod_mul, Z.div_mul by lia.
  destruct (Z.compare_spec (2 * 0) d); lia.
Qed.

Lemma nearest_even_le n d a : 0 < d -> n <= a * d -> nearest_even n d <= a.
Proof.
  intros Hd H. unfold nearest_even.
  pose proof (Z.div_mod n d ltac:(lia)) as E.
  pose proof (Z.mod_pos_bound n d Hd) as B.
  assert (n / d <= a) as Hq by (apply Z.div_le_upper_bound; lia).
  destruct (Z.compare_spec (2 * (n mod d)) d) as [He|Hl|Hg]; [destruct (Z.even _)|..];
    try lia; (assert (n / d < a); [|lia]); nia.
Qed.

Lemma nearest_even_half n d :
  0 < d -> 2 * n - d <= 2 * d * nearest_even n d.
Proof.
  intros Hd. unfold nearest_even.
  pose proof (Z.div_mod n d ltac:(lia)) as E.
  pose proof (Z.mod_pos_bound n d Hd) as B.
  destruct (Z.compare_spec (2 * (n mod d)) d) as [He|Hl|Hg]; [destruct (Z.even _)|..];
    nia.
Qed.

Lemma exponent_le n d j :
  0 < n -> 0 < d -> 0 <= j -> n < 2 ^ j * d -> exponent n d <= j - 53.
Proof.
  intros Hn Hd Hj H. unfold exponent.
  set (e0 := Z.log2 n - Z.log2 d - 52).
  destruct (Z.ltb_spec (shift_num n e0) (2 ^ 52 * shift_den d e0)) as [_|Ht].
  - assert (Z.log2 n <= j + Z.log2 d); [|lia].
    rewrite <- Z.log2_mul_pow2 by lia. apply Z.log2_le_mono. lia.
  - unfold shift_num, shift_den in Ht.
    assert (e0 < j - 52); [|lia].
    destruct (Z.le_gt_cases (j - 52) e0) as [Hge|]; [exfalso|done].
    assert (2 ^ (52 + Z.max 0 e0) < 2 ^ (j + Z.max 0 (- e0))) as Hp.
    { rewrite !Z.pow_add_r by lia.
      assert (0 < 2 ^ Z.max 0 (- e0)) by (apply Z.pow_pos_nonneg; lia).
      assert (0 < 2 ^ Z.max 0 e0) by (apply Z.pow_pos_nonneg; lia).
      assert (0 < 2 ^ j) by (apply Z.pow_pos_nonneg; lia).
      apply (Z.mul_lt_mono_pos_r d); [lia|]. nia. }
    apply Z.pow_lt_mono_r_iff in Hp; lia.
Qed.

(** An integer below [2^53] is a double. *)
Lemma fl_integer (x : Q) z :
  (x == inject_Z z)%Q -> 0 <= z < 2 ^ 53 -> (fl x == inject_Z z)%Q.
Proof.
  intros Hx Hz. destruct x as [n d]. unfold Qeq in Hx. simpl in Hx.
  unfold fl. simpl Qnum. simpl Qden.
  destruct n as [|n|n]; [unfold Qeq; simpl; lia| |lia].
  unfold round_pos.
  pose proof (exponent_le (Z.pos n) (Z.pos d) 53 ltac:(lia) ltac:(lia) ltac:(lia)
                ltac:(nia)) as He.
  set (e := exponent _ _) in *. unfold shift_num, shift_den.
  rewrite (Z.max_l 0 e), (Z.max_r 0 (- e)) by lia.
  rewrite Z.pow_0_r, !Z.mul_1_r.
  assert (0 < 2 ^ (- e)) as Hp by (apply Z.pow_pos_nonneg; lia).
  replace (Z.pos n * 2 ^ (- e)) with (z * 2 ^ (- e) * Z.pos d) by lia.
  rewrite nearest_even_exact by lia.
  unfold Qeq. simpl. rewrite Z2Pos.id by lia. lia.
Qed.

Lemma ceil_div_unique m D T :
  0 < D -> (T - 1) * D < m <= T * D -> - ((- m) / D) = T.
Proof.
  intros HD H. assert ((- m) / D = - T) as ->; [|lia].
  symmetry. apply (Z.div_unique _ _ _ (T * D - m)); lia.
Qed.

(** The quotient of the scaling keeps its ceiling when it is rounded. *)
Lemma Qceiling_fl (x : Q) N L :
  0 < N -> 0 < L -> N < 2 ^ 20 * L -> L < 2 ^ 34 ->
  Qnum x * L = N * Z.pos (Qden x) ->
  Qceiling (fl x) = - ((- N) / L).
Proof.
  intros HN HL Hb HL2 Hx. destruct x as [n d]. simpl in Hx.
  unfold fl. simpl Qnum. simpl Qden.
  destruct n as [|n|n]; [lia| |lia].
  unfold round_pos.
  pose proof (exponent_le (Z.pos n) (Z.pos d) 20 ltac:(lia) ltac:(lia) ltac:(lia)
                ltac:(nia)) as He.
  set (e := exponent _ _) in *. unfold shift_num, shift_den.
  rewrite (Z.max_l 0 e), (Z.max_r 0 (- e)) by lia.
  rewrite Z.pow_0_r, !Z.mul_1_r.
  set (k := - e) in *. assert (33 <= k) as Hk by lia.
  assert (2 ^ 33 <= 2 ^ k) as Hp by (apply Z.pow_le_mono_r; lia).
  set (P := 2 ^ k) in *.
  set (m := nearest_even _ _).
  unfold Qceiling, Qfloor. simpl. rewrite Z2Pos.id by lia.
  set (T := - (- N / L)).
  assert ((T - 1) * L < N <= T * L) as HT.
  { subst T. pose proof (Z.div_mod (- N) L ltac:(lia)).
    pose proof (Z.mod_pos_bound (- N) L HL). nia. }
  apply ceil_div_unique; [lia|]. split.
  - pose proof (nearest_even_half (Z.pos n * P) (Z.pos d) ltac:(lia)) as Hh.
    fold m in Hh.
    apply (Z.mul_lt_mono_pos_l (2 * Z.pos d)); [lia|].
    apply (Z.mul_lt_mono_pos_r L); [lia|].
    apply Z.lt_le_trans with ((2 * (Z.pos n * P) - Z.pos d) * L);
      [|apply Z.mul_le_mono_nonneg_r; lia].
    replace ((2 * (Z.pos n * P) - Z.pos d) * L)
      with (Z.pos d * (2 * P * N - L))
      by (assert (Z.pos n * L * P = N * Z.pos d * P) by (by rewrite Hx); lia).
    replace (2 * Z.pos d * ((T - 1) * P) * L)
      with (Z.pos d * (2 * P * ((T - 1) * L))) by ring.
    apply Z.mul_lt_mono_pos_l; [lia|].
    assert (2 * P * ((T - 1) * L + 1) <= 2 * P * N)
      by (apply Z.mul_le_mono_nonneg_l; lia).
    lia.
  - apply nearest_even_le; [lia|].
    apply (Z.mul_le_mono_pos_r _ _ L); [lia|].
    replace (Z.pos n * P * L) with (N * (Z.pos d * P))
      by (assert (Z.pos n * L * P = N * Z.pos d * P) by (by rewrite Hx); lia).
    replace (T * P * Z.pos d * L) with (T * L * (Z.pos d * P)) by ring.
    apply Z.mul_le_mono_nonneg_r; lia.
Qed.

(** Up to the count whose product with [1e6] is below [2^53], the
    double arithmetic of the scaling gives the exact ceiling. *)
Lemma scaled_count_exact c lst :
  0 <= c <= lst -> 0 < lst -> lst * MAX_DIST_NUMBER < 2 ^ 53 ->
  scaled_count c lst = - ((- (c * MAX_DIST_NUMBER)) / lst).
Proof.
  intros Hc Hl Hb. unfold scaled_count, MAX_DIST_NUMBER in *.
  destruct (Z.eqb_spec lst 0); [lia|].
  assert (fl (inject_Z lst) == inject_Z lst)%Q as E2
    by (apply fl_integer; [reflexivity|lia]).
  destruct (Z.eq_dec c 0) as [->|Hc0]; [reflexivity|].
  assert (fl (fl (inject_Z c) * inject_Z 1000000) == inject_Z (c * 1000000))%Q
    as E1.
  { apply fl_integer; [|lia]. rewrite inject_Z_mult.
    apply Qmult_comp; [|reflexivity]. apply fl_integer; [reflexivity|lia]. }
  set (x := (_ / _)%Q).
  assert (x == inject_Z (c * 1000000) / inject_Z lst)%Q as Ex.
  { subst x. by rewrite E1, E2. }
  rewrite (Qceiling_fl x (c * 1000000) lst); try lia.
  - set (T := - (- (c * 1000000) / lst)).
    assert (0 <= T <= 1000000) as HT.
    { subst T. pose proof (Z.div_mod (- (c * 1000000)) lst ltac:(lia)).
      pose proof (Z.mod_pos_bound (- (c * 1000000)) lst Hl). nia. }
    destruct (Z.leb_spec (- 2 ^ 63) T); [|lia].
    destruct (Z.ltb_spec T (2 ^ 63)); [done|lia].
  - clearbody x. destruct lst as [|p|p]; try lia.
    unfold Qeq in Ex. simpl in Ex. lia.
Qed.

Lemma ceil_div_mono lst c1 c2 :
  0 < lst -> c1 <= c2 ->
  - ((- (c1 * MAX_DIST_NUMBER)) / lst) <= - ((- (c2 * MAX_DIST_NUMBER)) / lst).
Proof.
  intros Hl Hc.
  pose proof (Z.div_le_mono (- (c2 * MAX_DIST_NUMBER)) (- (c1 * MAX_DIST_NUMBER))
                lst Hl) as H.
  unfold MAX_DIST_NUMBER in *. lia.
Qed.

Lemma ceil_div_last lst :
  0 < lst -> - ((- (lst * MAX_DIST_NUMBER)) / lst) = MAX_DIST_NUMBER.
Proof.
  intros Hl.
  replace (- (lst * MAX_DIST_NUMBER)) with (- MAX_DIST_NUMBER * lst) by lia.
  rewrite Z.div_mul by lia. lia.
Qed.

Lemma ascending_le_last l lst c :
  ascending l = true -> last l = Some lst -> c ∈ l -> c <= lst.
Proof.
  revert c. induction l as [|x l IH]; intros c Ha Hl Hc;
    [by apply elem_of_nil in Hc|].
  destruct l as [|y l].
  - apply list_elem_of_singleton in Hc. simpl in Hl. by simplify_eq.
  - apply elem_of_cons in Hc as [->|Hc].
    + assert (y <= lst) by (apply IH; [by eapply ascending_tail|done|left]).
      cbn [ascending] in Ha. apply andb_prop in Ha as [Hxy _].
      apply Z.leb_le in Hxy. lia.
    + apply IH; [by eapply ascending_tail|done|done].
Qed.

Lemma ascending_map (f : Z -> Z) l :
  (forall x y, x <= y -> f x <= f y) ->
  ascending l = true -> ascending (map f l) = true.
Proof.
  intros Hf. induction l as [|x l IH]; [done|].
  destruct l as [|y l]; [done|]. cbn [ascending map] in *.
  intros H. apply andb_prop in H as [Hxy Hl]. apply Z.leb_le in Hxy.
  apply andb_true_intro. split; [apply Z.leb_le; by apply Hf|by apply IH].
Qed.

(** X12. Counts that ascend from a non-negative count to a positive
    total whose product with [1e6] is below [2^53] (a total of at most
    9,007,199,254), with as many quality scores of [0, 79], make a table
    that sampling accepts: the thresholds are the exact ceilings of
    [count * 1e6 / total], ascending, and end at exactly 1,000,000, and
    the scores are kept in order. *)
Theorem make_dist_well_formed values counts lst :
  length values = length counts ->
  ascending counts = true ->
  Forall (fun c => 0 <= c) counts ->
  last counts = Some lst -> 0 < lst -> lst * MAX_DIST_NUMBER < 2 ^ 53 ->
  Forall (fun v => 0 <= v <= 79) values ->
  exists t,
    make_dist values counts = Some t
    /\ qcdf_ok t = true
    /\ map snd t = values
    /\ map fst t = map (fun c => - ((- (c * MAX_DIST_NUMBER)) / lst)) counts
    /\ last (map fst t) = Some MAX_DIST_NUMBER.
Proof.
  intros Hlen Hasc Hpos Hlast Hl Hb Hv. unfold make_dist. rewrite Hlast.
  eexists. split; [reflexivity|].
  assert (map (fun c => scaled_count c lst) counts
          = map (fun c => - ((- (c * MAX_DIST_NUMBER)) / lst)) counts) as Hex.
  { apply map_ext_in. intros c Hc. apply list_elem_of_In in Hc.
    apply scaled_count_exact; [|done|done].
    split; [exact (proj1 (Forall_forall _ _) Hpos c Hc)|].
    by apply (ascending_le_last counts). }
  rewrite Hex.
  set (f := fun c => - ((- (c * MAX_DIST_NUMBER)) / lst)).
  assert (map fst (zip (map f counts) values) = map f counts) as Hfst.
  { apply fst_zip. rewrite length_map. lia. }
  assert (map snd (zip (map f counts) values) = values) as Hsnd.
  { apply snd_zip. rewrite length_map. lia. }
  assert (last (map f counts) = Some MAX_DIST_NUMBER) as Hl2.
  { change (map ?f ?l) with (f <$> l). rewrite fmap_last, Hlast. simpl.
    subst f. simpl. by rewrite ceil_div_last. }
  split; [|split; [done|split; [done|by rewrite Hfst]]].
  unfold qcdf_ok. rewrite Hfst, Hl2.
  rewrite ascending_map; [|intros; by apply ceil_div_mono|done].
  rewrite Z.leb_refl. simpl. apply forallb_forall. intros [thr q] Hin.
  assert (q ∈ values) as Hq.
  { rewrite <- Hsnd. apply list_elem_of_In. change q with (snd (thr, q)).
    by apply in_map. }
  pose proof (proj1 (Forall_forall _ _) Hv q Hq) as Hr. simpl in *.
  apply andb_true_intro. unfold HIGHEST_QUAL.
  split; [apply Z.leb_le|apply Z.ltb_lt]; lia.
Qed.

Lemma make_dist_pair_ok pair :
  pair_ok pair = true -> make_dist (fst pair) (snd pair) = Some (dist_of pair).
Proof.
  unfold pair_ok, dist_of, make_dist. intros H.
  apply andb_prop in H as [_ H]. destruct (snd pair) as [|c l] eqn:E; [done|].
  destruct (last (c :: l)) eqn:El; [done|].
  by apply last_None in El.
Qed.

Lemma read_emp_dist_from_profile_lines : forall pairs i qd l0,
  qd !! [CMB_SYMB] = Some l0 ->
  Forall (fun p => pair_ok p = true) pairs ->
  read_emp_dist_from false (profile_lines [CMB_SYMB] i pairs) i qd
  = Ok (i + Z.of_nat (length pairs),
        <[[CMB_SYMB] := l0 ++ map dist_of pairs]> qd).
Proof.
  induction pairs as [|[values counts] pairs IH]; intros i qd l0 Hq Hok.
  - simpl. rewrite app_nil_r, insert_id by done. do 2 f_equal. lia.
  - apply Forall_cons in Hok as [Hp Hok].
    cbn [profile_lines read_emp_dist_from].
    change (is_comment (Data [CMB_SYMB] i values)) with false.
    change (skip_symbol false [CMB_SYMB]) with false. cbv iota.
    rewrite Z.eqb_refl. cbn [negb andb]. rewrite Z.eqb_refl. cbn [negb].
    pose proof (make_dist_pair_ok _ Hp) as Hd. simpl in Hd.
    unfold pair_ok in Hp. simpl in Hp. apply andb_prop in Hp as [Hlen _].
    rewrite Hlen. cbn [negb]. rewrite Hd, Hq.
    rewrite (IH (i + 1) _ (l0 ++ [dist_of (values, counts)]));
      [|by rewrite lookup_insert_eq|done].
    rewrite insert_insert_eq, <- app_assoc. simpl. do 2 f_equal. lia.
Qed.

(** X13. Loading two files that give one pair of combined lines per
    position, from position 0 on, returns the profile whose combined
    tables are the tables of the pairs in file order; each mate's
    maximum length is its number of pairs, and every other symbol keeps
    an empty list. *)
Theorem EmpDist_init_profile_lines pairs_first pairs_second :
  Forall (fun p => pair_ok p = true) pairs_first ->
  Forall (fun p => pair_ok p = true) pairs_second ->
  exists d,
    EmpDist_init (profile_lines [CMB_SYMB] 0 pairs_first)
      (profile_lines [CMB_SYMB] 0 pairs_second) false = Ok d
    /\ qual_dist_first d
       = <[[CMB_SYMB] := map dist_of pairs_first]> empty_qual_dist
    /\ qual_dist_second d
       = <[[CMB_SYMB] := map dist_of pairs_second]> empty_qual_dist
    /\ dist_max d FIRST = Z.of_nat (length pairs_first)
    /\ dist_max d SECOND = Z.of_nat (length pairs_second).
Proof.
  intros H1 H2. unfold EmpDist_init, init_dist, read_emp_dist.
  simpl sep_quals. simpl qual_dist_first. simpl qual_dist_second.
  rewrite empty_qual_dist_cleared.
  rewrite !(read_emp_dist_from_profile_lines _ 0 empty_qual_dist []) by done.
  cbn [negb]. rewrite !lookup_insert_eq. simpl app.
  eexists. split; [reflexivity|]. simpl.
  by rewrite !length_map.
Qed.

(** X14. A draw above every threshold of a table finds no row:
    [_lookup_qcdf] raises [IndexError]. *)
Theorem lookup_qcdf_beyond_last (t : list (Z * Z)) rv :
  ascending (map fst t) = true ->
  Forall (fun row => fst row < rv) t ->
  _lookup_qcdf t rv = Raise IndexError.
Proof.
  intros Hasc Hall. unfold _lookup_qcdf.
  destruct (searchsorted_spec (map fst t) rv Hasc) as (_ & _ & Hhigh).
  destruct (t !! searchsorted (map fst t) rv) as [row|] eqn:E; [|done].
  exfalso. pose proof (proj1 (Forall_lookup _ _) Hall _ _ E) as Hlt.
  specialize (Hhigh (searchsorted (map fst t) rv) (fst row) (le_n _)).
  rewrite list_lookup_fmap, E in Hhigh. specialize (Hhigh eq_refl).
  simpl in Hlt. lia.
Qed.

(** *** The constructor and what it hands to the reads *)

Lemma length_make_rate mx rlen prob :
  fst (_make_rate mx rlen prob) = Z.min mx rlen
  /\ length (snd (_make_rate mx rlen prob)) = Z.to_nat (Z.min mx rlen).
Proof.
  unfold _make_rate. simpl. rewrite length_map, length_seqZ.
  destruct (Z.ltb_spec rlen mx); split; f_equal; lia.
Qed.

Lemma Art_init_Ok rlen d ip dp mx seed ref (g : RandomState) a g' :
  Art_init rlen d ip dp mx seed ref g = Ok (a, g') ->
  rlen <= dist_max d FIRST /\ rlen <= dist_max d SECOND
  /\ emp_dist a = d /\ art_read_len a = rlen
  /\ art_max_num a = Z.min mx rlen
  /\ length (art_ins_rate a) = Z.to_nat (Z.min mx rlen)
  /\ length (art_del_rate a) = Z.to_nat (Z.min mx rlen)
  /\ match ref with
     | Some (c :: r) =>
         ref_seq a = Some (make_mutable (c :: r))
         /\ ref_seq_cmp a = Some (revcomp (c :: r))
         /\ valid_region a = Some (Z.of_nat (length (c :: r)) - rlen)
     | _ => ref_seq a = None /\ ref_seq_cmp a = None /\ valid_region a = None
     end.
Proof.
  unfold Art_init, bind, lift, ret, verify_length, FIRST, SECOND.
  destruct (Z.leb_spec rlen (dist_max d true)); [|discriminate].
  destruct (Z.leb_spec rlen (dist_max d false)); [|discriminate].
  destruct (reseed seed g) as [[[] g1]| |]; try discriminate.
  pose proof (length_make_rate mx rlen ip) as [H1 H2].
  destruct (_make_rate mx rlen ip) as [mx1 ins]. simpl in H1, H2. subst mx1.
  pose proof (length_make_rate (Z.min mx rlen) rlen dp) as [H3 H4].
  destruct (_make_rate (Z.min mx rlen) rlen dp) as [mx2 del].
  simpl in H3, H4. subst mx2.
  replace (Z.min (Z.min mx rlen) rlen) with (Z.min mx rlen) in * by lia.
  destruct ref as [[|c r]|]; intros [= <- <-]; simpl; by repeat split.
Qed.

(** X15. A constructed [Art] has a read length within both mates' maxima, a
    maximal event count of [min(max_num, read_len)] and two rate curves
    of that many entries; with a non-empty reference it holds the
    upper-cased reference, the reverse complement of the reference as
    given, and [len(ref_seq) - read_len] as the valid region. *)
Theorem Art_init_postcondition rlen d ip dp mx seed ref (g : RandomState) a g' :
  Art_init rlen d ip dp mx seed ref g = Ok (a, g') ->
  rlen <= dist_max d FIRST /\ rlen <= dist_max d SECOND
  /\ emp_dist a = d /\ art_read_len a = rlen
  /\ art_max_num a = Z.min mx rlen
  /\ length (art_ins_rate a) = Z.to_nat (Z.min mx rlen)
  /\ length (art_del_rate a) = Z.to_nat (Z.min mx rlen)
  /\ match ref with
     | Some (c :: r) =>
         ref_seq a = Some (make_mutable (c :: r))
         /\ ref_seq_cmp a = Some (revcomp (c :: r))
         /\ valid_region a = Some (Z.of_nat (length (c :: r)) - rlen)
     | _ => ref_seq a = None /\ ref_seq_cmp a = None /\ valid_region a = None
     end.
Proof. apply Art_init_Ok. Qed.

(** X16. [next_read_indel] cannot sample a reference that is not longer than
    the read ([randint] over an empty range), and has no valid region at
    all when the [Art] was built without a reference. *)
Theorem next_read_indel_needs_longer_reference rlen d ip dp mx seed ref
    (g : RandomState) a g' (rs : RandomState) :
  Art_init rlen d ip dp mx seed ref g = Ok (a, g') ->
  (ref = None \/ ref = Some [] -> next_read_indel a rs = Raise AttributeError)
  /\ (forall r, ref = Some r -> r <> [] ->
      Z.of_nat (length r) <= rlen -> next_read_indel a rs = Raise ValueError).
Proof.
  intros H. apply Art_init_Ok in H as (_ & _ & _ & _ & _ & _ & _ & Href).
  unfold next_read_indel. split.
  - intros [-> | ->]; destruct Href as (_ & _ & ->); reflexivity.
  - intros r -> Hne Hlen. destruct r as [|c r]; [done|].
    destruct Href as (_ & _ & ->). unfold bind, RANDINT.
    by destruct (Z.ltb_spec 0 (Z.of_nat (length (c :: r)) - rlen)); [lia|].
Qed.

(** X17. However large a [max_num] the constructor was given, the net length
    change of a read of [next_read_indel_seq] stays within the clamped
    [max_num], which is at most the read length. *)
Theorem indel_seq_net_change_within_max_num rlen d ip dp mx seed ref
    (g : RandomState) a g' template plus_strand (rs : RandomState)
    slen read rs' :
  Art_init rlen d ip dp mx seed ref g = Ok (a, g') ->
  reconstruct_indel_seq a template plus_strand rs = Ok (slen, read, rs') ->
  art_max_num a <= rlen /\ art_max_num a <= mx
  /\ - Z.max 0 (art_max_num a) <= slen <= Z.max 0 (art_max_num a).
Proof.
  intros Hinit Hrun.
  apply Art_init_Ok in Hinit as (_ & _ & _ & HL & Hmx & Hins & Hdel & _).
  split; [lia|]. split; [lia|].
  unfold reconstruct_indel_seq, bind, lift, ret, _new_read, SeqRead_init in Hrun.
  destruct (art_read_len a <? 0); [discriminate|].
  set (read0 := mkSeqRead _ _ _ _ _ _ _ _ _ _) in Hrun.
  set (read1 := if _ <? read_len read0 then _ else _) in Hrun.
  assert (ins_rate read1 = art_ins_rate a /\ del_rate read1 = art_del_rate a)
    as [Hi1 Hd1].
  { subst read1. by destruct (_ <? _). }
  clearbody read1. clear read0.
  unfold get_indel, bind, ret in Hrun.
  destruct (get_indel_counts read1 rs) as [[[[a1 d1] m1] rs1]| |] eqn:E1;
    try discriminate.
  apply get_indel_counts_bounds in E1 as (Ha1 & Hd1' & _).
  rewrite Hi1, Hins in Ha1. rewrite Hd1, Hdel in Hd1'.
  destruct (_ <? _) in Hrun.
  - unfold get_indel_2, bind, ret in Hrun.
    destruct (get_indel_2_counts (with_indel read1 m1) rs1)
      as [[[[a2 d2] m2] rs2]| |] eqn:E2; try discriminate.
    apply get_indel_2_counts_bounds in E2 as (Ha2 & Hd2 & _). simpl in Ha2, Hd2.
    rewrite Hi1, Hins in Ha2. rewrite Hd1, Hdel in Hd2.
    destruct (ref2read _) in Hrun; try discriminate.
    injection Hrun as <- _ _. lia.
  - destruct (ref2read _) in Hrun; try discriminate.
    injection Hrun as <- _ _. lia.
Qed.

(** *** Reads without substitution *)

Lemma parse_error_from_untouched : forall rvals (i : nat) qs sq
    (rs : RandomState),
  (forall (j : nat) u, rvals !! j = Some u ->
     exists c q p, sq !! (i + j)%nat = Some c /\ c <> N_SYMB
       /\ qs !! (i + j)%nat = Some q /\ getitem PROB_ERR q = Some p
       /\ (p <= u)%Q) ->
  parse_error_from rvals (Z.of_nat i) qs sq rs = Ok (qs, sq, rs).
Proof.
  induction rvals as [|u rvals IH]; intros i qs sq rs H; [done|].
  cbn [parse_error_from].
  destruct (H 0%nat u eq_refl) as (c & q & p & Hc & HcN & Hq & Hp & Hle).
  rewrite Nat.add_0_r in Hc, Hq.
  rewrite !getitem_nonneg by lia. rewrite Nat2Z.id, Hc, Hq.
  destruct (Ascii.eqb_spec c N_SYMB); [done|]. rewrite Hp.
  apply Qle_bool_iff in Hle. rewrite Hle. cbn [negb].
  replace (Z.of_nat i + 1) with (Z.of_nat (S i)) by lia.
  apply IH. intros j u' Hj.
  replace (S i + j)%nat with (i + S j)%nat by lia. by apply H.
Qed.

(** X18. When the sequence holds no N and no position's draw falls below the
    error probability of its quality, [parse_error] changes nothing,
    whatever letters the sequence holds, and uses one draw per
    position. *)
Theorem parse_error_untouched qs sq (rs : RandomState) :
  (length qs <= length rs)%nat ->
  (forall (i : nat) q r, qs !! i = Some q -> rs !! i = Some r ->
     exists c p, sq !! i = Some c /\ c <> N_SYMB
       /\ getitem PROB_ERR q = Some p /\ (p <= fraction53 r)%Q) ->
  parse_error qs sq rs = Ok (qs, sq, drop (length qs) rs).
Proof.
  intros Hrs H. unfold parse_error, sized.
  destruct (Z.ltb_spec (Z.of_nat (length qs)) 0) as [|_]; [lia|].
  rewrite Nat2Z.id. unfold bind.
  rewrite (draw_n_pop UNIFORM fraction53) by done.
  apply (parse_error_from_untouched _ 0). intros j u Hj. simpl.
  rewrite list_lookup_fmap in Hj.
  destruct (take (length qs) rs !! j) as [r|] eqn:Hr; [|done].
  injection Hj as <-. apply lookup_take_Some in Hr as [Hr Hlt].
  destruct (lookup_lt_is_Some_2 qs j Hlt) as [q Hq].
  destruct (H j q r Hq Hr) as (c & p & ? & ? & ? & ?).
  by exists c, q, p.
Qed.

(** *** Pairs, positions and reads without indels *)

Lemma next_read_simple_seq_Ok a template plus_strand qual_val
    (rs : RandomState) :
  0 <= art_read_len a ->
  exists read,
    next_read_simple_seq a template plus_strand qual_val rs = Ok (read, rs)
    /\ seq_read read
       = take (Z.to_nat (art_read_len a))
           (if plus_strand then template else revcomp template)
    /\ quals read = Some (replicate (length (seq_read read)) qual_val).
Proof.
  intros HL. unfold next_read_simple_seq, bind, lift, ret, _new_read, SeqRead_init.
  destruct (Z.ltb_spec (art_read_len a) 0) as [|_]; [lia|].
  set (read0 := mkSeqRead _ _ _ _ _ _ _ _ _ _).
  set (read1 := if _ <? read_len read0 then _ else _).
  assert (read_len read1
          = Z.min (art_read_len a) (Z.of_nat (length template))
          /\ indel read1 = ∅) as [HR Hind].
  { subst read1. simpl. destruct (Z.ltb_spec (Z.of_nat (length template))
                                    (art_read_len a)); simpl; split; (lia || done). }
  set (X := if plus_strand then template else revcomp template).
  assert (length X = length template) as HX.
  { subst X. destruct plus_strand; by rewrite ?length_revcomp. }
  assert (slice_to X (art_read_len a) = take (Z.to_nat (art_read_len a)) X)
    as Hsl.
  { unfold slice_to. by destruct (Z.leb_spec 0 (art_read_len a)); [|lia]. }
  set (read2 := with_bpos _ 0).
  assert (indel read2 = ∅ /\ seq_ref read2 = take (Z.to_nat (art_read_len a)) X
          /\ read_len read2 = read_len read1) as (Hi2 & Hs2 & Hr2).
  { subst read2 X. destruct plus_strand; simpl; rewrite Hind; by rewrite <- Hsl. }
  clearbody read2. unfold ref2read.
  rewrite (bool_decide_eq_true_2 (size (indel read2) = 0%nat))
    by (rewrite Hi2; apply map_size_empty).
  eexists. split; [reflexivity|]. simpl. rewrite Hs2, Hr2, HR.
  split; [done|]. rewrite length_take, HX. do 2 f_equal. lia.
Qed.

(** X2. The two reads of [next_pair_simple_seq] come off the two ends of a
    template that is at least as long as the read: the forward read is
    its first [read_len] characters, the reverse read the reverse
    complement of its last [read_len]; both carry quality 40
    throughout, and the stream is not touched. *)
Theorem next_pair_simple_seq_ends a template (rs : RandomState) :
  0 <= art_read_len a <= Z.of_nat (length template) ->
  exists pair,
    next_pair_simple_seq a template rs = Ok (pair, rs)
    /\ seq_read (fwd pair) = take (Z.to_nat (art_read_len a)) template
    /\ seq_read (rev_read pair)
       = revcomp (drop (length template - Z.to_nat (art_read_len a)) template)
    /\ quals (fwd pair) = Some (replicate (Z.to_nat (art_read_len a)) 40)
    /\ quals (rev_read pair) = Some (replicate (Z.to_nat (art_read_len a)) 40).
Proof.
  intros HL. unfold next_pair_simple_seq, bind, ret.
  destruct (next_read_simple_seq_Ok a template true 40 rs) as (f & -> & Hf & Hqf);
    [lia|].
  destruct (next_read_simple_seq_Ok a template false 40 rs) as (r & -> & Hr & Hqr);
    [lia|].
  eexists. split; [reflexivity|]. simpl.
  rewrite Hqf, Hqr, Hf, Hr, !length_take, length_revcomp.
  split; [done|]. split.
  - unfold revcomp. rewrite firstn_rev, length_map, skipn_map. reflexivity.
  - split; do 2 f_equal; lia.
Qed.

(** *** No event *)

Lemma scan_no_event guard place rate : forall n m (rs : RandomState),
  (n <= length rate)%nat ->
  Forall (fun r => Forall (fun q => (q < fraction53 r)%Q) rate) rs ->
  (n <= length rs)%nat ->
  exists used rs',
    scan guard place rate n m rs = Ok (0, m, rs')
    /\ rs = used ++ rs' /\ (length used <= n)%nat.
Proof.
  induction n as [|n IH]; intros m rs Hn Hhigh Hlen.
  - exists [], rs. split; [done|]. split; [done|simpl; lia].
  - cbn [scan]. destruct (guard (Z.of_nat n)).
    + exists [], rs. split; [done|]. split; [done|simpl; lia].
    + destruct (IH m rs ltac:(lia) Hhigh ltac:(lia)) as (used & rs' & E & ? & ?).
      exists used, rs'. split; [done|]. split; [done|lia].
    + destruct (lookup_lt_is_Some_2 rate n ltac:(lia)) as [q Hq]. rewrite Hq.
      destruct rs as [|r rs]; [simpl in Hlen; lia|].
      apply Forall_cons in Hhigh as [Hr Hhigh].
      unfold bind, UNIFORM.
      pose proof (proj1 (Forall_lookup _ _) Hr n q Hq) as Hlt. simpl in Hlt.
      assert (Qle_bool (fraction53 r) q = false) as ->.
      { apply not_true_is_false. rewrite Qle_bool_iff. by apply Qlt_not_le. }
      destruct (IH m rs ltac:(lia) Hhigh ltac:(simpl in Hlen; lia))
        as (used & rs' & E & -> & ?).
      exists (r :: used), rs'. split; [done|]. split; [done|simpl; lia].
Qed.

(** X6. When every draw of the tape lies above every rate of both curves,
    neither generator places an event: the net change is 0 and the map
    is empty. *)
Theorem no_event_above_the_curves sr (rs : RandomState) :
  Forall (fun r => Forall (fun q => (q < fraction53 r)%Q)
                     (del_rate sr ++ ins_rate sr)) rs ->
  (length (del_rate sr) + length (ins_rate sr) <= length rs)%nat ->
  (exists rs', get_indel sr rs = Ok (0, with_indel sr ∅, rs'))
  /\ (exists rs', get_indel_2 sr rs = Ok (0, with_indel sr ∅, rs')).
Proof.
  intros Hhigh Hlen.
  assert (Forall (fun r => Forall (fun q => (q < fraction53 r)%Q) (del_rate sr)) rs
          /\ Forall (fun r => Forall (fun q => (q < fraction53 r)%Q) (ins_rate sr)) rs)
    as [Hd Hi].
  { split; (eapply Forall_impl; [exact Hhigh|]); simpl; intros r Hr;
      by apply Forall_app in Hr as [? ?]. }
  split.
  - unfold get_indel, get_indel_counts, bind, ret.
    destruct (scan_no_event (fun _ => Proceed)
                (fun i m => with_fuel (fun fuel => place_deletions fuel (read_len sr) i m))
                (del_rate sr) (length (del_rate sr)) ∅ rs)
      as (used & rs1 & -> & -> & Hu); [lia|done|lia|].
    apply Forall_app in Hi as [_ Hi]. rewrite length_app in Hlen.
    destruct (scan_no_event
                (fun i => if read_len sr - 0 - 0 <? i + 1 then Continue else Proceed)
                (fun i m => with_fuel (fun fuel => place_insertions fuel (read_len sr) i m))
                (ins_rate sr) (length (ins_rate sr)) ∅ rs1)
      as (used2 & rs2 & -> & _ & _); [lia|done|lia|].
    by exists rs2.
  - unfold get_indel_2, get_indel_2_counts, bind, ret.
    destruct (scan_no_event (fun _ => Proceed)
                (fun i m => with_fuel (fun fuel => place_insertions fuel (read_len sr) i m))
                (ins_rate sr) (length (ins_rate sr)) ∅ rs)
      as (used & rs1 & -> & -> & Hu); [lia|done|lia|].
    apply Forall_app in Hd as [_ Hd]. rewrite length_app in Hlen.
    destruct (scan_no_event
                (fun i => if 0 =? 0 then Break
                          else if read_len sr - 0 - 0 <? i + 1 then Continue
                          else Proceed)
                (fun i m => with_fuel (fun fuel => place_deletions fuel (read_len sr) i m))
                (del_rate sr) (length (del_rate sr)) ∅ rs1)
      as (used2 & rs2 & -> & _ & _); [lia|done|lia|].
    by exists rs2.
Qed.

(** *** The read at a position *)

Lemma get_indel_no_event sr (rs : RandomState) :
  Forall (fun r => Forall (fun q => (q < fraction53 r)%Q)
                     (del_rate sr ++ ins_rate sr)) rs ->
  (length (del_rate sr) + length (ins_rate sr) <= length rs)%nat ->
  exists used rs',
    get_indel sr rs = Ok (0, with_indel sr ∅, rs')
    /\ rs = used ++ rs'
    /\ (length used <= length (del_rate sr) + length (ins_rate sr))%nat.
Proof.
  intros Hhigh Hlen.
  assert (Forall (fun r => Forall (fun q => (q < fraction53 r)%Q) (del_rate sr)) rs
          /\ Forall (fun r => Forall (fun q => (q < fraction53 r)%Q) (ins_rate sr)) rs)
    as [Hd Hi].
  { split; (eapply Forall_impl; [exact Hhigh|]); simpl; intros r Hr;
      by apply Forall_app in Hr as [? ?]. }
  unfold get_indel, get_indel_counts, bind, ret.
  destruct (scan_no_event (fun _ => Proceed)
              (fun i m => with_fuel (fun fuel => place_deletions fuel (read_len sr) i m))
              (del_rate sr) (length (del_rate sr)) ∅ rs)
    as (used & rs1 & -> & -> & Hu); [lia|done|lia|].
  apply Forall_app in Hi as [_ Hi]. rewrite length_app in Hlen.
  destruct (scan_no_event
              (fun i => if read_len sr - 0 - 0 <? i + 1 then Continue else Proceed)
              (fun i m => with_fuel (fun fuel => place_insertions fuel (read_len sr) i m))
              (ins_rate sr) (length (ins_rate sr)) ∅ rs1)
    as (used2 & rs2 & -> & -> & Hu2); [lia|done|lia|].
  exists (used ++ used2), rs2. split; [done|].
  split; [by rewrite app_assoc|rewrite length_app; lia].
Qed.

Lemma get_indel_2_no_event sr (rs : RandomState) :
  Forall (fun r => Forall (fun q => (q < fraction53 r)%Q)
                     (del_rate sr ++ ins_rate sr)) rs ->
  (length (del_rate sr) + length (ins_rate sr) <= length rs)%nat ->
  exists rs', get_indel_2 sr rs = Ok (0, with_indel sr ∅, rs').
Proof.
  intros Hhigh Hlen.
  assert (Forall (fun r => Forall (fun q => (q < fraction53 r)%Q) (del_rate sr)) rs
          /\ Forall (fun r => Forall (fun q => (q < fraction53 r)%Q) (ins_rate sr)) rs)
    as [Hd Hi].
  { split; (eapply Forall_impl; [exact Hhigh|]); simpl; intros r Hr;
      by apply Forall_app in Hr as [? ?]. }
  unfold get_indel_2, get_indel_2_counts, bind, ret.
  destruct (scan_no_event (fun _ => Proceed)
              (fun i m => with_fuel (fun fuel => place_insertions fuel (read_len sr) i m))
              (ins_rate sr) (length (ins_rate sr)) ∅ rs)
    as (used & rs1 & -> & -> & Hu); [lia|done|lia|].
  apply Forall_app in Hd as [_ Hd]. rewrite length_app in Hlen.
  destruct (scan_no_event
              (fun i => if 0 =? 0 then Break
                        else if read_len sr - 0 - 0 <? i + 1 then Continue
                        else Proceed)
              (fun i m => with_fuel (fun fuel => place_deletions fuel (read_len sr) i m))
              (del_rate sr) (length (del_rate sr)) ∅ rs1)
    as (used2 & rs2 & -> & _ & _); [lia|done|lia|].
  by exists rs2.
Qed.

Lemma next_read_indel_at_fails a pos plus_strand (rs : RandomState) :
  returned (next_read_indel_at a pos plus_strand rs) = false.
Proof.
  unfold next_read_indel_at, bind.
  destruct (lift (_new_read a true) rs) as [[r0 rs0]| |]; try done.
  destruct (get_indel _ rs0) as [[[slen r1] rs1]| |]; try done.
  destruct (ref_seq a) as [refs|]; [|done].
  destruct (ref_seq_cmp a) as [refc|]; [|done].
  by destruct ((if _ <? _ then get_indel_2 r1 else ret (slen, r1)) rs1)
    as [[[slen2 r2] rs2]| |].
Qed.

(** X8. [next_read_indel_at] never returns a read. The reference and its
    reverse complement are kept as lists, a slice of a list is a list,
    and [np.fromstring] raises [TypeError] on a list; without a
    reference [len(self.ref_seq)] raises it. So [next_read_indel],
    which ends in that call, never returns a read either. [TypeError]
    is what the caller sees once the indel draws are made: here, when
    they all lie above the rate curves. *)
Theorem next_read_indel_at_TypeError a pos plus_strand (rs : RandomState) :
  returned (next_read_indel_at a pos plus_strand rs) = false
  /\ returned (next_read_indel a rs) = false
  /\ (0 <= art_read_len a ->
      Forall (fun r => Forall (fun q => (q < fraction53 r)%Q)
                         (art_del_rate a ++ art_ins_rate a)) rs ->
      (2 * (length (art_del_rate a) + length (art_ins_rate a))
       <= length rs)%nat ->
      next_read_indel_at a pos plus_strand rs = Raise TypeError).
Proof.
  split; [apply next_read_indel_at_fails|]. split.
  - unfold next_read_indel, bind. destruct (valid_region a) as [vr|]; [|done].
    destruct (RANDINT 0 vr rs) as [[p rs1]| |]; try done.
    destruct (UNIFORM rs1) as [[u rs2]| |]; try done.
    apply next_read_indel_at_fails.
  - intros HL Hhigh Hlen.
    unfold next_read_indel_at, bind, lift, _new_read, SeqRead_init.
    destruct (Z.ltb_spec (art_read_len a) 0) as [|_]; [lia|].
    set (read0 := with_is_plus_strand _ plus_strand).
    destruct (get_indel_no_event read0 rs) as (used & rs1 & -> & -> & Hu);
      [done|simpl; lia|].
    destruct (ref_seq a) as [refs|]; [|done].
    destruct (ref_seq_cmp a) as [refc|]; [|done].
    destruct (_ <? _); [|done].
    apply Forall_app in Hhigh as [_ Hhigh]. rewrite length_app in Hlen.
    destruct (get_indel_2_no_event (with_indel read0 ∅) rs1) as (rs2 & ->);
      [done|simpl in *; lia|done].
Qed.

(** *** Where the reconstruction puts a position *)

Lemma count_in_app P k len1 len2 :
  count_in P k (len1 + len2)
  = count_in P k len1 + count_in P (k + Z.of_nat len1) len2.
Proof.
  revert k. induction len1 as [|len1 IH]; intros k.
  - simpl. by rewrite Z.add_0_r.
  - cbn [count_in Nat.add]. rewrite IH.
    replace (k + Z.of_nat (S len1)) with (k + 1 + Z.of_nat len1) by lia. lia.
Qed.

Lemma count_in_range P k1 k2 :
  0 <= k1 <= k2 ->
  count_in P 0 (Z.to_nat k2)
  = count_in P 0 (Z.to_nat k1) + count_in P k1 (Z.to_nat (k2 - k1)).
Proof.
  intros H. replace (Z.to_nat k2) with (Z.to_nat k1 + Z.to_nat (k2 - k1))%nat
    by lia.
  rewrite count_in_app. do 2 f_equal. lia.
Qed.

Lemma count_in_succ P k :
  0 <= k ->
  count_in P 0 (Z.to_nat (k + 1))
  = count_in P 0 (Z.to_nat k) + (if P k then 1 else 0).
Proof.
  intros H. rewrite (count_in_range P k (k + 1)) by lia.
  replace (Z.to_nat (k + 1 - k)) with 1%nat by lia. simpl. lia.
Qed.

Lemma setitem_inv {A} (l : list A) n c l' :
  setitem l n c = Some l' ->
  0 <= n < Z.of_nat (length l) /\ l' = <[Z.to_nat n := c]> l.
Proof.
  unfold setitem. destruct (Z.leb_spec 0 n); [|discriminate].
  destruct (Z.ltb_spec n (Z.of_nat (length l))); [|discriminate].
  intros [= <-]. split; [lia|done].
Qed.

Lemma dels_before_succ m k :
  0 <= k ->
  dels_before m (k + 1) = dels_before m k + (if is_del m k then 1 else 0).
Proof. apply count_in_succ. Qed.

Lemma ins_before_succ m k :
  0 <= k ->
  ins_before m (k + 1) = ins_before m k + (if is_ins m k then 1 else 0).
Proof. apply count_in_succ. Qed.

Lemma dels_before_bounds m k : 0 <= k -> 0 <= dels_before m k <= k.
Proof.
  intros H. pose proof (count_in_bounds (is_del m) 0 (Z.to_nat k)).
  unfold dels_before. lia.
Qed.

(** The output index [k - dels_before m k] does not decrease with [k]. *)
Lemma dels_before_mono m k1 k2 :
  0 <= k1 <= k2 -> k1 - dels_before m k1 <= k2 - dels_before m k2.
Proof.
  intros H. unfold dels_before.
  rewrite (count_in_range (is_del m) k1 k2) by lia.
  pose proof (count_in_bounds (is_del m) k1 (Z.to_nat (k2 - k1))). lia.
Qed.

Section Places.

Variable m : gmap Z ascii.
Variable ref : list ascii.

Let M := Z.of_nat (length ref).
Let Db := dels_before m.
Let Ib := ins_before m.

Lemma ref2read_walk_places fuel : forall i n k out n' k' out',
  ref2read_walk fuel m ref i n k out = Ok (n', k', out') ->
  0 <= k -> 0 <= i <= M -> i = k - Ib k -> n = k - Db k ->
  k <= k' /\ M = k' - Ib k' /\ n' = k' - Db k'
  /\ (forall j : nat, Z.of_nat j < n -> out' !! j = out !! j)
  /\ forall x, k <= x < k' ->
       match m !! x with
       | Some c => c <> DEL_MARK -> out' !! Z.to_nat (x - Db x) = Some c
       | None => out' !! Z.to_nat (x - Db x) = ref !! Z.to_nat (x - Ib x)
       end.
Proof.
  induction fuel as [|fuel IH]; intros i n k out n' k' out' Hrun Hk Hi Hik Hnk;
    cbn [ref2read_walk] in Hrun; fold M in Hrun;
    destruct (Z.ltb_spec i M) as [Hlt|Hge]; try discriminate;
    try (injection Hrun as <- <- <-; repeat split; try done; try lia;
         intros; lia).
  pose proof (dels_before_bounds m k Hk) as HDb. fold Db in HDb.
  pose proof (dels_before_succ m k Hk) as HDs.
  pose proof (ins_before_succ m k Hk) as HIs. fold Db in HDs. fold Ib in HIs.
  unfold is_del, is_ins in HDs, HIs.
  destruct (m !! k) as [c|] eqn:Hm.
  - destruct (Ascii.eqb_spec c DEL_MARK) as [->|Hc].
    + (* deletion *)
      rewrite bool_decide_eq_true_2 in HDs by done. simpl in HIs.
      apply IH in Hrun as (Hkk & HM & Hn' & Hkeep & Hput); try lia.
      split; [lia|]. split; [done|]. split; [done|]. split; [done|].
      intros x Hx. destruct (decide (x = k)) as [->|Hne].
      * rewrite Hm. by intros.
      * apply Hput. lia.
    + (* insertion *)
      rewrite bool_decide_eq_false_2 in HDs by congruence. simpl in HIs.
      destruct (setitem out n c) as [out1|] eqn:E; [|discriminate].
      apply setitem_inv in E as [Hn ->].
      apply IH in Hrun as (Hkk & HM & Hn' & Hkeep & Hput); try lia.
      split; [lia|]. split; [done|]. split; [done|]. split.
      * intros j Hj. rewrite Hkeep by lia.
        apply list_lookup_insert_ne. lia.
      * intros x Hx. destruct (decide (x = k)) as [->|Hne].
        -- rewrite Hm. intros _. rewrite <- Hnk.
           rewrite (Hkeep (Z.to_nat n)) by lia.
           apply list_lookup_insert_eq. lia.
        -- apply Hput. lia.
  - rewrite bool_decide_eq_false_2 in HDs by congruence.
    destruct (getitem ref i) as [c|] eqn:Hg; [|discriminate].
    rewrite getitem_nonneg in Hg by lia.
    destruct (setitem out n c) as [out1|] eqn:E; [|discriminate].
    apply setitem_inv in E as [Hn ->].
    apply IH in Hrun as (Hkk & HM & Hn' & Hkeep & Hput); try lia.
    split; [lia|]. split; [done|]. split; [done|]. split.
    + intros j Hj. rewrite Hkeep by lia.
      apply list_lookup_insert_ne. lia.
    + intros x Hx. destruct (decide (x = k)) as [->|Hne].
      * rewrite Hm. rewrite <- Hnk, <- Hik, Hg.
        rewrite (Hkeep (Z.to_nat n)) by lia.
        apply list_lookup_insert_eq. lia.
      * apply Hput. lia.
Qed.

End Places.

Lemma ref2read_flush_places (m : gmap Z ascii) fuel : forall n k out n' k' out',
  ref2read_flush fuel m n k out = Ok (n', k', out') -> 0 <= n ->
  k <= k' /\ n' = n + (k' - k) /\ m !! k' = None
  /\ (forall j : nat, Z.of_nat j < n -> out' !! j = out !! j)
  /\ forall x, k <= x < k' ->
       exists c, m !! x = Some c /\ out' !! Z.to_nat (n + (x - k)) = Some c.
Proof.
  induction fuel as [|fuel IH]; intros n k out n' k' out' Hrun Hn;
    cbn [ref2read_flush] in Hrun; destruct (m !! k) as [c|] eqn:Hm;
    try discriminate;
    try (injection Hrun as <- <- <-; repeat split; try done; try lia;
         intros; lia).
  destruct (setitem out n c) as [out1|] eqn:E; [|discriminate].
  apply setitem_inv in E as [Hn1 ->].
  apply IH in Hrun as (Hkk & Hn' & Hend & Hkeep & Hput); [|lia].
  split; [lia|]. split; [lia|]. split; [done|]. split.
  - intros j Hj. rewrite Hkeep by lia. apply list_lookup_insert_ne. lia.
  - intros x Hx. destruct (decide (x = k)) as [->|Hne].
    + exists c. split; [done|]. replace (n + (k - k)) with n by lia.
      rewrite (Hkeep (Z.to_nat n)) by lia. apply list_lookup_insert_eq. lia.
    + destruct (Hput x ltac:(lia)) as (c' & ? & Hc'). exists c'. split; [done|].
      by replace (n + (x - k)) with (n + 1 + (x - (k + 1))) by lia.
Qed.


(** X7. With a well-formed map, a reference that covers the positions that
    are not insertions and an output array that is long enough, the
    reconstruction puts position [x] of the read at output index [x]
    less the deletions before [x]: an inserted base lands there, and
    otherwise the reference character at index [x] less the insertions
    before [x]; a deleted position leaves no trace. *)
Theorem ref2read_places sr a d :
  indel_wf (read_len sr) (indel sr) a d -> 0 <= read_len sr ->
  read_len sr - a <= Z.of_nat (length (seq_ref sr)) ->
  Z.of_nat (length (seq_ref sr)) + a - d <= Z.of_nat (length (seq_read sr)) ->
  exists k out,
    ref2read_indels sr = Ok (Z.of_nat (length (seq_ref sr)) + a - d, k, out)
    /\ forall x,
         0 <= x ->
         x - dels_before (indel sr) x < Z.of_nat (length (seq_ref sr)) + a - d ->
         match indel sr !! x with
         | Some c =>
             c <> DEL_MARK ->
             out !! Z.to_nat (x - dels_before (indel sr) x) = Some c
         | None =>
             out !! Z.to_nat (x - dels_before (indel sr) x)
             = seq_ref sr !! Z.to_nat (x - ins_before (indel sr) x)
         end.
Proof.
  intros W HR He HF.
  destruct (ref2read_indels_count sr a d W HR He HF) as (kf & out & Hrun & _).
  exists kf, out. split; [done|].
  destruct W as [Hkeys _ _ Ha Hd _].
  unfold ref2read_indels in Hrun.
  destruct (ref2read_walk _ _ _ _ _ _ _) as [[[n1 k1] out1]| |] eqn:E1;
    try discriminate.
  apply ref2read_walk_places in E1
    as (Hk1 & HM & Hn1 & _ & Hput1); try lia;
    [|unfold ins_before; simpl; lia|unfold dels_before; simpl; lia].
  pose proof (dels_before_bounds (indel sr) k1 Hk1) as Hb1.
  assert (0 <= n1) as Hn1pos by lia.
  apply ref2read_flush_places in Hrun
    as (Hk2 & HnF & Hend & Hkeep2 & Hput2); try lia.
  set (m := indel sr) in *. set (R := read_len sr) in *.
  set (M := Z.of_nat (length (seq_ref sr))) in *.
  (* the keys the second loop meets are insertions *)
  assert (forall x, k1 <= x < kf -> is_ins m x = true /\ x < R) as Hins.
  { intros x Hx. destruct (Hput2 x Hx) as (c & Hc & _).
    pose proof (Hkeys x c Hc) as HxR.
    assert (count_in (is_ins m) k1 (Z.to_nat (R - k1)) = Z.of_nat (Z.to_nat (R - k1)))
      as Hfull.
    { pose proof (count_in_bounds (is_ins m) k1 (Z.to_nat (R - k1))).
      pose proof (count_in_range (is_ins m) k1 R ltac:(lia)) as Hsplit.
      unfold ins_before in HM. lia. }
    split; [|lia]. apply (count_in_full _ _ _ Hfull). lia. }
  assert (forall x, k1 <= x <= kf -> dels_before m x = dels_before m k1) as HDconst.
  { intros x Hx. unfold dels_before.
    rewrite (count_in_range (is_del m) k1 x) by lia.
    rewrite (count_in_none (is_del m) k1); [lia|].
    intros p Hp. apply is_ins_is_del. apply Hins. lia. }
  intros x Hx Hidx.
  assert (x < kf) as HxF.
  { destruct (Z.lt_ge_cases x kf) as [|Hge]; [done|]. exfalso.
    pose proof (dels_before_mono m kf x ltac:(lia)) as Hmono.
    rewrite (HDconst kf) in Hmono by lia. lia. }
  destruct (Z.lt_ge_cases x k1) as [Hlt|Hge].
  - specialize (Hput1 x ltac:(lia)).
    assert (is_del m x = false ->
            Z.of_nat (Z.to_nat (x - dels_before m x)) < n1) as Hbelow.
    { intros Hnd. pose proof (dels_before_bounds m x Hx).
      pose proof (dels_before_succ m x Hx) as Hs. rewrite Hnd in Hs.
      pose proof (dels_before_mono m (x + 1) k1 ltac:(lia)). lia. }
    unfold is_del in Hbelow. destruct (m !! x) as [c|] eqn:Hmx.
    + intros Hc. rewrite Hkeep2; [by apply Hput1|].
      apply Hbelow. apply bool_decide_eq_false. congruence.
    + rewrite Hkeep2; [done|].
      apply Hbelow. by apply bool_decide_eq_false.
  - destruct (Hput2 x ltac:(lia)) as (c & Hc & Hout). rewrite Hc. intros _.
    rewrite (HDconst x) by lia.
    replace (x - dels_before m k1) with (n1 + (x - k1)) by lia. done.
Qed.

End Engine.

(** ** Closed instances *)

(** C3 as stated fails: lower case comes back upper case, U comes back
    T, an ambiguity letter comes back N. *)
Lemma revcomp_twice_changes :
  revcomp (revcomp (list_ascii_of_string "aUR")) = list_ascii_of_string "ATN"
  /\ revcomp (revcomp (list_ascii_of_string "aUR")) <> list_ascii_of_string "aUR".
Proof. split; [reflexivity | discriminate]. Qed.

Lemma listed_order_perm : forall l, listed_order l ≡ₚ l.
Proof. intros l. reflexivity. Qed.

(** C1 fails on the code: with one insertion fixed, [get_indel_2] goes on
    to fix two deletions, and returns a net length change of -1. *)
Lemma get_indel_2_more_deletions :
  get_indel_2_counts listed_order read100 tape_one_in_two_out
  = Ok (1, 2, list_to_map [(5, "A"%char); (7, DEL_MARK); (9, DEL_MARK)], [])
  /\ exists sr',
       get_indel_2 listed_order read100 tape_one_in_two_out = Ok (-1, sr', [])
       /\ map_to_list (indel sr')
          = [(7, DEL_MARK); (9, DEL_MARK); (5, "A"%char)].
Proof.
  split; [vm_compute; reflexivity|].
  eexists. split; vm_compute; reflexivity.
Qed.

(** C2 as stated fails: read length 10, a template of 12 bases, one
    insertion: the net change is 1, the reference slice has 9 bases and
    the read has 10, not 10 - 1. *)
Lemma reconstructed_length_not_shorter :
  exists read,
    reconstruct_indel_seq listed_order art10 template12 true tape_one_in
    = Ok (1, read, [])
    /\ seq_ref read = list_ascii_of_string "ACGTACGTA"
    /\ seq_read read = list_ascii_of_string "ACGATACGTA"
    /\ SeqRead_length read = 10
    /\ SeqRead_length read <> art_read_len art10 - 1
    /\ SeqRead_length read <> Z.of_nat (length template12).
Proof.
  eexists. split; [vm_compute; reflexivity|].
  repeat split; try reflexivity; vm_compute; discriminate.
Qed.

(** Where the amended C2 is silent: a template shorter than the read,
    with an insertion. The read keeps the ten cells the constructor
    made, of which the reconstruction wrote six; the other four hold
    the filler of [seq_read[:] = 0], and [SeqRead.length] reports ten,
    not the shorter length its docstring describes. *)
Lemma short_template_read_keeps_cells :
  exists read,
    reconstruct_indel_seq listed_order art10 template5 true tape_one_in_twice
    = Ok (1, read, [])
    /\ seq_ref read = template5
    /\ seq_read read = list_ascii_of_string "ACGAAT0000"
    /\ ref2read_indels read = Ok (6, 6, seq_read read)
    /\ SeqRead_length read = 10.
Proof.
  eexists. split; [vm_compute; reflexivity|].
  repeat split; vm_compute; reflexivity.
Qed.

Lemma reconstructed_length_witness :
  exists slen read rs',
    reconstruct_indel_seq listed_order art10 template12 true tape_one_in
    = Ok (slen, read, rs')
    /\ Z.of_nat (length (seq_ref read))
       = Z.min (art_read_len art10 - slen) (Z.of_nat (length template12))
    /\ (size (indel read) = 0%nat ->
        slen = 0 /\ seq_read read = seq_ref read
        /\ SeqRead_length read
           = Z.min (art_read_len art10) (Z.of_nat (length template12)))
    /\ (art_read_len art10 - slen <= Z.of_nat (length template12) ->
        SeqRead_length read = art_read_len art10
        /\ (size (indel read) <> 0%nat ->
            exists k, ref2read_indels read
              = Ok (art_read_len art10, k, seq_read read))).
Proof.
  eexists _, _, _. split; [vm_compute; reflexivity|].
  eapply (reconstructed_length listed_order listed_order_perm art10 template12
            true tape_one_in).
  vm_compute; reflexivity.
Defined.

Lemma revcomp_involutive_ACGTN_witness :
  revcomp (revcomp (list_ascii_of_string "GATTACANn"))
  = list_ascii_of_string "GATTACANn".
Proof.
  apply (revcomp_involutive_ACGTN (list_ascii_of_string "GATTACANn")).
  apply Forall_forall. intros c Hc. revert c Hc. apply Forall_forall.
  repeat constructor.
Defined.

(** C4 as stated fails: after files that have combined lines only, no
    primary base has any position and the mates differ in length, yet
    the loader returns the profile. *)
Lemma EmpDist_init_without_primary_positions :
  exists d,
    EmpDist_init file_two_positions file_one_position false = Ok d
    /\ qual_dist_first d !! [A_SYMB] = Some []
    /\ qual_dist_second d !! [A_SYMB] = Some []
    /\ dist_max d FIRST = 2 /\ dist_max d SECOND = 1.
Proof.
  eexists. split; [vm_compute; reflexivity|].
  repeat split; vm_compute; reflexivity.
Qed.

(** C5 as stated fails at read length 0, which no profile maximum
    excludes: [assert len(quals) > 0]. *)
Lemma get_read_qual_of_no_position :
  0 <= dist_max ten_positions FIRST
  /\ get_read_qual ten_positions 0 FIRST [1; 2; 3]%N = Raise AssertionError.
Proof. split; [vm_compute; discriminate|vm_compute; reflexivity]. Qed.

Lemma get_read_qual_scores_witness :
  exists qs,
    get_read_qual ten_positions 3 FIRST [499999; 500000; 3; 8]%N
    = Ok (qs, drop (Z.to_nat 3) [499999; 500000; 3; 8]%N)
    /\ Z.of_nat (length qs) = 3
    /\ forall (i : nat) q, qs !! i = Some q ->
         0 <= q <= 79
         /\ exists r t, [499999; 500000; 3; 8]%N !! i = Some r
              /\ replicate 10 two_step_qcdf !! i = Some t
              /\ 1 <= dist_draw r <= MAX_DIST_NUMBER
              /\ selects t (dist_draw r) q.
Proof.
  apply (get_read_qual_scores ten_positions 3 FIRST
           (replicate 10 two_step_qcdf) [499999; 500000; 3; 8]%N).
  - vm_compute; reflexivity.
  - reflexivity.
  - apply Forall_forall. intros t Ht.
    apply elem_of_replicate in Ht as [-> _]. reflexivity.
  - vm_compute. split; discriminate.
  - vm_compute. lia.
Defined.

Lemma parse_error_positions_witness :
  exists qs' sq' rs',
    parse_error listed_order near_PROB_ERR [0; 0; 40; 40]
      (list_ascii_of_string "ANCG")
      [u53 1 2; 0; 0; u53 1 2; 1; 2; 0; 0]%N = Ok (qs', sq', rs')
    /\ length qs' = length [0; 0; 40; 40]
    /\ length sq' = length (list_ascii_of_string "ANCG")
    /\ forall (i : nat) c q r p,
         list_ascii_of_string "ANCG" !! i = Some c ->
         [0; 0; 40; 40] !! i = Some q ->
         [u53 1 2; 0; 0; u53 1 2; 1; 2; 0; 0]%N !! i = Some r ->
         near_PROB_ERR !! Z.to_nat q = Some p ->
         exists q' c',
           qs' !! i = Some q' /\ sq' !! i = Some c'
           /\ position_outcome listed_order c q (fraction53 r) p
                (drop (length [0; 0; 40; 40])
                   [u53 1 2; 0; 0; u53 1 2; 1; 2; 0; 0]%N) q' c'.
Proof.
  apply (parse_error_positions listed_order near_PROB_ERR listed_order_perm
           [0; 0; 40; 40] (list_ascii_of_string "ANCG")
           [u53 1 2; 0; 0; u53 1 2; 1; 2; 0; 0]%N).
  - unfold near_PROB_ERR. rewrite length_map, length_seq. reflexivity.
  - reflexivity.
  - repeat constructor; discriminate.
  - by apply (bool_decide_unpack _).
  - simpl. lia.
Defined.

Lemma indel_map_keys_witness :
  exists slen sr' rs',
    get_indel_2 listed_order read100 tape_one_in_two_out = Ok (slen, sr', rs')
    /\ NoDup (map_to_list (indel sr')).*1
    /\ (forall k, indel sr' !! k = Some DEL_MARK -> 1 <= k < read_len read100)
    /\ (forall k c, indel sr' !! k = Some c -> c <> DEL_MARK ->
          0 <= k < read_len read100 /\ c ∈ PRIMARY_SYMB)
    /\ exists ins_len del_len,
         0 <= ins_len /\ 0 <= del_len /\ slen = ins_len - del_len
         /\ Z.of_nat (length (map_to_list (indel sr'))) = ins_len + del_len.
Proof.
  eexists _, _, _. split; [vm_compute; reflexivity|].
  eapply (indel_map_keys listed_order listed_order_perm read100
            tape_one_in_two_out).
  right. vm_compute; reflexivity.
Defined.

Lemma seeded_runs_identical_witness :
  run listed_order near_PROB_ERR flat_binom_cdf counter_stream 10
    ten_positions (9 # 100000) (11 # 100000) 2 (Some 42) None
    [IndelSeq template12 true; SimpleSeq template12 false 40] [1; 2; 3]%N
  = run listed_order near_PROB_ERR flat_binom_cdf counter_stream 10
      ten_positions (9 # 100000) (11 # 100000) 2 (Some 42) None
      [IndelSeq template12 true; SimpleSeq template12 false 40] [].
Proof.
  apply (seeded_runs_identical listed_order near_PROB_ERR flat_binom_cdf
           counter_stream 10 ten_positions (9 # 100000) (11 # 100000) 2 42
           None [IndelSeq template12 true; SimpleSeq template12 false 40]
           [1; 2; 3]%N []).
  discriminate.
Defined.

Lemma unseeded_state_unchanged_witness :
  exists a g',
    Art_init flat_binom_cdf counter_stream 10 ten_positions
      (9 # 100000) (11 # 100000) 2 (Some 0) None [1; 2; 3]%N = Ok (a, g')
    /\ (Some 0 = None \/ Some 0 = Some 0 -> g' = [1; 2; 3]%N)
    /\ (forall s, Some 0 = Some s -> s <> 0 -> g' = counter_stream s)
    /\ Art_init flat_binom_cdf counter_stream 10 ten_positions
         (9 # 100000) (11 # 100000) 2 (Some 0) None [1; 2; 3]%N
       = Art_init flat_binom_cdf counter_stream 10 ten_positions
           (9 # 100000) (11 # 100000) 2 None None [1; 2; 3]%N.
Proof.
  eexists _, _. split; [vm_compute; reflexivity|].
  eapply (unseeded_state_unchanged flat_binom_cdf counter_stream 10
            ten_positions (9 # 100000) (11 # 100000) 2 (Some 0) None
            [1; 2; 3]%N).
  vm_compute; reflexivity.
Defined.

Lemma parse_error_KeyError_witness :
  parse_error listed_order near_PROB_ERR [0] (list_ascii_of_string "R")
    [u53 1 2] = Raise KeyError.
Proof.
  apply (parse_error_KeyError listed_order near_PROB_ERR listed_order_perm
           "R"%char 0 1%Q [] [] (u53 1 2) []).
  - intros H. repeat (apply elem_of_cons in H as [H|H]; [discriminate|]).
    by apply elem_of_nil in H.
  - discriminate.
  - discriminate.
  - vm_compute; reflexivity.
  - vm_compute; reflexivity.
  - simpl. lia.
Defined.

Lemma next_read_simple_seq_prefix_witness :
  exists read,
    next_read_simple_seq art10 template12 false 40 [7]%N = Ok (read, [7]%N)
    /\ seq_read read
       = take (Z.to_nat (art_read_len art10)) (revcomp template12)
    /\ Z.of_nat (length (seq_read read))
       = Z.min (art_read_len art10) (Z.of_nat (length template12))
    /\ quals read = Some (replicate (length (seq_read read)) 40)
    /\ indel read = ∅.
Proof.
  apply (next_read_simple_seq_prefix art10 template12 false 40 [7]%N).
  vm_compute. discriminate.
Defined.

Lemma next_pair_simple_seq_ends_witness :
  exists pair,
    next_pair_simple_seq art10 template12 [7]%N = Ok (pair, [7]%N)
    /\ seq_read (fwd pair) = take (Z.to_nat (art_read_len art10)) template12
    /\ seq_read (rev_read pair)
       = revcomp (drop (length template12 - Z.to_nat (art_read_len art10))
                    template12)
    /\ quals (fwd pair) = Some (replicate (Z.to_nat (art_read_len art10)) 40)
    /\ quals (rev_read pair)
       = Some (replicate (Z.to_nat (art_read_len art10)) 40).
Proof.
  apply (next_pair_simple_seq_ends art10 template12 [7]%N).
  vm_compute. split; discriminate.
Defined.

Lemma indel_read_quality_length_witness :
  exists read rs',
    next_read_indel_seq listed_order near_PROB_ERR art10 template12 true
      tape_one_in_then_quiet = Ok (read, rs')
    /\ exists qs,
         quals read = Some qs /\ length qs = length (seq_read read)
         /\ (0 < length qs)%nat.
Proof.
  eexists _, _. split; [vm_compute; reflexivity|].
  eapply (indel_read_quality_length listed_order near_PROB_ERR art10
            template12 0 true tape_one_in_then_quiet).
  left. vm_compute; reflexivity.
Defined.

Lemma net_change_bounded_witness :
  exists slen sr' rs',
    get_indel_2 listed_order read100 tape_one_in_two_out = Ok (slen, sr', rs')
    /\ - Z.of_nat (length (del_rate read100)) <= slen
       <= Z.of_nat (length (ins_rate read100)).
Proof.
  eexists _, _, _. split; [vm_compute; reflexivity|].
  eapply (net_change_bounded listed_order listed_order_perm read100
            tape_one_in_two_out).
  right. vm_compute; reflexivity.
Defined.

Lemma get_indel_2_deletes_after_insertion_witness :
  exists slen sr' rs',
    get_indel_2 listed_order read100 tape_one_in_two_out = Ok (slen, sr', rs')
    /\ ((forall k, is_ins (indel sr') k = false) ->
        indel sr' = ∅ /\ slen = 0)
    /\ (forall k, indel sr' !! k = Some DEL_MARK ->
        exists k', is_ins (indel sr') k' = true).
Proof.
  eexists _, _, _. split; [vm_compute; reflexivity|].
  eapply (get_indel_2_deletes_after_insertion listed_order listed_order_perm
            read100 tape_one_in_two_out).
  vm_compute; reflexivity.
Defined.

Lemma revcomp_prefix_is_far_end_witness :
  slice_to (revcomp template12) 5
  = revcomp (drop (length template12 - Z.to_nat 5) template12).
Proof.
  apply (revcomp_prefix_is_far_end template12 5).
  vm_compute. split; discriminate.
Defined.

Lemma revcomp_make_mutable_witness :
  revcomp (make_mutable (list_ascii_of_string "acgTuN"))
  = revcomp (list_ascii_of_string "acgTuN").
Proof.
  apply (revcomp_make_mutable (list_ascii_of_string "acgTuN")).
  by apply (bool_decide_unpack _).
Defined.

Lemma make_dist_well_formed_witness :
  exists t,
    make_dist [30; 40] [5; 10] = Some t
    /\ qcdf_ok t = true
    /\ map snd t = [30; 40]
    /\ map fst t = map (fun c => - ((- (c * MAX_DIST_NUMBER)) / 10)) [5; 10]
    /\ last (map fst t) = Some MAX_DIST_NUMBER.
Proof.
  apply (make_dist_well_formed [30; 40] [5; 10] 10).
  - reflexivity.
  - reflexivity.
  - repeat constructor; discriminate.
  - reflexivity.
  - reflexivity.
  - reflexivity.
  - repeat constructor; discriminate.
Defined.

(** Beyond that total the rounding of the product shows: the last
    threshold of a table can pass 1,000,000. *)
Lemma scaled_count_beyond_2_53 :
  scaled_count 576460752307 576460752307 = 1000001.
Proof. vm_compute. reflexivity. Qed.

Lemma EmpDist_init_profile_lines_witness :
  exists d,
    EmpDist_init (profile_lines [CMB_SYMB] 0 two_pairs)
      (profile_lines [CMB_SYMB] 0 two_pairs) false = Ok d
    /\ qual_dist_first d
       = <[[CMB_SYMB] := map dist_of two_pairs]> empty_qual_dist
    /\ qual_dist_second d
       = <[[CMB_SYMB] := map dist_of two_pairs]> empty_qual_dist
    /\ dist_max d FIRST = Z.of_nat (length two_pairs)
    /\ dist_max d SECOND = Z.of_nat (length two_pairs).
Proof.
  apply (EmpDist_init_profile_lines two_pairs two_pairs);
    repeat constructor.
Defined.

Lemma lookup_qcdf_beyond_last_witness :
  _lookup_qcdf [(500000, 30); (900000, 40)] 900001 = Raise IndexError.
Proof.
  apply (lookup_qcdf_beyond_last [(500000, 30); (900000, 40)] 900001).
  - reflexivity.
  - repeat constructor.
Defined.

Lemma Art_init_postcondition_witness :
  exists a g',
    Art_init flat_binom_cdf counter_stream 10 ten_positions
      (9 # 100000) (11 # 100000) 50 None (Some template12) [1; 2]%N
    = Ok (a, g')
    /\ 10 <= dist_max ten_positions FIRST
    /\ 10 <= dist_max ten_positions SECOND
    /\ emp_dist a = ten_positions /\ art_read_len a = 10
    /\ art_max_num a = Z.min 50 10
    /\ length (art_ins_rate a) = Z.to_nat (Z.min 50 10)
    /\ length (art_del_rate a) = Z.to_nat (Z.min 50 10)
    /\ ref_seq a = Some (make_mutable template12)
    /\ ref_seq_cmp a = Some (revcomp template12)
    /\ valid_region a = Some (Z.of_nat (length template12) - 10).
Proof.
  eexists _, _. split; [vm_compute; reflexivity|].
  eapply (Art_init_postcondition flat_binom_cdf counter_stream 10
            ten_positions (9 # 100000) (11 # 100000) 50 None
            (Some template12) [1; 2]%N).
  vm_compute; reflexivity.
Defined.

Lemma next_read_indel_needs_longer_reference_witness :
  exists a g',
    Art_init flat_binom_cdf counter_stream 10 ten_positions
      (9 # 100000) (11 # 100000) 2 None
      (Some (list_ascii_of_string "ACGTACGTAC")) [1; 2]%N = Ok (a, g')
    /\ (Some (list_ascii_of_string "ACGTACGTAC") = None
        \/ Some (list_ascii_of_string "ACGTACGTAC") = Some [] ->
        next_read_indel listed_order near_PROB_ERR a [3; 4]%N
        = Raise AttributeError)
    /\ (forall r, Some (list_ascii_of_string "ACGTACGTAC") = Some r ->
        r <> [] -> Z.of_nat (length r) <= 10 ->
        next_read_indel listed_order near_PROB_ERR a [3; 4]%N
        = Raise ValueError).
Proof.
  eexists _, _. split; [vm_compute; reflexivity|].
  eapply (next_read_indel_needs_longer_reference listed_order near_PROB_ERR
            flat_binom_cdf counter_stream 10 ten_positions
            (9 # 100000) (11 # 100000) 2 None
            (Some (list_ascii_of_string "ACGTACGTAC")) [1; 2]%N).
  vm_compute; reflexivity.
Defined.

Lemma indel_seq_net_change_within_max_num_witness :
  exists a g' slen read rs',
    Art_init flat_binom_cdf counter_stream 10 ten_positions
      (9 # 100000) (11 # 100000) 50 None None [1; 2]%N = Ok (a, g')
    /\ reconstruct_indel_seq listed_order a template12 true tape_halves
       = Ok (slen, read, rs')
    /\ art_max_num a <= 10 /\ art_max_num a <= 50
    /\ - Z.max 0 (art_max_num a) <= slen <= Z.max 0 (art_max_num a).
Proof.
  eexists _, _, _, _, _. split; [vm_compute; reflexivity|].
  split; [vm_compute; reflexivity|].
  eapply (indel_seq_net_change_within_max_num listed_order flat_binom_cdf
            counter_stream listed_order_perm 10 ten_positions
            (9 # 100000) (11 # 100000) 50 None None [1; 2]%N _ _
            template12 true tape_halves).
  - vm_compute; reflexivity.
  - vm_compute; reflexivity.
Defined.

Lemma parse_error_untouched_witness :
  parse_error listed_order near_PROB_ERR [40; 40]
    (list_ascii_of_string "AR") [u53 1 2; u53 1 2; 9]%N
  = Ok ([40; 40], list_ascii_of_string "AR",
        drop (length [40; 40]) [u53 1 2; u53 1 2; 9]%N).
Proof.
  apply (parse_error_untouched listed_order near_PROB_ERR [40; 40]
           (list_ascii_of_string "AR") [u53 1 2; u53 1 2; 9]%N).
  - simpl. lia.
  - intros [|[|i]] q r Hq Hr; simpl in Hq, Hr; try discriminate;
      injection Hq as <-; injection Hr as <-;
      eexists _, _; (split; [reflexivity|]); (split; [discriminate|]);
      (split; [vm_compute; reflexivity|]); vm_compute; discriminate.
Defined.

Lemma no_event_above_the_curves_witness :
  (exists rs', get_indel listed_order read100 tape_halves
               = Ok (0, with_indel read100 ∅, rs'))
  /\ (exists rs', get_indel_2 listed_order read100 tape_halves
                  = Ok (0, with_indel read100 ∅, rs')).
Proof.
  apply (no_event_above_the_curves listed_order read100 tape_halves).
  - repeat constructor.
  - vm_compute. lia.
Defined.

Lemma ref2read_places_witness :
  exists k out,
    ref2read_indels read_in3_out5
    = Ok (Z.of_nat (length (seq_ref read_in3_out5)) + 1 - 1, k, out)
    /\ forall x,
         0 <= x ->
         x - dels_before (indel read_in3_out5) x
         < Z.of_nat (length (seq_ref read_in3_out5)) + 1 - 1 ->
         match indel read_in3_out5 !! x with
         | Some c =>
             c <> DEL_MARK ->
             out !! Z.to_nat (x - dels_before (indel read_in3_out5) x) = Some c
         | None =>
             out !! Z.to_nat (x - dels_before (indel read_in3_out5) x)
             = seq_ref read_in3_out5
                 !! Z.to_nat (x - ins_before (indel read_in3_out5) x)
         end.
Proof.
  apply (ref2read_places read_in3_out5 1 1).
  - apply (indel_wf_insert 10 (<[5 := DEL_MARK]> ∅) 0 1 3 "A"%char).
    + apply (indel_wf_insert 10 ∅ 0 0 5 DEL_MARK).
      * apply indel_wf_empty.
      * lia.
      * reflexivity.
      * intros _. lia.
      * intros H. by destruct H.
    + lia.
    + reflexivity.
    + discriminate.
    + intros _. by apply (bool_decide_unpack _).
  - discriminate.
  - vm_compute. discriminate.
  - vm_compute. discriminate.
Defined.

Lemma next_read_indel_at_TypeError_witness :
  next_read_indel_at listed_order near_PROB_ERR art10_ref 1 true tape_halves
  = Raise TypeError.
Proof.
  apply (next_read_indel_at_TypeError listed_order near_PROB_ERR
           art10_ref 1 true tape_halves).
  - vm_compute; discriminate.
  - repeat constructor.
  - vm_compute. lia.
Defined.
